(** * videoconvert.py: batch MP4 shrinking and thumbnail extraction

    A shallow embedding of [src/videoconvert.py] and the properties of its
    specification.

    - Python [int] is [Z]; Python [float] is a binary64 value of the
      Standard Library's [spec_float] (precision 53, [emax] 1024), with
      Python's [/], [*] and [<=] read as the IEEE-754 operations.
    - Python [str] is [string]: the UTF-8 bytes of the text.
    - A [pathlib.Path] is the list of its [parts]; an absolute path starts
      with the part ["/"].
    - The operating system (file system queries, [shutil.which],
      [subprocess.run]) and the text conversions of floats are fields of a
      [Host] record; [main] threads the state of the outside world through
      every subprocess call and records what it does as a list of events. *)

From Stdlib Require Import ZArith List String Ascii Bool Lia.
From Stdlib Require Import Sorting.Sorted Sorting.Permutation.
From Stdlib Require Import DecimalString DecimalZ DecimalPos.
From Stdlib Require Import Floats.SpecFloat.
From Stdlib Require Import QArith Qround Qabs Qpower.
Import ListNotations.

Local Open Scope string_scope.
Local Open Scope Z_scope.

(** ** Text *)

Module Text.

(** [str.lower] on the ASCII letters.  The bytes of a character outside
    ASCII are all above 127 and are left alone; no such character
    lower-cases to one of [.], [m], [p], [4]. *)
Definition lower_ascii (c : ascii) : ascii :=
  let n := nat_of_ascii c in
  if ((65 <=? n) && (n <=? 90))%nat then ascii_of_nat (n + 32) else c.

Fixpoint lower (s : string) : string :=
  match s with
  | EmptyString => EmptyString
  | String c s' => String (lower_ascii c) (lower s')
  end.

(** [s.rfind(c)]: the index of the last occurrence of [c], or [-1]. *)
Fixpoint rfind (c : ascii) (s : string) : Z :=
  match s with
  | EmptyString => -1
  | String d s' =>
      let r := rfind c s' in
      if 0 <=? r then r + 1
      else if Ascii.eqb d c then 0 else -1
  end.

Definition len (s : string) : Z := Z.of_nat (String.length s).

(** [s[:i]] and [s[i:]] for [0 <= i]. *)
Definition take (i : Z) (s : string) : string :=
  String.substring 0 (Z.to_nat i) s.
Definition drop (i : Z) (s : string) : string :=
  String.substring (Z.to_nat i) (String.length s - Z.to_nat i) s.

(** [sep.join(parts)]. *)
Definition join (sep : string) (parts : list string) : string :=
  String.concat sep parts.

(** [str(n)] for an [int]. *)
Definition str_int (n : Z) : string := NilZero.string_of_int (Z.to_int n).

(** [int(s)] for a decimal with an optional minus sign. *)
Definition read_int (s : string) : option Z :=
  option_map Z.of_int (NilZero.int_of_string s).

(** [f"{n:02d}"]: decimal digits, zero-filled after the sign up to a total
    width of two characters, never truncated. *)
Definition zfill (width : nat) (digits : string) : string :=
  if (String.length digits <? width)%nat
  then String.concat "" (repeat "0" (width - String.length digits)) ++ digits
  else digits.

Definition format_02d (n : Z) : string :=
  if n <? 0 then "-" ++ zfill 1 (str_int (- n)) else zfill 2 (str_int n).

(** The components of a string between the separator [c]. *)
Fixpoint split (c : ascii) (s : string) : list string :=
  match s with
  | EmptyString => [EmptyString]
  | String d s' =>
      if Ascii.eqb d c then EmptyString :: split c s'
      else match split c s' with
           | [] => [String d EmptyString]
           | w :: ws => String d w :: ws
           end
  end.

End Text.

(** ** Paths *)

Module Path.

(** [PurePath.parts]. *)
Definition t := list string.

Definition sep : string := "/".

(** [str(path)]. *)
Definition str (p : t) : string :=
  match p with
  | [] => "."
  | root :: rest =>
      if String.eqb root sep then sep ++ Text.join sep rest
      else Text.join sep p
  end.

(** [path.name]: the final component, empty for the root alone. *)
Definition name (p : t) : string :=
  let l := last p "" in
  if String.eqb l sep then "" else l.

(** [path.suffix]: [name[i:]] where [i = name.rfind(".")], when
    [0 < i < len(name) - 1]; empty otherwise. *)
Definition suffix (p : t) : string :=
  let name := name p in
  let i := Text.rfind "."%char name in
  if (0 <? i) && (i <? Text.len name - 1) then Text.drop i name else "".

(** [path.stem]: the name without its suffix. *)
Definition stem (p : t) : string :=
  let name := name p in
  let i := Text.rfind "."%char name in
  if (0 <? i) && (i <? Text.len name - 1) then Text.take i name else name.

(** [path.parent]. *)
Definition parent (p : t) : t :=
  match p with
  | [root] => if String.eqb root sep then p else []
  | _ => removelast p
  end.

(** The parts of a path given as text: empty and ["."] components are
    dropped, a leading separator makes the path absolute. *)
Definition keep_part (s : string) : bool :=
  negb (String.eqb s "") && negb (String.eqb s ".").

Definition of_string (s : string) : t :=
  let parts := filter keep_part (Text.split "/"%char s) in
  match s with
  | String "/"%char _ => sep :: parts
  | _ => parts
  end.

Definition is_absolute (p : t) : bool :=
  match p with
  | root :: _ => String.eqb root sep
  | [] => false
  end.

(** [base / other] for two paths: an absolute right operand wins. *)
Definition join (base other : t) : t :=
  if is_absolute other then other else (base ++ other)%list.

(** [base / text]. *)
Definition joinpath (base : t) (text : string) : t :=
  join base (of_string text).

(** What is left of [path] after the parts of [base], if they begin it. *)
Fixpoint strip_parts (path base : t) : option t :=
  match base, path with
  | [], _ => Some path
  | b :: base', x :: path' =>
      if String.eqb x b then strip_parts path' base' else None
  | _ :: _, [] => None
  end.

(** [path.relative_to(base)] raises [ValueError] unless the parts of
    [base] begin the parts of [path]; on success the rest is returned.
    The empty base is [Path(".")]: every relative path is relative to it
    and no absolute path is. *)
Definition relative_to (path base : t) : option t :=
  match base with
  | [] => if is_absolute path then None else Some path
  | _ :: _ => strip_parts path base
  end.

(** The order of [Path.__lt__]: the parts compared as sequences, each part
    by code points. *)
Fixpoint compare (p q : t) : comparison :=
  match p, q with
  | [], [] => Eq
  | [], _ :: _ => Lt
  | _ :: _, [] => Gt
  | x :: p', y :: q' =>
      match String.compare x y with
      | Eq => compare p' q'
      | c => c
      end
  end.

Definition ltb (p q : t) : bool :=
  match compare p q with Lt => true | _ => false end.

Definition le (p q : t) : Prop := compare p q <> Gt.

End Path.

(** ** The built-in [sorted] *)

Section Sorted.

Variable A : Type.
Variable ltb : A -> A -> bool.

(** A stable insertion: [x] goes in front of the first element that is not
    below it. *)
Fixpoint insert (x : A) (l : list A) : list A :=
  match l with
  | [] => [x]
  | y :: l' => if ltb y x then y :: insert x l' else x :: y :: l'
  end.

Definition sorted (l : list A) : list A := fold_right insert [] l.

End Sorted.

Arguments insert {A} ltb x l.
Arguments sorted {A} ltb l.

(** ** Floats *)

Module Float.

Definition prec : Z := 53.
Definition emax : Z := 1024.

Definition t := spec_float.

(** [0.0]. *)
Definition zero : t := S754_zero false.

(** [float(n)] for an [int]: the nearest binary64 value, ties to even. *)
Definition of_int (n : Z) : t := binary_normalize prec emax n 0 false.

Definition one : t := of_int 1.

(** [x * y] and [x / y] on floats. *)
Definition mul (x y : t) : t := SFmul prec emax x y.
Definition div (x y : t) : t := SFdiv prec emax x y.

(** An [int] as an exact, unrounded mantissa. *)
Definition exact (n : Z) : t :=
  match n with
  | Z0 => S754_zero false
  | Zpos p => S754_finite false p 0
  | Zneg p => S754_finite true p 0
  end.

(** [a / b] on two [int]s: the quotient of the exact integers, rounded
    once to the nearest binary64 value, ties to even. *)
Definition truediv (a b : Z) : t := SFdiv prec emax (exact a) (exact b).

(** The rational number a finite float stands for. *)
Definition value (x : t) : Q :=
  match x with
  | S754_finite s m e => (inject_Z (cond_Zopp s (Zpos m)) * 2 ^ e)%Q
  | _ => 0%Q
  end.

(** Where [q + r/b] lies between [q] and [q + 1], for [0 <= r < b]: the
    location the division hands to the rounding. *)
Definition location_of (b r : Z) : location :=
  if r =? 0 then loc_Exact else loc_Inexact (Z.compare (2 * r) b).

(** [x < y] and [x <= y]; both are false when an operand is a NaN. *)
Definition ltb (x y : t) : bool := SFltb x y.
Definition leb (x y : t) : bool := SFleb x y.

End Float.

(** ** The outside world *)

(** [subprocess.CompletedProcess], with both streams captured as text. *)
Record CompletedProcess : Type := {
  returncode : Z;
  stdout : string;
  stderr : string
}.

(** What the program asks of its platform.  The file system is the one the
    run starts in: every query is made before the program changes
    anything.  [realpath p] lists the parts below the root of the path
    [p.resolve()] answers.  [descendants d] lists, relative to [d], every
    entry below [d] as [d.rglob("*")] yields it; [d.glob("*")] yields
    those of one part.  The calls are assumed to return; an error raised by
    the platform itself is outside this model. *)
Record Host : Type := {
  world : Type;
  which : string -> bool;
  expanduser : Path.t -> Path.t;
  realpath : Path.t -> list string;
  path_exists : Path.t -> bool;
  is_dir : Path.t -> bool;
  is_file : Path.t -> bool;
  descendants : Path.t -> list Path.t;
  run : list string -> world -> CompletedProcess * world;
  float_str : Float.t -> string;
  float_fixed : nat -> Float.t -> string;
  float_parse : string -> option Float.t;
  strip : string -> string
}.

(** [p.resolve()]: an absolute path, the root and then the parts the
    platform answers. *)
Definition resolve (h : Host) (p : Path.t) : Path.t :=
  Path.sep :: realpath h p.

(** What a run does, in order.  [Discover] marks the call of
    [find_mp4_files]; [Run] carries the argument vector handed to
    [subprocess.run] and what came back. *)
Inductive event : Type :=
| Stdout (line : string)
| Stderr (line : string)
| Discover (input_dir output_dir : Path.t) (recursive : bool)
| Mkdir (p : Path.t)
| Run (cmd : list string) (result : CompletedProcess).

(** ** Command line arguments *)

Module Args.

(** The [argparse.Namespace] returned by [parse_args]. *)
Record t : Type := {
  input_dir : Path.t;
  output_dir : option Path.t;
  smaller : Z;
  recursive : bool;
  suffix : string;
  crf : Z;
  preset : string;
  audio_bitrate : string;
  overwrite : bool;
  dry_run : bool;
  thumbnails : bool;
  thumbnails_only : bool;
  thumbnail_count : Z
}.

End Args.

(** ** Pure functions of the program *)

Definition is_relative_to (path base : Path.t) : bool :=
  match Path.relative_to path base with
  | Some _ => true
  | None => false
  end.

Section Discovery.

Variable h : Host.

Definition rglob (dir : Path.t) : list Path.t :=
  map (fun rel => (dir ++ rel)%list) (descendants h dir).

Definition glob (dir : Path.t) : list Path.t :=
  map (fun rel => (dir ++ rel)%list)
      (filter (fun rel => (List.length rel =? 1)%nat) (descendants h dir)).

(** The loop of [find_mp4_files]: [files] grows by the candidates that pass
    the three tests. *)
Fixpoint scan (output_dir : Path.t) (glob_iter files : list Path.t)
  : list Path.t :=
  match glob_iter with
  | [] => files
  | candidate :: rest =>
      if negb (is_file h candidate) then scan output_dir rest files
      else if negb (String.eqb (Text.lower (Path.suffix candidate)) ".mp4")
      then scan output_dir rest files
      else if is_relative_to (resolve h candidate) (resolve h output_dir)
      then scan output_dir rest files
      else scan output_dir rest (files ++ [candidate])%list
  end.

(** The three tests of the loop as one predicate. *)
Definition eligible (output_dir candidate : Path.t) : bool :=
  is_file h candidate
  && String.eqb (Text.lower (Path.suffix candidate)) ".mp4"
  && negb (is_relative_to (resolve h candidate) (resolve h output_dir)).

Definition find_mp4_files (input_dir output_dir : Path.t) (recursive : bool)
  : list Path.t :=
  let glob_iter := if recursive then rglob input_dir else glob input_dir in
  sorted Path.ltb (scan output_dir glob_iter []).

End Discovery.

Definition ffmpeg_command (h : Host) (source destination : Path.t)
    (scale_factor : Float.t) (crf : Z) (preset audio_bitrate : string)
    (overwrite : bool) : list string :=
  let scale_expr :=
    "scale=trunc(iw*" ++ float_str h scale_factor ++ "/2)*2:" ++
    "trunc(ih*" ++ float_str h scale_factor ++ "/2)*2" in
  [ "ffmpeg";
    "-hide_banner";
    "-loglevel";
    "error";
    if overwrite then "-y" else "-n";
    "-i";
    Path.str source;
    "-vf";
    scale_expr;
    "-c:v";
    "libx264";
    "-preset";
    preset;
    "-crf";
    Text.str_int crf;
    "-c:a";
    "aac";
    "-b:a";
    audio_bitrate;
    "-movflags";
    "+faststart";
    Path.str destination ].

Definition ffprobe_command (source : Path.t) : list string :=
  [ "ffprobe";
    "-v";
    "error";
    "-show_entries";
    "format=duration";
    "-of";
    "default=noprint_wrappers=1:nokey=1";
    Path.str source ].

Definition thumbnail_command (h : Host) (source destination : Path.t)
    (timestamp_seconds : Float.t) (overwrite : bool) : list string :=
  [ "ffmpeg";
    "-hide_banner";
    "-loglevel";
    "error";
    if overwrite then "-y" else "-n";
    "-ss";
    float_fixed h 3 timestamp_seconds;
    "-i";
    Path.str source;
    "-frames:v";
    "1";
    "-q:v";
    "2";
    Path.str destination ].

(** What the filter expression [trunc(iw*s/2)*2] asks of the encoder for an
    input dimension [size] and a scale [s], in exact arithmetic; [trunc]
    rounds towards zero. *)
Definition trunc (q : Q) : Z :=
  if Qle_bool 0 q then Qfloor q else Qceiling q.

Definition scaled_dimension (size : Z) (s : Q) : Z :=
  trunc (inject_Z size * s / 2) * 2.

(** [range(start, stop)]. *)
Fixpoint range_from (start : Z) (n : nat) : list Z :=
  match n with
  | O => []
  | S n' => start :: range_from (start + 1) n'
  end.

Definition range (start stop : Z) : list Z :=
  range_from start (Z.to_nat (stop - start)).

Definition build_thumbnail_points (count : Z) : list (Z * Float.t) :=
  map (fun index => (index, Float.truediv index (count + 1)))
      (range 1 (count + 1)).

(** ** The run as a computation *)

(** A step either returns a value or raises; either way it has a trace and
    leaves the world in a new state. *)
Inductive outcome (A : Type) : Type :=
| Return (a : A)
| Raise (exn : string).

Arguments Return {A} a.
Arguments Raise {A} exn.

Section Run.

Variable h : Host.

Definition M (A : Type) : Type :=
  world h -> outcome A * list event * world h.

Definition ret {A} (a : A) : M A := fun w => (Return a, [], w).

Definition bind {A B} (m : M A) (f : A -> M B) : M B :=
  fun w =>
    match m w with
    | (Return a, t1, w1) =>
        match f a w1 with
        | (r, t2, w2) => (r, (t1 ++ t2)%list, w2)
        end
    | (Raise e, t1, w1) => (Raise e, t1, w1)
    end.

Definition raise {A} (exn : string) : M A := fun w => (Raise exn, [], w).

Definition emit (e : event) : M unit := fun w => (Return tt, [e], w).

Notation "x <- m ;; k" := (bind m (fun x => k))
  (at level 61, m at next level, right associativity).
Notation "m ;; k" := (bind m (fun _ => k))
  (at level 61, right associativity).

Definition print (line : string) : M unit := emit (Stdout line).
Definition print_err (line : string) : M unit := emit (Stderr line).
Definition mkdir (p : Path.t) : M unit := emit (Mkdir p).

(** [subprocess.run(cmd, stdout=PIPE, stderr=PIPE, text=True)]. *)
Definition subprocess_run (cmd : list string) : M CompletedProcess :=
  fun w => let (result, w') := run h cmd w in (Return result, [Run cmd result], w').

(** [when c m]: [if c: m]. *)
Definition when (c : bool) (m : M unit) : M unit := if c then m else ret tt.

(** What [ffprobe_duration_seconds] makes of a finished probe. *)
Definition duration_of (result : CompletedProcess) : option Float.t :=
  if negb (returncode result =? 0) then None
  else
    let value := strip h (stdout result) in
    if String.eqb value "" then None
    else float_parse h value.

Definition ffprobe_duration_seconds (source : Path.t) : M (option Float.t) :=
  result <- subprocess_run (ffprobe_command source) ;;
  ret (duration_of result).

(** The two failure counters of [main]. *)
Record Counters : Type := {
  conversion_failures : Z;
  thumbnail_failures : Z
}.

Definition add_conversion_failure (c : Counters) : Counters :=
  {| conversion_failures := conversion_failures c + 1;
     thumbnail_failures := thumbnail_failures c |}.

Definition add_thumbnail_failure (c : Counters) : Counters :=
  {| conversion_failures := conversion_failures c;
     thumbnail_failures := thumbnail_failures c + 1 |}.

(** [--smaller] as checked by [main]: the error text, or the scale factor. *)
Definition resolve_scale (do_video_conversion : bool) (smaller : Z)
  : string + Float.t :=
  let scale_factor := Float.zero in
  if do_video_conversion then
    if (smaller <=? 0) || (smaller >=? 100) then
      inl "Error: --smaller must be between 1 and 99."
    else
      let scale_factor :=
        Float.div (Float.of_int (100 - smaller)) (Float.of_int 100) in
      if Float.leb scale_factor Float.zero then
        inl "Error: resulting scale factor must be > 0."
      else inr scale_factor
  else inr scale_factor.

Section Driver.

Variable args : Args.t.

Let do_thumbnails : bool := Args.thumbnails args || Args.thumbnails_only args.
Let do_video_conversion : bool := negb (Args.thumbnails_only args).

Variables input_dir output_dir : Path.t.
Variable scale_factor : Float.t.

Definition thumb_filename (stem : string) (thumb_index : Z) : string :=
  stem ++ "_thumb_" ++ Text.format_02d thumb_index ++ ".jpg".

(** The conversion of one source, lines 297 to 326. *)
Definition convert (source rel_parent : Path.t) (c : Counters) : M Counters :=
  let target_parent := Path.join output_dir rel_parent in
  mkdir target_parent ;;
  let destination :=
    Path.joinpath target_parent
      (Path.stem source ++ Args.suffix args ++ Path.suffix source) in
  let cmd :=
    ffmpeg_command h source destination scale_factor (Args.crf args)
      (Args.preset args) (Args.audio_bitrate args) (Args.overwrite args) in
  print ("  convert -> " ++ Path.str destination) ;;
  if Args.dry_run args then
    print ("  " ++ Text.join " " cmd) ;;
    ret c
  else
    result <- subprocess_run cmd ;;
    if negb (returncode result =? 0) then
      print_err ("  convert failed (" ++ Text.str_int (returncode result) ++ ")") ;;
      when (negb (String.eqb (strip h (stderr result)) ""))
           (print_err ("  " ++ strip h (stderr result))) ;;
      ret (add_conversion_failure c)
    else ret c.

(** One pass of the loop over the thumbnail points, lines 339 to 371. *)
Definition thumbnail (source thumb_parent : Path.t) (duration : Float.t)
    (point : Z * Float.t) (c : Counters) : M Counters :=
  let '(thumb_index, fraction) := point in
  let timestamp := Float.mul duration fraction in
  let thumb_pct := Float.mul fraction (Float.of_int 100) in
  let thumb_path :=
    Path.joinpath thumb_parent (thumb_filename (Path.stem source) thumb_index) in
  let thumb_cmd :=
    thumbnail_command h source thumb_path timestamp (Args.overwrite args) in
  print ("  thumb " ++ Text.str_int thumb_index ++ "/"
           ++ Text.str_int (Args.thumbnail_count args)
           ++ " (" ++ float_fixed h 1 thumb_pct ++ "%) -> "
           ++ Path.str thumb_path) ;;
  if Args.dry_run args then
    print ("  " ++ Text.join " " thumb_cmd) ;;
    ret c
  else
    thumb_result <- subprocess_run thumb_cmd ;;
    if negb (returncode thumb_result =? 0) then
      print_err ("  thumbnail " ++ Text.str_int thumb_index ++ " failed ("
                   ++ Text.str_int (returncode thumb_result) ++ ")") ;;
      when (negb (String.eqb (strip h (stderr thumb_result)) ""))
           (print_err ("  " ++ strip h (stderr thumb_result))) ;;
      ret (add_thumbnail_failure c)
    else ret c.

Fixpoint thumbnail_loop (source thumb_parent : Path.t) (duration : Float.t)
    (thumbnail_points : list (Z * Float.t)) (c : Counters) : M Counters :=
  match thumbnail_points with
  | [] => ret c
  | point :: rest =>
      c' <- thumbnail source thumb_parent duration point c ;;
      thumbnail_loop source thumb_parent duration rest c'
  end.

(** [duration is None or duration <= 0]. *)
Definition duration_unavailable (duration : option Float.t) : bool :=
  match duration with
  | None => true
  | Some d => Float.leb d Float.zero
  end.

(** The thumbnails of one source, lines 328 to 371. *)
Definition thumbnails (source rel_parent : Path.t) (c : Counters) : M Counters :=
  let thumbnails_dir := Path.joinpath output_dir "thumbnails" in
  duration <- ffprobe_duration_seconds source ;;
  match duration with
  | Some d =>
      if Float.leb d Float.zero then
        print_err "  thumbnail failed (could not read duration)" ;;
        ret (add_thumbnail_failure c)
      else
        let thumb_parent := Path.join thumbnails_dir rel_parent in
        mkdir thumb_parent ;;
        let thumbnail_points :=
          build_thumbnail_points (Args.thumbnail_count args) in
        thumbnail_loop source thumb_parent d thumbnail_points c
  | None =>
      print_err "  thumbnail failed (could not read duration)" ;;
      ret (add_thumbnail_failure c)
  end.

(** The body of the loop over the sources, lines 293 to 371. *)
Definition process_file (total index : Z) (source : Path.t) (c : Counters)
  : M Counters :=
  rel <- match Path.relative_to source input_dir with
         | Some rel => ret rel
         | None => raise "ValueError"
         end ;;
  let rel_parent := Path.parent rel in
  print ("[" ++ Text.str_int index ++ "/" ++ Text.str_int total ++ "] "
           ++ Path.name source) ;;
  c1 <- (if do_video_conversion then convert source rel_parent c else ret c) ;;
  if do_thumbnails then thumbnails source rel_parent c1 else ret c1.

(** [for index, source in enumerate(sources, start=1)]. *)
Fixpoint process_all (total index : Z) (sources : list Path.t) (c : Counters)
  : M Counters :=
  match sources with
  | [] => ret c
  | source :: rest =>
      c' <- process_file total index source c ;;
      process_all total (index + 1) rest c'
  end.

(** [main] from file discovery on, lines 269 to 379. *)
Definition drive : M Z :=
  emit (Discover input_dir output_dir (Args.recursive args)) ;;
  let sources := find_mp4_files h input_dir output_dir (Args.recursive args) in
  match sources with
  | [] =>
      print "No MP4 files found." ;;
      ret 0
  | _ :: _ =>
      mkdir output_dir ;;
      let thumbnails_dir := Path.joinpath output_dir "thumbnails" in
      when do_thumbnails (mkdir thumbnails_dir) ;;
      let conversion_part :=
        "video conversion at scale factor " ++ float_fixed h 2 scale_factor
          ++ " (" ++ Text.str_int (Args.smaller args) ++ "% smaller)" in
      let thumbnails_part :=
        Text.str_int (Args.thumbnail_count args)
          ++ " evenly spaced thumbnails per video" in
      let mode_parts :=
        ((if do_video_conversion then [conversion_part] else []) ++
         (if do_thumbnails then [thumbnails_part] else []))%list in
      let total := Z.of_nat (List.length sources) in
      print ("Found " ++ Text.str_int total ++ " MP4 file(s). Running: "
               ++ Text.join ", " mode_parts ++ ".") ;;
      c <- process_all total 1 sources
             {| conversion_failures := 0; thumbnail_failures := 0 |} ;;
      let total_failures := conversion_failures c + thumbnail_failures c in
      print ("Completed. Conversion failures: "
               ++ Text.str_int (conversion_failures c)
               ++ ", Thumbnail failures: "
               ++ Text.str_int (thumbnail_failures c)) ;;
      ret (if total_failures =? 0 then 0 else 1)
  end.

End Driver.

Definition main (args : Args.t) : M Z :=
  let do_thumbnails := Args.thumbnails args || Args.thumbnails_only args in
  let do_video_conversion := negb (Args.thumbnails_only args) in
  if negb (which h "ffmpeg") then
    print_err "Error: ffmpeg is not installed or not in PATH." ;;
    print_err "Install on macOS with: brew install ffmpeg" ;;
    ret 2
  else if do_thumbnails && negb (which h "ffprobe") then
    print_err "Error: ffprobe is not installed or not in PATH." ;;
    print_err "Install on macOS with: brew install ffmpeg" ;;
    ret 2
  else if do_thumbnails && (Args.thumbnail_count args <? 1) then
    print_err "Error: --thumbnail-count must be at least 1." ;;
    ret 2
  else
    let input_dir := resolve h (expanduser h (Args.input_dir args)) in
    if negb (path_exists h input_dir) || negb (is_dir h input_dir) then
      print_err ("Error: input directory does not exist: " ++ Path.str input_dir) ;;
      ret 2
    else
      let output_dir :=
        match Args.output_dir args with
        | Some o => resolve h (expanduser h o)
        | None => resolve h (Path.joinpath input_dir "converted")
        end in
      match resolve_scale do_video_conversion (Args.smaller args) with
      | inl message =>
          print_err message ;;
          ret 2
      | inr scale_factor => drive args input_dir output_dir scale_factor
      end.

End Run.

Arguments ret {h A} a.
Arguments bind {h A B} m f.

(** ** A host to run the program on *)

Module Demo.

(** ASCII white space, as [str.strip] removes it from both ends. *)
Definition is_space (c : ascii) : bool :=
  let n := nat_of_ascii c in
  ((9 <=? n) && (n <=? 13) || (28 <=? n) && (n <=? 32))%nat.

Fixpoint lstrip (s : string) : string :=
  match s with
  | String c s' => if is_space c then lstrip s' else s
  | EmptyString => EmptyString
  end.

Fixpoint rstrip (s : string) : string :=
  match s with
  | String c s' =>
      match rstrip s' with
      | EmptyString => if is_space c then EmptyString else String c EmptyString
      | r => String c r
      end
  | EmptyString => EmptyString
  end.

Definition strip_ascii (s : string) : string := rstrip (lstrip s).

(** [round(m * 2^e * 10^digits)] to the nearest integer, ties to even. *)
Definition scaled (digits : nat) (m : positive) (e : Z) : Z :=
  let num := Z.pos m * 10 ^ Z.of_nat digits * 2 ^ Z.max e 0 in
  let den := 2 ^ Z.max (- e) 0 in
  let q := num / den in
  let r := num mod den in
  match Z.compare (2 * r) den with
  | Lt => q
  | Gt => q + 1
  | Eq => if Z.even q then q else q + 1
  end.

(** [f"{x:.Nf}"] for a finite [x]. *)
Definition fixed (digits : nat) (x : Float.t) : string :=
  let render (negative : bool) (n : Z) :=
    let whole := Text.str_int (n / 10 ^ Z.of_nat digits) in
    let frac := Text.zfill digits (Text.str_int (n mod 10 ^ Z.of_nat digits)) in
    (if negative then "-" else "") ++ whole
      ++ (if (digits =? 0)%nat then "" else "." ++ frac) in
  match x with
  | S754_zero s => render s 0
  | S754_finite s m e => render s (scaled digits m e)
  | S754_infinity s => if s then "-inf" else "inf"
  | S754_nan => "nan"
  end.

(** Zeros at the end of a decimal fraction removed, one digit kept. *)
Fixpoint trim_zeros (s : string) : string :=
  match s with
  | String c s' =>
      match trim_zeros s' with
      | EmptyString => if Ascii.eqb c "0" then EmptyString else String c EmptyString
      | r => String c r
      end
  | EmptyString => EmptyString
  end.

(** [str(x)] where two decimals determine [x], as for every scale factor
    [(100 - p) / 100.0]. *)
Definition short (x : Float.t) : string :=
  match Text.split "."%char (fixed 2 x) with
  | [whole; frac] =>
      whole ++ "." ++ (match trim_zeros frac with EmptyString => "0" | f => f end)
  | _ => fixed 2 x
  end.

(** [float(text)] for plain decimals [ddd] and [ddd.ddd]. *)
Definition parse (text : string) : option Float.t :=
  let digits (s : string) := option_map Z.of_uint (NilEmpty.uint_of_string s) in
  match Text.split "."%char text with
  | [whole] =>
      match whole with
      | EmptyString => None
      | _ => option_map Float.of_int (digits whole)
      end
  | [whole; frac] =>
      match digits (whole ++ frac) with
      | Some n =>
          if String.eqb (whole ++ frac) "" then None
          else Some (Float.truediv n (10 ^ Text.len frac))
      | None => None
      end
  | _ => None
  end.

(** A directory [/videos] with two sources, one of them in a subdirectory,
    an earlier output under [converted], and a text file. *)
Definition videos : Path.t := ["/"; "videos"].

Definition tree : list Path.t :=
  [ ["sub"]; ["sub"; "b.MP4"]; ["a.mp4"]; ["converted"];
    ["converted"; "a.mp4"]; ["notes.txt"] ].

Definition path_eqb (p q : Path.t) : bool :=
  match Path.compare p q with Eq => true | _ => false end.

Definition directories : list Path.t :=
  [ videos; (videos ++ ["sub"])%list; (videos ++ ["converted"])%list ].

(** The world counts the subprocesses started so far.  A subprocess fails
    whenever [fails] says so for that count; otherwise the probe answers
    with a duration in the text form of [ffprobe] and the encoder
    succeeds. *)
Definition host (tools : string -> bool) (probe_output : string)
    (fails : nat -> bool) : Host :=
  {| world := nat;
     which := tools;
     expanduser := fun p => p;
     realpath := fun p =>
       match p with
       | root :: rest => if String.eqb root Path.sep then rest else p
       | [] => []
       end;
     path_exists := fun p =>
       existsb (path_eqb p) directories
       || existsb (fun rel => path_eqb p (videos ++ rel)%list) tree;
     is_dir := fun p => existsb (path_eqb p) directories;
     is_file := fun p =>
       existsb (fun rel => path_eqb p (videos ++ rel)%list) tree
       && negb (existsb (path_eqb p) directories);
     descendants := fun d => if path_eqb d videos then tree else [];
     run := fun cmd w =>
       (if fails w
        then {| returncode := 1; stdout := ""; stderr := "boom" |}
        else match cmd with
             | "ffprobe" :: _ =>
                 {| returncode := 0; stdout := probe_output; stderr := "" |}
             | _ => {| returncode := 0; stdout := ""; stderr := "" |}
             end, S w);
     float_str := short;
     float_fixed := fixed;
     float_parse := parse;
     strip := strip_ascii |}.

Definition all_tools (tool : string) : bool := true.
Definition never (n : nat) : bool := false.

(** The defaults of [parse_args] for [videoconvert.py /videos]. *)
Definition defaults : Args.t :=
  {| Args.input_dir := videos;
     Args.output_dir := None;
     Args.smaller := 50;
     Args.recursive := false;
     Args.suffix := "";
     Args.crf := 23;
     Args.preset := "medium";
     Args.audio_bitrate := "128k";
     Args.overwrite := false;
     Args.dry_run := false;
     Args.thumbnails := false;
     Args.thumbnails_only := false;
     Args.thumbnail_count := 10 |}.

(** [videoconvert.py /videos --recursive --thumbnails --thumbnail-count 3],
    with and without [--dry-run]. *)
Definition with_thumbnails (dry_run : bool) : Args.t :=
  {| Args.input_dir := videos;
     Args.output_dir := None;
     Args.smaller := 50;
     Args.recursive := true;
     Args.suffix := "";
     Args.crf := 23;
     Args.preset := "medium";
     Args.audio_bitrate := "128k";
     Args.overwrite := false;
     Args.dry_run := dry_run;
     Args.thumbnails := true;
     Args.thumbnails_only := false;
     Args.thumbnail_count := 3 |}.

(** [videoconvert.py /videos --thumbnails-only --thumbnail-count 3
    --smaller p]. *)
Definition thumbnails_only (p : Z) : Args.t :=
  {| Args.input_dir := videos;
     Args.output_dir := None;
     Args.smaller := p;
     Args.recursive := false;
     Args.suffix := "";
     Args.crf := 23;
     Args.preset := "medium";
     Args.audio_bitrate := "128k";
     Args.overwrite := false;
     Args.dry_run := false;
     Args.thumbnails := false;
     Args.thumbnails_only := true;
     Args.thumbnail_count := 3 |}.

(** Both tools installed, every video 100 seconds long, no failure. *)
Definition plain : Host := host all_tools "100.000000" never.

(** The same, but the first subprocess fails. *)
Definition flaky : Host := host all_tools "100.000000" (Nat.eqb 0).

(** No encoder installed. *)
Definition bare : Host := host (fun _ => false) "100.000000" never.

(** A host whose videos have no duration, and whose first subprocess
    fails. *)
Definition broken : Host := host all_tools "0.000000" (Nat.eqb 0).

(** Two videos of the same name, in the directories [a.b] and [a]; as
    text, [.] comes before the separator. *)
Definition dotted_tree : list Path.t :=
  [ ["a.b"]; ["a.b"; "x.mp4"]; ["a"]; ["a"; "x.mp4"] ].

Definition dotted : Host :=
  {| world := nat;
     which := all_tools;
     expanduser := fun p => p;
     realpath := realpath plain;
     path_exists := fun p => true;
     is_dir := fun p => negb (String.eqb (Path.suffix p) ".mp4");
     is_file := fun p => String.eqb (Path.suffix p) ".mp4";
     descendants := fun d => if path_eqb d videos then dotted_tree else [];
     run := run plain;
     float_str := short;
     float_fixed := fixed;
     float_parse := parse;
     strip := strip_ascii |}.

End Demo.

(** ** Vocabulary of the statements *)

Definition outcome_of {h : Host} {A} (x : outcome A * list event * world h)
  : outcome A := fst (fst x).
Definition trace_of {h : Host} {A} (x : outcome A * list event * world h)
  : list event := snd (fst x).
Definition world_of {h : Host} {A} (x : outcome A * list event * world h)
  : world h := snd x.

(** [m] returns from every world, and [Q] holds of what it returns and of
    its trace. *)
Definition spec {h : Host} {A} (m : M h A) (Q : A -> list event -> Prop)
  : Prop :=
  forall w, exists a t w', m w = (Return a, t, w') /\ Q a t.

(** The sum of the two counters, [total_failures]. *)
Definition total_failures (c : Counters) : Z :=
  conversion_failures c + thumbnail_failures c.

(** The arguments with another [--smaller], with another [--dry-run]. *)
Definition with_smaller (args : Args.t) (p : Z) : Args.t :=
  {| Args.input_dir := Args.input_dir args;
     Args.output_dir := Args.output_dir args;
     Args.smaller := p;
     Args.recursive := Args.recursive args;
     Args.suffix := Args.suffix args;
     Args.crf := Args.crf args;
     Args.preset := Args.preset args;
     Args.audio_bitrate := Args.audio_bitrate args;
     Args.overwrite := Args.overwrite args;
     Args.dry_run := Args.dry_run args;
     Args.thumbnails := Args.thumbnails args;
     Args.thumbnails_only := Args.thumbnails_only args;
     Args.thumbnail_count := Args.thumbnail_count args |}.

Definition with_dry_run (args : Args.t) (b : bool) : Args.t :=
  {| Args.input_dir := Args.input_dir args;
     Args.output_dir := Args.output_dir args;
     Args.smaller := Args.smaller args;
     Args.recursive := Args.recursive args;
     Args.suffix := Args.suffix args;
     Args.crf := Args.crf args;
     Args.preset := Args.preset args;
     Args.audio_bitrate := Args.audio_bitrate args;
     Args.overwrite := Args.overwrite args;
     Args.dry_run := b;
     Args.thumbnails := Args.thumbnails args;
     Args.thumbnails_only := Args.thumbnails_only args;
     Args.thumbnail_count := Args.thumbnail_count args |}.

(** The two directories as [main] resolves them. *)
Definition resolved_input (h : Host) (args : Args.t) : Path.t :=
  resolve h (expanduser h (Args.input_dir args)).

Definition resolved_output (h : Host) (args : Args.t) : Path.t :=
  match Args.output_dir args with
  | Some o => resolve h (expanduser h o)
  | None => resolve h (Path.joinpath (resolved_input h args) "converted")
  end.

(** The checks of [main] that end the run with status 2, in its order: the
    encoder, the prober, the thumbnail count, the input directory, the
    percentage. *)
Definition tools_missing (h : Host) (args : Args.t) : bool :=
  negb (which h "ffmpeg")
  || (Args.thumbnails args || Args.thumbnails_only args)
     && negb (which h "ffprobe").

Definition bad_count (args : Args.t) : bool :=
  (Args.thumbnails args || Args.thumbnails_only args)
  && (Args.thumbnail_count args <? 1).

Definition bad_directory (h : Host) (args : Args.t) : bool :=
  negb (path_exists h (resolved_input h args))
  || negb (is_dir h (resolved_input h args)).

Definition bad_percent (args : Args.t) : bool :=
  negb (Args.thumbnails_only args)
  && ((Args.smaller args <=? 0) || (Args.smaller args >=? 100)).

Definition config_error (h : Host) (args : Args.t) : bool :=
  tools_missing h args || bad_count args || bad_directory h args
  || bad_percent args.

(** The scale factor [main] works with: [(100 - smaller) / 100.0] when it
    converts, the initial [0.0] when it does not. *)
Definition scale_of (args : Args.t) : Float.t :=
  if Args.thumbnails_only args then Float.zero
  else Float.div (Float.of_int (100 - Args.smaller args)) (Float.of_int 100).

(** [x] is a float strictly between 0 and 1 that lies within half a unit
    in the last place, [2^-54], of [(100 - p) / 100]. *)
Definition is_scale (p : Z) (x : Float.t) : bool :=
  Float.ltb Float.zero x && Float.ltb x Float.one
  && Qle_bool (Qabs (Float.value x - inject_Z (100 - p) / 100))
       (1 # 2 ^ 54).

Definition percent_ok (p : Z) : bool :=
  match resolve_scale true p with
  | inr x =>
      is_scale p x
      && match SFcompare x
                 (Float.div (Float.of_int (100 - p)) (Float.of_int 100)) with
         | Some Eq => true
         | _ => false
         end
  | inl _ => false
  end.

Definition is_stderr (e : event) : bool :=
  match e with Stderr _ => true | _ => false end.

(** A subprocess that counts as a failed operation: a probe without a
    usable duration, an encoder run with a status other than 0. *)
Definition failed (h : Host) (e : event) : bool :=
  match e with
  | Run ("ffprobe" :: _) result => duration_unavailable (duration_of h result)
  | Run _ result => negb (returncode result =? 0)
  | _ => false
  end.

Definition failures (h : Host) (t : list event) : Z :=
  Z.of_nat (List.length (filter (failed h) t)).

(** The subprocesses of a trace, and those of the encoder. *)
Definition subprocesses (t : list event) : list (list string) :=
  flat_map (fun e => match e with Run cmd _ => [cmd] | _ => [] end) t.

Definition encoder_runs (t : list event) : list (list string) :=
  flat_map (fun e => match e with
                     | Run ("ffmpeg" :: rest) _ => ["ffmpeg" :: rest]
                     | _ => []
                     end) t.

(** The command lines a dry run prints: [print("  " + " ".join(cmd))]. *)
Definition render (cmd : list string) : string := "  " ++ Text.join " " cmd.

Definition command_lines (t : list event) : list string :=
  flat_map (fun e => match e with
                     | Stdout line =>
                         if String.prefix "  ffmpeg " line then [line] else []
                     | _ => []
                     end) t.

(** What a step adds to the counters is the number of failed operations in
    its trace; in a dry run its subprocesses are the probes of [probes]. *)
Definition counted (h : Host) (args : Args.t) (c : Counters)
    (probes : list Path.t) (c' : Counters) (t : list event) : Prop :=
  total_failures c' = total_failures c + failures h t
  /\ (Args.dry_run args = true ->
      subprocesses t = map ffprobe_command probes).

(** The encoder commands of a run whose probes answer [durations]. *)
Section Plan.

Variable h : Host.
Variable args : Args.t.
Variables input_dir output_dir : Path.t.
Variable scale_factor : Float.t.
Variable durations : Path.t -> option Float.t.

Definition planned_conversion (source rel_parent : Path.t) : list string :=
  ffmpeg_command h source
    (Path.joinpath (Path.join output_dir rel_parent)
       (Path.stem source ++ Args.suffix args ++ Path.suffix source))
    scale_factor (Args.crf args) (Args.preset args) (Args.audio_bitrate args)
    (Args.overwrite args).

Definition planned_thumbnail (source rel_parent : Path.t) (duration : Float.t)
    (point : Z * Float.t) : list string :=
  thumbnail_command h source
    (Path.joinpath
       (Path.join (Path.joinpath output_dir "thumbnails") rel_parent)
       (thumb_filename (Path.stem source) (fst point)))
    (Float.mul duration (snd point)) (Args.overwrite args).

Definition planned_thumbnails (source rel_parent : Path.t)
  : list (list string) :=
  match durations source with
  | Some d =>
      if Float.leb d Float.zero then []
      else map (planned_thumbnail source rel_parent d)
             (build_thumbnail_points (Args.thumbnail_count args))
  | None => []
  end.

Definition planned_file (source : Path.t) : list (list string) :=
  match Path.relative_to source input_dir with
  | Some rel =>
      ((if negb (Args.thumbnails_only args)
        then [planned_conversion source (Path.parent rel)] else [])
       ++ (if Args.thumbnails args || Args.thumbnails_only args
           then planned_thumbnails source (Path.parent rel) else []))%list
  | None => []
  end.

Definition plan (sources : list Path.t) : list (list string) :=
  flat_map planned_file sources.

End Plan.

(** A trace carries the encoder commands [commands]: as printed lines in a
    dry run, as subprocesses otherwise. *)
Definition planned_by (args : Args.t) (commands : list (list string))
    (t : list event) : Prop :=
  if Args.dry_run args
  then command_lines t = map render commands /\ encoder_runs t = []
  else encoder_runs t = commands.

(** ** Vocabulary of the further properties *)

(** The arguments with another [--thumbnail-count], with another
    [--output-dir]. *)
Definition with_thumbnail_count (args : Args.t) (k : Z) : Args.t :=
  {| Args.input_dir := Args.input_dir args;
     Args.output_dir := Args.output_dir args;
     Args.smaller := Args.smaller args;
     Args.recursive := Args.recursive args;
     Args.suffix := Args.suffix args;
     Args.crf := Args.crf args;
     Args.preset := Args.preset args;
     Args.audio_bitrate := Args.audio_bitrate args;
     Args.overwrite := Args.overwrite args;
     Args.dry_run := Args.dry_run args;
     Args.thumbnails := Args.thumbnails args;
     Args.thumbnails_only := Args.thumbnails_only args;
     Args.thumbnail_count := k |}.

Definition with_output_dir (args : Args.t) (o : option Path.t) : Args.t :=
  {| Args.input_dir := Args.input_dir args;
     Args.output_dir := o;
     Args.smaller := Args.smaller args;
     Args.recursive := Args.recursive args;
     Args.suffix := Args.suffix args;
     Args.crf := Args.crf args;
     Args.preset := Args.preset args;
     Args.audio_bitrate := Args.audio_bitrate args;
     Args.overwrite := Args.overwrite args;
     Args.dry_run := Args.dry_run args;
     Args.thumbnails := Args.thumbnails args;
     Args.thumbnails_only := Args.thumbnails_only args;
     Args.thumbnail_count := Args.thumbnail_count args |}.

(** The subprocesses of the prober in a trace. *)
Definition prober_runs (t : list event) : list (list string) :=
  flat_map (fun e => match e with
                     | Run ("ffprobe" :: rest) _ => ["ffprobe" :: rest]
                     | _ => []
                     end) t.

(** The directories a trace makes. *)
Definition made (t : list event) : list Path.t :=
  flat_map (fun e => match e with Mkdir p => [p] | _ => [] end) t.

(** A part of a path that is a name: not empty, not ["."], without the
    separator. *)
Definition is_name (part : string) : bool :=
  Path.keep_part part
  && match Text.split "/" part with
     | [whole] => String.eqb whole part
     | _ => false
     end.

(** An encoder command that is a conversion: [-i] follows the overwrite
    flag, where a thumbnail command has [-ss]. *)
Definition is_conversion (cmd : list string) : bool :=
  match cmd with
  | "ffmpeg" :: _ :: _ :: _ :: _ :: "-i" :: _ => true
  | _ => false
  end.

Definition conversion_failed (e : event) : bool :=
  match e with
  | Run cmd result => is_conversion cmd && negb (returncode result =? 0)
  | _ => false
  end.

Definition thumbnail_failed (h : Host) (e : event) : bool :=
  failed h e && negb (conversion_failed e).

Definition count_events (f : event -> bool) (t : list event) : Z :=
  Z.of_nat (List.length (filter f t)).

(** What a step adds to each counter is the number of failed operations of
    its kind in the trace, and its probes are those of [probes]. *)
Definition tallied (h : Host) (c : Counters) (probes : list Path.t)
    (c' : Counters) (t : list event) : Prop :=
  conversion_failures c'
  = conversion_failures c + count_events conversion_failed t
  /\ thumbnail_failures c'
     = thumbnail_failures c + count_events (thumbnail_failed h) t
  /\ prober_runs t = map ffprobe_command probes.

(** The directories made for one source when its probe answers
    [durations source]. *)
Definition made_for (args : Args.t) (input_dir output_dir : Path.t)
    (durations : Path.t -> option Float.t) (source : Path.t) : list Path.t :=
  match Path.relative_to source input_dir with
  | Some rel =>
      ((if negb (Args.thumbnails_only args)
        then [Path.join output_dir (Path.parent rel)] else [])
       ++ (if Args.thumbnails args || Args.thumbnails_only args
           then match durations source with
                | Some d =>
                    if Float.leb d Float.zero then []
                    else [Path.join (Path.joinpath output_dir "thumbnails")
                            (Path.parent rel)]
                | None => []
                end
           else []))%list
  | None => []
  end.

(** The arguments with another [--suffix]. *)
Definition with_suffix (args : Args.t) (text : string) : Args.t :=
  {| Args.input_dir := Args.input_dir args;
     Args.output_dir := Args.output_dir args;
     Args.smaller := Args.smaller args;
     Args.recursive := Args.recursive args;
     Args.suffix := text;
     Args.crf := Args.crf args;
     Args.preset := Args.preset args;
     Args.audio_bitrate := Args.audio_bitrate args;
     Args.overwrite := Args.overwrite args;
     Args.dry_run := Args.dry_run args;
     Args.thumbnails := Args.thumbnails args;
     Args.thumbnails_only := Args.thumbnails_only args;
     Args.thumbnail_count := Args.thumbnail_count args |}.







(** * Properties *)

(** ** The order on paths *)

Lemma ascii_compare_refl (c : ascii) : Ascii.compare c c = Eq.
Proof. unfold Ascii.compare. apply N.compare_refl. Qed.

Lemma ascii_compare_trans (a b c : ascii) (o : comparison) :
  Ascii.compare a b = o -> Ascii.compare b c = o -> Ascii.compare a c = o.
Proof.
  unfold Ascii.compare. destruct o; intros H1 H2.
  - apply N.compare_eq_iff in H1, H2. apply N.compare_eq_iff. congruence.
  - rewrite N.compare_lt_iff in *. lia.
  - rewrite N.compare_gt_iff in *. lia.
Qed.

Lemma string_compare_refl (s : string) : String.compare s s = Eq.
Proof.
  induction s as [|c s IH]; simpl; [reflexivity|].
  now rewrite ascii_compare_refl.
Qed.

Lemma string_compare_lt_trans (s1 s2 s3 : string) :
  String.compare s1 s2 = Lt -> String.compare s2 s3 = Lt ->
  String.compare s1 s3 = Lt.
Proof.
  revert s2 s3.
  induction s1 as [|a s1 IH]; intros [|b s2] [|c s3]; simpl; try congruence.
  destruct (Ascii.compare a b) eqn:Hab; try discriminate;
    destruct (Ascii.compare b c) eqn:Hbc; try discriminate; intros H1 H2.
  - rewrite (ascii_compare_trans _ _ _ _ Hab Hbc). eauto.
  - apply Ascii.compare_eq_iff in Hab. subst. now rewrite Hbc.
  - apply Ascii.compare_eq_iff in Hbc. subst. now rewrite Hab.
  - now rewrite (ascii_compare_trans _ _ _ _ Hab Hbc).
Qed.

Module PathOrder.

Lemma compare_refl (p : Path.t) : Path.compare p p = Eq.
Proof.
  induction p as [|x p IH]; simpl; [reflexivity|].
  now rewrite string_compare_refl.
Qed.

Lemma compare_eq (p q : Path.t) : Path.compare p q = Eq -> p = q.
Proof.
  revert q. induction p as [|x p IH]; intros [|y q]; simpl; try congruence.
  destruct (String.compare x y) eqn:Hxy; try discriminate.
  intros H. apply String.compare_eq_iff in Hxy. f_equal; auto.
Qed.

Lemma compare_antisym (p q : Path.t) :
  Path.compare p q = CompOpp (Path.compare q p).
Proof.
  revert q. induction p as [|x p IH]; intros [|y q]; simpl; try reflexivity.
  rewrite String.compare_antisym.
  destruct (String.compare y x); simpl; auto.
Qed.

Lemma compare_lt_trans (p q r : Path.t) :
  Path.compare p q = Lt -> Path.compare q r = Lt -> Path.compare p r = Lt.
Proof.
  revert q r.
  induction p as [|x p IH]; intros [|y q] [|z r]; simpl; try congruence.
  destruct (String.compare x y) eqn:Hxy; try discriminate;
    destruct (String.compare y z) eqn:Hyz; try discriminate; intros H1 H2.
  - apply String.compare_eq_iff in Hxy, Hyz. subst.
    rewrite string_compare_refl. eauto.
  - apply String.compare_eq_iff in Hxy. subst. now rewrite Hyz.
  - apply String.compare_eq_iff in Hyz. subst. now rewrite Hxy.
  - now rewrite (string_compare_lt_trans _ _ _ Hxy Hyz).
Qed.

Lemma le_refl (p : Path.t) : Path.le p p.
Proof. unfold Path.le. now rewrite compare_refl. Qed.

Lemma le_trans (p q r : Path.t) : Path.le p q -> Path.le q r -> Path.le p r.
Proof.
  unfold Path.le. intros H1 H2.
  destruct (Path.compare p q) eqn:Hpq; try congruence.
  - apply compare_eq in Hpq. now subst.
  - destruct (Path.compare q r) eqn:Hqr; try congruence.
    + apply compare_eq in Hqr. subst. congruence.
    + rewrite (compare_lt_trans _ _ _ Hpq Hqr). discriminate.
Qed.

Lemma le_antisym (p q : Path.t) : Path.le p q -> Path.le q p -> p = q.
Proof.
  unfold Path.le. rewrite (compare_antisym q p).
  destruct (Path.compare p q) eqn:Hpq; simpl; try congruence.
  intros _ _. now apply compare_eq.
Qed.

Lemma ltb_false_le (p q : Path.t) : Path.ltb p q = false -> Path.le q p.
Proof.
  unfold Path.ltb, Path.le. rewrite (compare_antisym q p).
  destruct (Path.compare p q); simpl; congruence.
Qed.

Lemma ltb_true_le (p q : Path.t) : Path.ltb p q = true -> Path.le p q.
Proof.
  unfold Path.ltb, Path.le. destruct (Path.compare p q); congruence.
Qed.

End PathOrder.

(** ** [sorted] returns the sorted permutation *)

Lemma insert_perm (x : Path.t) (l : list Path.t) :
  Permutation (insert Path.ltb x l) (x :: l).
Proof.
  induction l as [|y l IH]; simpl; [reflexivity|].
  destruct (Path.ltb y x); [|reflexivity].
  rewrite IH. apply perm_swap.
Qed.

Lemma sorted_perm (l : list Path.t) : Permutation (sorted Path.ltb l) l.
Proof.
  induction l as [|x l IH]; simpl; [reflexivity|].
  rewrite insert_perm. now constructor.
Qed.

Lemma insert_sorted (x : Path.t) (l : list Path.t) :
  StronglySorted Path.le l -> StronglySorted Path.le (insert Path.ltb x l).
Proof.
  induction 1 as [|y l Hl IH Hy]; simpl.
  - repeat constructor.
  - destruct (Path.ltb y x) eqn:Hyx.
    + constructor; [exact IH|].
      apply (Permutation_Forall (Permutation_sym (insert_perm x l))).
      constructor; [now apply PathOrder.ltb_true_le | exact Hy].
    + apply PathOrder.ltb_false_le in Hyx.
      constructor; [now constructor|].
      constructor; [exact Hyx|].
      eapply Forall_impl; [|exact Hy].
      intros z Hz. eapply PathOrder.le_trans; eassumption.
Qed.

Lemma sorted_sorted (l : list Path.t) :
  StronglySorted Path.le (sorted Path.ltb l).
Proof.
  induction l as [|x l IH]; simpl; [constructor|].
  now apply insert_sorted.
Qed.

(** Two sorted lists with the same elements are the same list. *)
Lemma sorted_unique (l1 l2 : list Path.t) :
  StronglySorted Path.le l1 -> StronglySorted Path.le l2 ->
  Permutation l1 l2 -> l1 = l2.
Proof.
  intros H1. revert l2.
  induction H1 as [|x l1 Hl1 IH Hx]; intros l2 H2 Hp.
  - apply Permutation_nil in Hp. now subst.
  - destruct H2 as [|y l2 Hl2 Hy].
    + apply Permutation_sym, Permutation_nil in Hp. discriminate.
    + assert (Hxy : x = y).
      { apply PathOrder.le_antisym.
        - assert (Hin : In y (x :: l1))
            by (eapply Permutation_in; [apply Permutation_sym; exact Hp | now left]).
          destruct Hin as [->|Hin]; [apply PathOrder.le_refl|].
          rewrite Forall_forall in Hx. now apply Hx.
        - assert (Hin : In x (y :: l2))
            by (eapply Permutation_in; [exact Hp | now left]).
          destruct Hin as [->|Hin]; [apply PathOrder.le_refl|].
          rewrite Forall_forall in Hy. now apply Hy. }
      subst y. f_equal. apply IH; [exact Hl2|].
      eapply Permutation_cons_inv; exact Hp.
Qed.


(** ** Paths below a path *)

Lemma strip_parts_app (d r : Path.t) :
  Path.strip_parts (d ++ r)%list d = Some r.
Proof.
  induction d as [|x d IH]; simpl; [now destruct r|].
  now rewrite String.eqb_refl.
Qed.

Lemma strip_parts_iff (path base rest : Path.t) :
  Path.strip_parts path base = Some rest <-> path = (base ++ rest)%list.
Proof.
  split.
  - revert path. induction base as [|b base IH]; intros [|x path]; simpl;
      try congruence.
    destruct (String.eqb_spec x b) as [->|]; [|discriminate].
    intros H. f_equal. now apply IH.
  - intros ->. apply strip_parts_app.
Qed.

Lemma relative_to_app (d r : Path.t) :
  d <> [] -> Path.relative_to (d ++ r)%list d = Some r.
Proof.
  intros Hd. unfold Path.relative_to.
  destruct d as [|x d]; [congruence|]. apply strip_parts_app.
Qed.

Lemma relative_to_iff (path base rest : Path.t) :
  Path.relative_to path base = Some rest
  <-> path = (base ++ rest)%list
      /\ (base = [] -> Path.is_absolute path = false).
Proof.
  unfold Path.relative_to. destruct base as [|b base].
  - destruct (Path.is_absolute path) eqn:E; split.
    + discriminate.
    + intros [_ H]. now specialize (H eq_refl).
    + intros H. injection H as <-. auto.
    + intros [-> _]. reflexivity.
  - rewrite strip_parts_iff. split; [intros ->; split; [auto | discriminate]|].
    now intros [-> _].
Qed.

Lemma is_relative_to_iff (path base : Path.t) :
  is_relative_to path base = true
  <-> (exists rest, path = (base ++ rest)%list)
      /\ (base = [] -> Path.is_absolute path = false).
Proof.
  unfold is_relative_to. split.
  - destruct (Path.relative_to path base) as [rest|] eqn:E; [|discriminate].
    intros _. apply relative_to_iff in E. destruct E as [E H].
    split; [now exists rest | exact H].
  - intros [[rest E] H].
    now rewrite (proj2 (relative_to_iff path base rest) (conj E H)).
Qed.

(** Below a path that is not empty: the parts of the base begin the parts
    of the path. *)
Lemma is_relative_to_rooted (path base : Path.t) :
  base <> [] ->
  (is_relative_to path base = true
   <-> exists rest, path = (base ++ rest)%list).
Proof.
  intros Hb. rewrite is_relative_to_iff. split; [now intros [H _]|].
  intros H. split; [exact H | congruence].
Qed.

Lemma is_relative_to_trans (path base top : Path.t) :
  is_relative_to path base = true -> is_relative_to base top = true ->
  is_relative_to path top = true.
Proof.
  rewrite !is_relative_to_iff. intros [[r1 E1] A1] [[r2 E2] A2]. split.
  - exists (r2 ++ r1)%list. now rewrite app_assoc, <- E2.
  - intros ->. specialize (A2 eq_refl). simpl in E2. subst r2.
    destruct base as [|b base]; [now apply A1|].
    subst path. exact A2.
Qed.

Lemma resolve_rooted (h : Host) (p : Path.t) : resolve h p <> [].
Proof. discriminate. Qed.

Lemma input_rooted (h : Host) (args : Args.t) : resolved_input h args <> [].
Proof. apply resolve_rooted. Qed.

(** ** File discovery *)

Lemma scan_filter (h : Host) (output_dir : Path.t) (glob_iter files : list Path.t) :
  scan h output_dir glob_iter files
  = (files ++ filter (eligible h output_dir) glob_iter)%list.
Proof.
  revert files. induction glob_iter as [|c rest IH]; intros files; simpl.
  - now rewrite app_nil_r.
  - unfold eligible.
    destruct (is_file h c); simpl; [|apply IH].
    destruct (String.eqb (Text.lower (Path.suffix c)) ".mp4"); simpl; [|apply IH].
    destruct (is_relative_to (resolve h c) (resolve h output_dir)); simpl;
      [apply IH|].
    rewrite IH, <- app_assoc. reflexivity.
Qed.

Lemma eligible_iff (h : Host) (output_dir p : Path.t) :
  eligible h output_dir p = true <->
  is_file h p = true /\ Text.lower (Path.suffix p) = ".mp4"
  /\ is_relative_to (resolve h p) (resolve h output_dir) = false.
Proof.
  unfold eligible.
  rewrite !andb_true_iff, negb_true_iff, String.eqb_eq. tauto.
Qed.

(** The extensions that lower-case to [.mp4]. *)
Lemma lower_mp4_iff (s : string) :
  Text.lower s = ".mp4" <->
  In s [".mp4"; ".mP4"; ".Mp4"; ".MP4"].
Proof.
  split.
  - destruct s as [|c0 [|c1 [|c2 [|c3 [|c4 s]]]]]; simpl; try discriminate.
    intros H. injection H as H0 H1 H2 H3.
    assert (E0 : c0 = "."%char).
    { revert H0. destruct c0 as [[] [] [] [] [] [] [] []]; vm_compute; congruence. }
    assert (E3 : c3 = "4"%char).
    { revert H3. destruct c3 as [[] [] [] [] [] [] [] []]; vm_compute; congruence. }
    assert (E1 : c1 = "m"%char \/ c1 = "M"%char).
    { revert H1. destruct c1 as [[] [] [] [] [] [] [] []]; vm_compute; intros H;
        try discriminate H; auto. }
    assert (E2 : c2 = "p"%char \/ c2 = "P"%char).
    { revert H2. destruct c2 as [[] [] [] [] [] [] [] []]; vm_compute; intros H;
        try discriminate H; auto. }
    subst c0 c3. destruct E1 as [-> | ->], E2 as [-> | ->]; auto.
  - simpl. intros [<-|[<-|[<-|[<-|[]]]]]; reflexivity.
Qed.

Lemma in_rglob (h : Host) (dir p : Path.t) :
  In p (rglob h dir) <->
  exists rel, p = (dir ++ rel)%list /\ In rel (descendants h dir).
Proof.
  unfold rglob. rewrite in_map_iff.
  split; intros [rel [H1 H2]]; exists rel; auto.
Qed.

Lemma in_glob (h : Host) (dir p : Path.t) :
  In p (glob h dir) <->
  exists name, p = (dir ++ [name])%list /\ In [name] (descendants h dir).
Proof.
  unfold glob. rewrite in_map_iff. split.
  - intros [rel [H1 H2]]. apply filter_In in H2. destruct H2 as [H2 H3].
    destruct rel as [|name [|]]; try discriminate. exists name. auto.
  - intros [name [H1 H2]]. exists [name]. split; [auto|].
    apply filter_In. auto.
Qed.

Lemma filter_perm {A} (f : A -> bool) (l1 l2 : list A) :
  Permutation l1 l2 -> Permutation (filter f l1) (filter f l2).
Proof.
  induction 1 as [|x l1 l2 Hp IH|x y l|l1 l2 l3 H1 IH1 H2 IH2]; simpl.
  - constructor.
  - destruct (f x); [now constructor | exact IH].
  - destruct (f x), (f y); try reflexivity. apply perm_swap.
  - now transitivity (filter f l2).
Qed.

Lemma filter_sorted (f : Path.t -> bool) (l : list Path.t) :
  StronglySorted Path.le l -> StronglySorted Path.le (filter f l).
Proof.
  induction 1 as [|x l Hl IH Hx]; simpl; [constructor|].
  destruct (f x); [|exact IH].
  constructor; [exact IH|].
  rewrite Forall_forall in *. intros y Hy. apply filter_In in Hy. now apply Hx.
Qed.

Lemma found_perm (h : Host) (input_dir output_dir : Path.t) (recursive : bool) :
  Permutation (find_mp4_files h input_dir output_dir recursive)
    (filter (eligible h output_dir)
       (if recursive then rglob h input_dir else glob h input_dir)).
Proof.
  unfold find_mp4_files. rewrite scan_filter. simpl. apply sorted_perm.
Qed.

(** The third test of the loop, on the parts of the two resolved paths. *)
Lemma below_output_iff (h : Host) (output_dir p : Path.t) :
  is_relative_to (resolve h p) (resolve h output_dir) = false
  <-> ~ (exists rest, resolve h p = (resolve h output_dir ++ rest)%list).
Proof.
  rewrite <- (is_relative_to_rooted _ _ (resolve_rooted h output_dir)).
  now destruct (is_relative_to (resolve h p) (resolve h output_dir)).
Qed.

(** C5, as the program has it.  [find_mp4_files] returns exactly the
    candidates that are regular files, whose suffix lower-cases to [.mp4]
    (the four spellings [.mp4], [.mP4], [.Mp4], [.MP4]) and whose resolved
    path does not begin with the parts of the resolved output directory,
    that is, is neither that directory nor below it, wherever it lies;
    each as often as the directory listing yields it; in the one sorted
    order of [Path], in which the parts are compared in sequence and which
    no order of enumeration can change.  Without [recursive] the
    candidates are the entries directly in the input directory, with it
    everything below, and the first result is the second restricted to the
    top level. *)
Theorem find_mp4_files_spec (h : Host) (input_dir output_dir : Path.t)
    (recursive : bool) :
  let candidates := if recursive then rglob h input_dir else glob h input_dir in
  let found := find_mp4_files h input_dir output_dir recursive in
  (forall p, In p found <->
     In p candidates /\ is_file h p = true
     /\ In (Path.suffix p) [".mp4"; ".mP4"; ".Mp4"; ".MP4"]
     /\ ~ (exists rest,
             resolve h p = (resolve h output_dir ++ rest)%list))
  /\ Permutation found (filter (eligible h output_dir) candidates)
  /\ StronglySorted Path.le found
  /\ (forall l, Permutation l found -> StronglySorted Path.le l -> l = found)
  /\ (forall p, In p (glob h input_dir) <->
        exists name, p = (input_dir ++ [name])%list
                     /\ In [name] (descendants h input_dir))
  /\ (forall p, In p (rglob h input_dir) <->
        exists rel, p = (input_dir ++ rel)%list
                    /\ In rel (descendants h input_dir))
  /\ find_mp4_files h input_dir output_dir false
     = filter (fun p => (List.length p =? List.length input_dir + 1)%nat)
         (find_mp4_files h input_dir output_dir true).
Proof.
  intros candidates found.
  assert (Hperm : Permutation found (filter (eligible h output_dir) candidates))
    by apply found_perm.
  assert (Hsorted : StronglySorted Path.le found).
  { unfold found, find_mp4_files. apply sorted_sorted. }
  split; [|split; [exact Hperm|split; [exact Hsorted|split; [|split; [|split]]]]].
  - intros p. rewrite <- lower_mp4_iff, <- below_output_iff. split.
    + intros Hin. apply (Permutation_in _ Hperm) in Hin.
      apply filter_In in Hin. destruct Hin as [Hc He].
      apply eligible_iff in He. tauto.
    + intros (Hc & Hf & Hs & Hr).
      apply (Permutation_in _ (Permutation_sym Hperm)).
      apply filter_In. split; [exact Hc|]. apply eligible_iff. tauto.
  - intros l Hl Hs. apply sorted_unique; assumption.
  - apply in_glob.
  - apply in_rglob.
  - apply sorted_unique.
    + unfold find_mp4_files. apply sorted_sorted.
    + apply filter_sorted. unfold find_mp4_files. apply sorted_sorted.
    + rewrite (found_perm h input_dir output_dir false).
      rewrite (filter_perm _ _ _ (found_perm h input_dir output_dir true)).
      unfold glob, rglob.
      induction (descendants h input_dir) as [|rel l IH]; simpl; [reflexivity|].
      assert (Hlen : (List.length (input_dir ++ rel)%list =? List.length input_dir + 1)%nat
                     = (List.length rel =? 1)%nat).
      { rewrite length_app.
        destruct (Nat.eqb_spec (List.length rel) 1) as [E|E].
        - apply Nat.eqb_eq. lia.
        - apply Nat.eqb_neq. lia. }
      destruct (List.length rel =? 1)%nat eqn:Hl; simpl.
      * destruct (eligible h output_dir (input_dir ++ rel)%list); simpl;
          [rewrite Hlen; now constructor | exact IH].
      * destruct (eligible h output_dir (input_dir ++ rel)%list); simpl;
          [rewrite Hlen; exact IH | exact IH].
Qed.

(** C5, as stated, fails for the order.  The sources are sorted by their
    parts, not by the text of their full paths: the video in the directory
    [a] comes before the one in [a.b], though as text [/videos/a.b/x.mp4]
    comes before [/videos/a/x.mp4]. *)
Lemma sorted_by_parts_not_by_text :
  let found :=
    find_mp4_files Demo.dotted Demo.videos ["/"; "videos"; "converted"] true in
  found = [ ["/"; "videos"; "a"; "x.mp4"]; ["/"; "videos"; "a.b"; "x.mp4"] ]
  /\ map Path.str found = ["/videos/a/x.mp4"; "/videos/a.b/x.mp4"]
  /\ String.compare "/videos/a.b/x.mp4" "/videos/a/x.mp4" = Lt.
Proof. repeat split. Qed.

(** ** The conversion command *)

(** C6. [ffmpeg_command] is a function of its seven arguments alone (of the
    host it uses nothing but the text of the scale factor) and returns the
    22 arguments: [ffmpeg -hide_banner -loglevel error], then [-y] when
    [overwrite] is set and [-n] otherwise, the source after [-i], the
    filter [scale=trunc(iw*s/2)*2:trunc(ih*s/2)*2] after [-vf], [libx264]
    with the given preset and CRF, [aac] with the given bitrate,
    [-movflags +faststart], and the destination last.  The two dimensions
    the filter asks for are even. *)
Theorem ffmpeg_command_spec (h : Host) (source destination : Path.t)
    (scale_factor : Float.t) (crf : Z) (preset audio_bitrate : string)
    (overwrite : bool) :
  let cmd :=
    ffmpeg_command h source destination scale_factor crf preset audio_bitrate
      overwrite in
  let s := float_str h scale_factor in
  firstn 4 cmd = ["ffmpeg"; "-hide_banner"; "-loglevel"; "error"]
  /\ nth_error cmd 4 = Some (if overwrite then "-y" else "-n")
  /\ firstn 2 (skipn 5 cmd) = ["-i"; Path.str source]
  /\ firstn 2 (skipn 7 cmd)
     = ["-vf"; "scale=trunc(iw*" ++ s ++ "/2)*2:trunc(ih*" ++ s ++ "/2)*2"]
  /\ firstn 6 (skipn 9 cmd)
     = ["-c:v"; "libx264"; "-preset"; preset; "-crf"; Text.str_int crf]
  /\ firstn 4 (skipn 15 cmd) = ["-c:a"; "aac"; "-b:a"; audio_bitrate]
  /\ firstn 2 (skipn 19 cmd) = ["-movflags"; "+faststart"]
  /\ skipn 21 cmd = [Path.str destination]
  /\ (forall h' : Host,
        float_str h' scale_factor = float_str h scale_factor ->
        ffmpeg_command h' source destination scale_factor crf preset
          audio_bitrate overwrite = cmd)
  /\ (forall (size : Z) (q : Q), Z.even (scaled_dimension size q) = true).
Proof.
  intros cmd s. repeat split; try reflexivity.
  - intros h' Hs. unfold cmd, ffmpeg_command. now rewrite Hs.
  - intros size q. unfold scaled_dimension.
    rewrite Z.even_mul. apply orb_true_r.
Qed.

(** ** Text of integers *)

Lemma append_inv_head (a x y : string) : a ++ x = a ++ y -> x = y.
Proof. induction a as [|c a IH]; simpl; intros H; [exact H|]. injection H. exact IH. Qed.

Lemma list_ascii_app (a b : string) :
  list_ascii_of_string (a ++ b)
  = (list_ascii_of_string a ++ list_ascii_of_string b)%list.
Proof. induction a as [|c a IH]; simpl; [reflexivity|]. now rewrite IH. Qed.

Lemma append_inv_tail (x y a : string) : x ++ a = y ++ a -> x = y.
Proof.
  intros H. apply (f_equal list_ascii_of_string) in H.
  rewrite !list_ascii_app in H. apply app_inv_tail in H.
  rewrite <- (string_of_list_ascii_of_string x), H.
  apply string_of_list_ascii_of_string.
Qed.

Lemma to_int_proper (n : Z) :
  Z.to_int n <> Decimal.Pos Decimal.Nil /\ Z.to_int n <> Decimal.Neg Decimal.Nil.
Proof.
  destruct n as [|p|p]; simpl; split; try discriminate;
    intros H; injection H; apply Unsigned.to_uint_nonnil.
Qed.

Lemma read_str_int (n : Z) : Text.read_int (Text.str_int n) = Some n.
Proof.
  unfold Text.read_int, Text.str_int.
  destruct (to_int_proper n) as [H1 H2].
  rewrite NilZero.isi by assumption. simpl. now rewrite DecimalZ.of_to.
Qed.

Lemma str_int_inj (a b : Z) : Text.str_int a = Text.str_int b -> a = b.
Proof.
  intros H. apply (f_equal Text.read_int) in H. rewrite !read_str_int in H. congruence.
Qed.

Lemma str_int_nonempty (n : Z) : Text.str_int n <> "".
Proof.
  intros H. pose proof (read_str_int n) as R. rewrite H in R. discriminate.
Qed.

(** The digits of a natural number, and the number read from a zero in
    front of them. *)
Lemma str_int_digits (n : Z) :
  0 <= n ->
  exists d, Text.str_int n = NilEmpty.string_of_uint d
            /\ d <> Decimal.Nil /\ Z.of_uint d = n.
Proof.
  intros Hn. unfold Text.str_int. destruct n as [|p|p]; [| |lia].
  - exists (Decimal.D0 Decimal.Nil). repeat split. discriminate.
  - exists (Pos.to_uint p). simpl. unfold NilZero.string_of_uint. split; [|split].
    + destruct (Pos.to_uint p) eqn:E; try reflexivity.
      now apply Unsigned.to_uint_nonnil in E.
    + apply Unsigned.to_uint_nonnil.
    + unfold Z.of_uint. now rewrite Unsigned.of_to.
Qed.

Lemma read_zero_prefixed (n : Z) :
  0 <= n -> Text.read_int ("0" ++ Text.str_int n) = Some n.
Proof.
  intros Hn. destruct (str_int_digits n Hn) as (d & Hs & Hd & Hv).
  rewrite Hs. unfold Text.read_int. simpl.
  rewrite NilEmpty.usu. simpl. unfold Z.of_uint in *. simpl. now rewrite Hv.
Qed.

Lemma string_length_one (s : string) :
  String.length s = 1%nat -> exists c, s = String c "".
Proof.
  destruct s as [|c [|]]; simpl; try discriminate. intros _. now exists c.
Qed.

(** [f"{n:02d}"] on a natural number: a zero in front of a single digit,
    the plain decimal from ten on. *)
Lemma format_02d_nat (n : Z) :
  0 <= n ->
  Text.format_02d n
  = if n <? 10 then "0" ++ Text.str_int n else Text.str_int n.
Proof.
  intros Hn. unfold Text.format_02d.
  destruct (Z.ltb_spec n 0) as [|_]; [lia|].
  unfold Text.zfill.
  destruct (Z.ltb_spec n 10) as [H10|H10].
  - rewrite <- (Z2Nat.id n Hn).
    assert (Hk : (Z.to_nat n < 10)%nat) by lia.
    revert Hk. generalize (Z.to_nat n) as k. intros k Hk.
    do 10 (destruct k as [|k]; [reflexivity|]). lia.
  - destruct (Nat.ltb_spec (String.length (Text.str_int n)) 2) as [Hl|Hl];
      [|reflexivity].
    exfalso.
    assert (Hone : String.length (Text.str_int n) = 1%nat).
    { pose proof (str_int_nonempty n) as Hne.
      destruct (Text.str_int n); simpl in *; [congruence | lia]. }
    destruct (string_length_one _ Hone) as [c Hc].
    pose proof (read_str_int n) as R. rewrite Hc in R.
    revert R. unfold Text.read_int.
    destruct c as [[] [] [] [] [] [] [] []]; vm_compute; intros R;
      try discriminate R; injection R as R; lia.
Qed.

Lemma format_02d_inj (a b : Z) :
  0 <= a -> 0 <= b -> Text.format_02d a = Text.format_02d b -> a = b.
Proof.
  intros Ha Hb H.
  assert (R : forall n, 0 <= n -> Text.read_int (Text.format_02d n) = Some n).
  { intros n Hn. rewrite (format_02d_nat n Hn).
    destruct (n <? 10); [now apply read_zero_prefixed | apply read_str_int]. }
  apply (f_equal Text.read_int) in H. rewrite !R in H by assumption. congruence.
Qed.

Lemma thumb_filename_inj (stem : string) (a b : Z) :
  0 <= a -> 0 <= b -> thumb_filename stem a = thumb_filename stem b -> a = b.
Proof.
  unfold thumb_filename. intros Ha Hb H.
  apply append_inv_head in H. apply (append_inv_head "_thumb_") in H.
  apply append_inv_tail in H. now apply format_02d_inj.
Qed.

(** ** Thumbnail names and paths *)

Lemma split_nonempty (c : ascii) (s : string) : Text.split c s <> [].
Proof.
  destruct s as [|d s]; simpl; [discriminate|].
  destruct (Ascii.eqb d c); [discriminate|].
  destruct (Text.split c s); discriminate.
Qed.

(** Text without the separator, put behind [a], extends the last component
    of [a]. *)
Lemma split_app (c : ascii) (a b : string) :
  Text.split c b = [b] ->
  Text.split c (a ++ b)
  = (removelast (Text.split c a)
       ++ [(last (Text.split c a) "" ++ b)%string])%list.
Proof.
  intros Hb. induction a as [|d a IH]; simpl; [exact Hb|].
  pose proof (split_nonempty c a) as Hne.
  destruct (Ascii.eqb d c).
  - rewrite IH. destruct (Text.split c a) as [|w ws]; [congruence|]. reflexivity.
  - rewrite IH. destruct (Text.split c a) as [|w [|w' ws]]; [congruence| |];
      reflexivity.
Qed.

Lemma split_app_plain (c : ascii) (a b : string) :
  Text.split c a = [a] -> Text.split c b = [b] ->
  Text.split c (a ++ b) = [a ++ b].
Proof. intros Ha Hb. rewrite (split_app c a b Hb), Ha. reflexivity. Qed.

Lemma split_digits (d : Decimal.uint) :
  Text.split "/" (NilEmpty.string_of_uint d) = [NilEmpty.string_of_uint d].
Proof. induction d; simpl; try rewrite IHd; reflexivity. Qed.

Lemma split_format_02d (n : Z) :
  0 <= n -> Text.split "/" (Text.format_02d n) = [Text.format_02d n].
Proof.
  intros Hn. rewrite (format_02d_nat n Hn).
  destruct (str_int_digits n Hn) as (d & Hs & _ & _). rewrite Hs.
  destruct (n <? 10); [apply (split_app_plain "/" "0"); [reflexivity|]|];
    apply split_digits.
Qed.

Lemma last_filter {A} (f : A -> bool) (l : list A) (d : A) :
  l <> [] -> f (last l d) = true -> last (filter f l) d = last l d.
Proof.
  induction l as [|x l IH]; [congruence|]. intros _ Hf.
  destruct l as [|y l].
  - simpl in *. now rewrite Hf.
  - change (last (x :: y :: l) d) with (last (y :: l) d) in *.
    assert (IH' := IH ltac:(discriminate) Hf).
    change (filter f (x :: y :: l))
      with (if f x then x :: filter f (y :: l) else filter f (y :: l)).
    destruct (f x); [|exact IH'].
    destruct (filter f (y :: l)) as [|z zs] eqn:E; [|exact IH'].
    exfalso.
    assert (Hin : In (last (y :: l) d) (filter f (y :: l))).
    { apply filter_In. split; [|exact Hf].
      rewrite (app_removelast_last d (l := y :: l)) at 2 by discriminate.
      apply in_or_app. right. now left. }
    rewrite E in Hin. exact Hin.
Qed.

Lemma last_cons_nonempty {A} (x : A) (l : list A) (d : A) :
  l <> [] -> last (x :: l) d = last l d.
Proof. destruct l; [congruence | reflexivity]. Qed.

Lemma last_app_nonempty {A} (p l : list A) (d : A) :
  l <> [] -> last (p ++ l) d = last l d.
Proof.
  intros Hl. rewrite (app_removelast_last d Hl) at 1.
  rewrite app_assoc. apply last_last.
Qed.

(** The last part of [base / text] is the last component of [text], when
    that is a name. *)
Lemma joinpath_last (base : Path.t) (text : string) :
  Path.keep_part (last (Text.split "/" text) "") = true ->
  last (Path.joinpath base text) "" = last (Text.split "/" text) "".
Proof.
  intros Hk.
  pose proof (last_filter Path.keep_part (Text.split "/" text) ""
                (split_nonempty _ _) Hk) as Hl.
  assert (Hne : filter Path.keep_part (Text.split "/" text) <> []).
  { intros E. rewrite E in Hl. simpl in Hl. rewrite <- Hl in Hk. discriminate. }
  unfold Path.joinpath, Path.join, Path.of_string.
  destruct text as [|c text'] eqn:Et.
  - simpl in Hk. discriminate.
  - rewrite <- Et in *.
    set (parts := filter Path.keep_part (Text.split "/" text)) in *.
    assert (Hcons : last (Path.sep :: parts) "" = last (Text.split "/" text) "")
      by (rewrite last_cons_nonempty; assumption).
    assert (Happ : last (base ++ parts)%list "" = last (Text.split "/" text) "")
      by (rewrite last_app_nonempty; assumption).
    assert (Happ2 : last (base ++ Path.sep :: parts)%list ""
                    = last (Text.split "/" text) "")
      by (rewrite last_app_nonempty by discriminate; assumption).
    rewrite Et.
    destruct c as [[] [] [] [] [] [] [] []];
      destruct (Path.is_absolute _); rewrite <- ?Et; assumption.
Qed.

Lemma thumb_tail_plain (n : Z) :
  0 <= n ->
  Text.split "/" ("_thumb_" ++ Text.format_02d n ++ ".jpg")
  = ["_thumb_" ++ Text.format_02d n ++ ".jpg"].
Proof.
  intros Hn. apply (split_app_plain "/" "_thumb_"); [reflexivity|].
  apply split_app_plain; [now apply split_format_02d | reflexivity].
Qed.

Lemma append_thumb_is_name (a b : string) :
  Path.keep_part (a ++ "_thumb_" ++ b) = true.
Proof.
  unfold Path.keep_part.
  destruct a as [|c [|c' a]]; simpl; try reflexivity;
    destruct (Ascii.eqb c "."); reflexivity.
Qed.

Lemma thumb_path_inj (thumb_parent : Path.t) (stem : string) (a b : Z) :
  0 <= a -> 0 <= b ->
  Path.joinpath thumb_parent (thumb_filename stem a)
  = Path.joinpath thumb_parent (thumb_filename stem b) ->
  a = b.
Proof.
  intros Ha Hb H. apply (f_equal (fun p => last p "")) in H.
  assert (L : forall n, 0 <= n ->
              last (Path.joinpath thumb_parent (thumb_filename stem n)) ""
              = last (Text.split "/" stem) "" ++ "_thumb_"
                  ++ Text.format_02d n ++ ".jpg").
  { intros n Hn.
    assert (E : last (Text.split "/" (thumb_filename stem n)) ""
                = last (Text.split "/" stem) "" ++ "_thumb_"
                    ++ Text.format_02d n ++ ".jpg").
    { unfold thumb_filename.
      rewrite (split_app "/" stem _ (thumb_tail_plain n Hn)). apply last_last. }
    rewrite joinpath_last; rewrite E; [reflexivity|].
    apply append_thumb_is_name. }
  rewrite (L a Ha), (L b Hb) in H.
  apply (thumb_filename_inj (last (Text.split "/" stem) "")); assumption.
Qed.

(** ** [range] and the indices of the thumbnail points *)

Lemma in_range_from (x start : Z) (n : nat) :
  In x (range_from start n) <-> start <= x < start + Z.of_nat n.
Proof.
  revert start. induction n as [|n IH]; intros start; simpl.
  - lia.
  - rewrite IH. lia.
Qed.

Lemma range_from_nodup (start : Z) (n : nat) : NoDup (range_from start n).
Proof.
  revert start. induction n as [|n IH]; intros start; simpl; constructor.
  - rewrite in_range_from. lia.
  - apply IH.
Qed.

Lemma range_from_length (start : Z) (n : nat) :
  List.length (range_from start n) = n.
Proof. revert start. induction n; intros; simpl; auto. Qed.

Lemma in_range (x start stop : Z) :
  In x (range start stop) <-> start <= x < stop.
Proof. unfold range. rewrite in_range_from. lia. Qed.

Lemma points_indices (count : Z) :
  map fst (build_thumbnail_points count) = range 1 (count + 1).
Proof.
  unfold build_thumbnail_points. rewrite map_map. simpl. apply map_id.
Qed.

(** C10. The names [<stem>_thumb_<index>.jpg] made for the points of a
    count [n] are [n] names that carry the indices [1..n], written with a
    zero in front of a single digit and in full from ten on; the names are
    pairwise distinct, and so are the paths they give below the thumbnail
    directory of the source. *)
Theorem thumbnail_names_distinct (n : Z) (stem : string)
    (thumb_parent : Path.t) :
  let indices := map fst (build_thumbnail_points n) in
  List.length indices = Z.to_nat n
  /\ (forall i, In i indices <-> 1 <= i <= n)
  /\ (forall i, In i indices ->
        Text.format_02d i
        = if i <? 10 then "0" ++ Text.str_int i else Text.str_int i)
  /\ NoDup (map (thumb_filename stem) indices)
  /\ NoDup (map (fun i => Path.joinpath thumb_parent (thumb_filename stem i))
              indices).
Proof.
  intros indices. unfold indices. rewrite points_indices.
  assert (Hpos : forall i, In i (range 1 (n + 1)) -> 0 <= i)
    by (intros i Hi; apply in_range in Hi; lia).
  split; [|split; [|split; [|split]]].
  - unfold range. rewrite range_from_length. f_equal. lia.
  - intros i. rewrite in_range. lia.
  - intros i Hi. apply format_02d_nat. auto.
  - apply NoDup_map_NoDup_ForallPairs; [|apply range_from_nodup].
    intros a b Ha Hb. apply thumb_filename_inj; auto.
  - apply NoDup_map_NoDup_ForallPairs; [|apply range_from_nodup].
    intros a b Ha Hb. apply thumb_path_inj; auto.
Qed.

(** ** Reasoning about runs *)

Section Rules.

Context {h : Host}.

Lemma spec_ret {A} (a : A) (Q : A -> list event -> Prop) :
  Q a [] -> spec (h := h) (ret a) Q.
Proof. intros HQ w. exists a, [], w. auto. Qed.

Lemma spec_emit (e : event) (Q : unit -> list event -> Prop) :
  Q tt [e] -> spec (emit h e) Q.
Proof. intros HQ w. exists tt, [e], w. auto. Qed.

Lemma spec_run (cmd : list string) (Q : CompletedProcess -> list event -> Prop) :
  (forall result, Q result [Run cmd result]) -> spec (subprocess_run h cmd) Q.
Proof.
  intros HQ w. unfold subprocess_run.
  destruct (run h cmd w) as [result w'] eqn:E.
  exists result, [Run cmd result], w'. auto.
Qed.

Lemma spec_bind {A B} (m : M h A) (f : A -> M h B)
    (Q : B -> list event -> Prop) :
  spec m (fun a t1 => spec (f a) (fun b t2 => Q b (t1 ++ t2)%list)) ->
  spec (bind m f) Q.
Proof.
  intros Hm w. destruct (Hm w) as (a & t1 & w1 & E1 & Hf).
  destruct (Hf w1) as (b & t2 & w2 & E2 & HQ).
  exists b, (t1 ++ t2)%list, w2. unfold bind. rewrite E1, E2. auto.
Qed.

Lemma spec_weaken {A} (m : M h A) (Q Q' : A -> list event -> Prop) :
  spec m Q -> (forall a t, Q a t -> Q' a t) -> spec m Q'.
Proof.
  intros Hm HQ w. destruct (Hm w) as (a & t & w' & E & H).
  exists a, t, w'. auto.
Qed.

Lemma spec_when (c : bool) (m : M h unit) (Q : unit -> list event -> Prop) :
  (c = true -> spec m Q) -> (c = false -> Q tt []) -> spec (when h c m) Q.
Proof.
  intros H1 H2. destruct c; simpl; [auto | apply spec_ret; auto].
Qed.

End Rules.

Ltac mstep :=
  lazymatch goal with
  | |- spec (bind _ _) _ => apply spec_bind
  | |- spec (ret _) _ => apply spec_ret
  | |- spec (print _ _) _ => apply spec_emit
  | |- spec (print_err _ _) _ => apply spec_emit
  | |- spec (mkdir _ _) _ => apply spec_emit
  | |- spec (emit _ _) _ => apply spec_emit
  | |- spec (subprocess_run _ _) _ => apply spec_run; intros ?result
  | |- spec (when _ _ _) _ => apply spec_when; intros ?Hwhen
  | |- spec (if ?c then _ else _) _ => destruct c eqn:?Hif
  end.

Lemma failures_app (h : Host) (t1 t2 : list event) :
  failures h (t1 ++ t2)%list = failures h t1 + failures h t2.
Proof. unfold failures. rewrite filter_app, length_app. lia. Qed.

Lemma subprocesses_app (t1 t2 : list event) :
  subprocesses (t1 ++ t2)%list = (subprocesses t1 ++ subprocesses t2)%list.
Proof. apply flat_map_app. Qed.


(** ** The failure counters count the failed operations *)

Section Counting.

Variable h : Host.
Variable args : Args.t.
Variables input_dir output_dir : Path.t.
Variable scale_factor : Float.t.

Lemma convert_counted (source rel_parent : Path.t) (c : Counters) :
  spec (convert h args output_dir scale_factor source rel_parent c)
       (counted h args c []).
Proof.
  unfold convert, counted. repeat mstep; simpl;
    unfold total_failures, failures; simpl; split; try lia; try congruence;
    try reflexivity; rewrite ?Hif0; simpl; lia.
Qed.

Lemma counted_step (c c1 c2 : Counters) (p1 p2 : list Path.t)
    (t1 t2 : list event) :
  counted h args c p1 c1 t1 -> counted h args c1 p2 c2 t2 ->
  counted h args c (p1 ++ p2) c2 (t1 ++ t2).
Proof.
  unfold counted. intros [H1 D1] [H2 D2]. split.
  - rewrite failures_app. lia.
  - intros Hd. rewrite subprocesses_app, map_app, D1, D2 by assumption.
    reflexivity.
Qed.

Lemma thumbnail_counted (source thumb_parent : Path.t) (duration : Float.t)
    (point : Z * Float.t) (c : Counters) :
  spec (thumbnail h args source thumb_parent duration point c)
       (counted h args c []).
Proof.
  unfold thumbnail, counted. destruct point as [thumb_index fraction].
  repeat mstep; simpl;
    unfold total_failures, failures; simpl; split; try lia; try congruence;
    try reflexivity; rewrite ?Hif0; simpl; lia.
Qed.

Lemma thumbnail_loop_counted (source thumb_parent : Path.t)
    (duration : Float.t) (points : list (Z * Float.t)) (c : Counters) :
  spec (thumbnail_loop h args source thumb_parent duration points c)
       (counted h args c []).
Proof.
  revert c. induction points as [|point rest IH]; intros c; simpl.
  - apply spec_ret. split; [unfold failures; simpl; lia | reflexivity].
  - apply spec_bind.
    eapply spec_weaken; [apply thumbnail_counted|].
    intros c1 t1 H1. eapply spec_weaken; [apply IH|].
    intros c2 t2 H2. apply (counted_step _ _ _ [] [] _ _ H1 H2).
Qed.

Lemma probe_failed (source : Path.t) (result : CompletedProcess) :
  failed h (Run (ffprobe_command source) result)
  = duration_unavailable (duration_of h result).
Proof. reflexivity. Qed.

Lemma thumbnails_counted (source rel_parent : Path.t) (c : Counters) :
  spec (thumbnails h args output_dir source rel_parent c)
       (counted h args c [source]).
Proof.
  unfold thumbnails, ffprobe_duration_seconds.
  apply spec_bind. apply spec_bind. apply spec_run. intros result.
  apply spec_ret.
  assert (Hbad : duration_unavailable (duration_of h result) = true ->
            spec (h := h)
              (bind (print_err h "  thumbnail failed (could not read duration)")
                    (fun _ => ret (add_thumbnail_failure c)))
              (fun c' t2 =>
                 counted h args c [source] c'
                   (([Run (ffprobe_command source) result] ++ [])
                      ++ t2)%list)).
  { intros Hu. repeat mstep. split; [|reflexivity].
    unfold failures. cbn [app filter]. rewrite probe_failed, Hu.
    unfold total_failures. simpl. lia. }
  destruct (duration_of h result) as [d|] eqn:Hd; [|now apply Hbad].
  destruct (Float.leb d Float.zero) eqn:Hle; [now apply Hbad|].
  apply spec_bind. apply spec_emit.
  eapply spec_weaken; [apply thumbnail_loop_counted|].
  intros c' t [Ht Hs]. split.
  - rewrite !failures_app, Ht.
    assert (E : failures h [Run (ffprobe_command source) result] = 0).
    { unfold failures. cbn [filter]. rewrite probe_failed, Hd. simpl.
      now rewrite Hle. }
    rewrite E. unfold failures. simpl. lia.
  - intros Hdry. rewrite !subprocesses_app, Hs by assumption. reflexivity.
Qed.

Lemma process_file_counted (total index : Z) (source rel : Path.t)
    (c : Counters) :
  Path.relative_to source input_dir = Some rel ->
  spec (process_file h args input_dir output_dir scale_factor total index
          source c)
       (counted h args c
          (if Args.thumbnails args || Args.thumbnails_only args
           then [source] else [])).
Proof.
  intros Hrel. unfold process_file. rewrite Hrel.
  apply spec_bind. apply spec_ret.
  apply spec_bind. apply spec_emit.
  apply spec_bind.
  assert (Hconv : spec (h := h)
            (if negb (Args.thumbnails_only args)
             then convert h args output_dir scale_factor source
                    (Path.parent rel) c
             else ret c)
            (counted h args c [])).
  { destruct (negb (Args.thumbnails_only args)).
    - apply convert_counted.
    - apply spec_ret. split; [unfold failures; simpl; lia | reflexivity]. }
  eapply spec_weaken; [exact Hconv|].
  intros c1 t1 H1.
  destruct (Args.thumbnails args || Args.thumbnails_only args).
  - eapply spec_weaken; [apply thumbnails_counted|].
    intros c2 t2 H2. apply (counted_step _ _ _ [] [source] _ _ H1 H2).
  - apply spec_ret. rewrite app_nil_r. exact H1.
Qed.

Lemma process_all_counted (total index : Z) (sources : list Path.t)
    (c : Counters) :
  Forall (fun source => exists rel,
            Path.relative_to source input_dir = Some rel) sources ->
  spec (process_all h args input_dir output_dir scale_factor total index
          sources c)
       (counted h args c
          (if Args.thumbnails args || Args.thumbnails_only args
           then sources else [])).
Proof.
  intros Hall. revert index c.
  induction Hall as [|source rest [rel Hrel] Hrest IH]; intros index c; simpl.
  - apply spec_ret. split; [unfold failures; simpl; lia|].
    now destruct (Args.thumbnails args || Args.thumbnails_only args).
  - apply spec_bind.
    eapply spec_weaken; [apply (process_file_counted _ _ _ _ _ Hrel)|].
    intros c1 t1 H1. eapply spec_weaken; [apply IH|].
    intros c2 t2 H2.
    pose proof (counted_step _ _ _ _ _ _ _ H1 H2) as H12.
    destruct (Args.thumbnails args || Args.thumbnails_only args); exact H12.
Qed.

End Counting.

(** Every discovered source lies below the input directory, so
    [relative_to] does not raise in the loop of [main], whose input
    directory is a resolved path and so not the empty one. *)
Lemma found_relative (h : Host) (input_dir output_dir : Path.t)
    (recursive : bool) :
  input_dir <> [] ->
  Forall (fun source => exists rel,
            Path.relative_to source input_dir = Some rel)
         (find_mp4_files h input_dir output_dir recursive).
Proof.
  intros Hroot. apply Forall_forall. intros source Hin.
  apply (Permutation_in _ (found_perm h input_dir output_dir recursive)) in Hin.
  apply filter_In in Hin. destruct Hin as [Hin _].
  assert (E : exists rel, source = (input_dir ++ rel)%list).
  { destruct recursive.
    - apply in_rglob in Hin. destruct Hin as (rel & -> & _). now exists rel.
    - apply in_glob in Hin. destruct Hin as (name & -> & _). now exists [name]. }
  destruct E as [rel ->]. exists rel. now apply relative_to_app.
Qed.

(** ** The run after the checks *)

Section DriveFacts.

Variable h : Host.
Variable args : Args.t.
Variables input_dir output_dir : Path.t.
Variable scale_factor : Float.t.

Hypothesis rooted : input_dir <> [].

Let sources : list Path.t :=
  find_mp4_files h input_dir output_dir (Args.recursive args).

Lemma drive_nothing_found (w : world h) :
  sources = [] ->
  drive h args input_dir output_dir scale_factor w
  = (Return 0,
     [Discover input_dir output_dir (Args.recursive args);
      Stdout "No MP4 files found."], w).
Proof.
  unfold sources, drive. intros E. cbv zeta. unfold bind at 1. simpl.
  rewrite E. reflexivity.
Qed.

Lemma drive_counted :
  sources <> [] ->
  spec (drive h args input_dir output_dir scale_factor)
    (fun code t =>
       code = (if failures h t =? 0 then 0 else 1)
       /\ hd_error t = Some (Discover input_dir output_dir (Args.recursive args))
       /\ (Args.dry_run args = true ->
           subprocesses t
           = map ffprobe_command
               (if Args.thumbnails args || Args.thumbnails_only args
                then sources else []))).
Proof.
  intros Hne. unfold drive. cbv zeta. fold sources.
  pose proof (found_relative h input_dir output_dir (Args.recursive args)
                rooted) as Hrel. fold sources in Hrel.
  destruct sources as [|source rest] eqn:Es; [congruence|].
  apply spec_bind. apply spec_emit.
  apply spec_bind. apply spec_emit.
  apply spec_bind.
  apply (spec_weaken _ (fun _ t => failures h t = 0 /\ subprocesses t = [])).
  { apply spec_when; intros Hc; [apply spec_emit|]; split; reflexivity. }
  intros _ t0 [F0 S0].
  apply spec_bind. apply spec_emit.
  apply spec_bind.
  eapply spec_weaken; [apply (process_all_counted _ _ _ _ _ _ _ _ _ Hrel)|].
  intros c t [Hc Hs].
  apply spec_bind. apply spec_emit. apply spec_ret.
  change (total_failures {| conversion_failures := 0; thumbnail_failures := 0 |})
    with 0 in Hc.
  fold (total_failures c).
  split; [|split].
  - rewrite !failures_app, F0, Hc. unfold failures at 1 2 3 4 5. simpl.
    rewrite !Z.add_0_r. reflexivity.
  - reflexivity.
  - intros Hd. rewrite !subprocesses_app, S0, Hs by assumption. simpl.
    now rewrite app_nil_r.
Qed.

End DriveFacts.

(** ** The scale factor *)

Lemma percent_cases (P : Z -> bool) :
  forallb P (range 1 100) = true -> forall p, 1 <= p <= 99 -> P p = true.
Proof.
  intros H p Hp. rewrite forallb_forall in H. apply H. apply in_range. lia.
Qed.

Lemma percents_ok : forall p, 1 <= p <= 99 -> percent_ok p = true.
Proof. apply percent_cases. vm_compute. reflexivity. Qed.

Lemma resolve_scale_ok (p : Z) :
  1 <= p <= 99 ->
  resolve_scale true p
  = inr (Float.div (Float.of_int (100 - p)) (Float.of_int 100)).
Proof.
  intros Hp. pose proof (percents_ok p Hp) as H.
  unfold percent_ok in H. unfold resolve_scale in *.
  destruct (Z.leb_spec p 0) as [|_]; [lia|].
  destruct (Z.geb_spec p 100) as [|_]; [lia|].
  simpl in *.
  destruct (Float.leb _ Float.zero); [discriminate | reflexivity].
Qed.

Lemma resolve_scale_rejects (p : Z) :
  p <= 0 \/ 100 <= p ->
  resolve_scale true p = inl "Error: --smaller must be between 1 and 99.".
Proof.
  intros Hp. unfold resolve_scale.
  destruct (Z.leb_spec p 0); [reflexivity|].
  destruct (Z.geb_spec p 100); [reflexivity | lia].
Qed.

(** ** The checks of [main] *)

Section MainFacts.

Variable h : Host.
Variable args : Args.t.

Lemma bad_percent_false :
  bad_percent args = false ->
  resolve_scale (negb (Args.thumbnails_only args)) (Args.smaller args)
  = inr (scale_of args).
Proof.
  unfold bad_percent, scale_of. destruct (Args.thumbnails_only args); simpl.
  - reflexivity.
  - intros H. apply orb_false_iff in H. destruct H as [H1 H2].
    apply resolve_scale_ok.
    destruct (Z.leb_spec (Args.smaller args) 0); [discriminate|].
    destruct (Z.geb_spec (Args.smaller args) 100); [discriminate|]. lia.
Qed.

Lemma bad_percent_true :
  bad_percent args = true ->
  resolve_scale (negb (Args.thumbnails_only args)) (Args.smaller args)
  = inl "Error: --smaller must be between 1 and 99.".
Proof.
  unfold bad_percent. destruct (Args.thumbnails_only args); simpl;
    [discriminate|].
  intros H. apply resolve_scale_rejects.
  destruct (Z.leb_spec (Args.smaller args) 0); [lia|].
  destruct (Z.geb_spec (Args.smaller args) 100); [lia | discriminate].
Qed.

Lemma main_checked (w : world h) :
  config_error h args = false ->
  main h args w
  = drive h args (resolved_input h args) (resolved_output h args)
      (scale_of args) w.
Proof.
  unfold config_error, tools_missing, bad_count, bad_directory.
  intros H.
  apply orb_false_iff in H. destruct H as [H Hp].
  apply orb_false_iff in H. destruct H as [H Hd].
  apply orb_false_iff in H. destruct H as [Ht Hc].
  apply orb_false_iff in Ht. destruct Ht as [Ht1 Ht2].
  unfold main. cbv zeta.
  fold (resolved_input h args).
  rewrite Ht1, Ht2, Hc, Hd.
  fold (resolved_output h args).
  rewrite (bad_percent_false Hp). reflexivity.
Qed.

Lemma main_rejected (w : world h) :
  config_error h args = true ->
  exists t, main h args w = (Return 2, t, w)
            /\ t <> [] /\ forallb is_stderr t = true.
Proof.
  unfold config_error, tools_missing, bad_count, bad_directory.
  intros H. unfold main. cbv zeta. fold (resolved_input h args).
  destruct (negb (which h "ffmpeg")).
  { eexists. split; [reflexivity|]. split; [discriminate | reflexivity]. }
  destruct ((Args.thumbnails args || Args.thumbnails_only args)
            && negb (which h "ffprobe")).
  { eexists. split; [reflexivity|]. split; [discriminate | reflexivity]. }
  destruct ((Args.thumbnails args || Args.thumbnails_only args)
            && (Args.thumbnail_count args <? 1)).
  { eexists. split; [reflexivity|]. split; [discriminate | reflexivity]. }
  destruct (negb (path_exists h (resolved_input h args))
            || negb (is_dir h (resolved_input h args))).
  { eexists. split; [reflexivity|]. split; [discriminate | reflexivity]. }
  simpl in H. rewrite (bad_percent_true H).
  eexists. split; [reflexivity|]. split; [discriminate | reflexivity].
Qed.

Lemma main_rejects_percent (w : world h) :
  tools_missing h args = false -> bad_count args = false ->
  bad_directory h args = false -> bad_percent args = true ->
  main h args w
  = (Return 2, [Stderr "Error: --smaller must be between 1 and 99."], w).
Proof.
  unfold tools_missing, bad_count, bad_directory.
  intros H1 H2 H3 H4. apply orb_false_iff in H1. destruct H1 as [H0 H1].
  unfold main. cbv zeta. fold (resolved_input h args).
  rewrite H0, H1, H2, H3. rewrite (bad_percent_true H4). reflexivity.
Qed.

End MainFacts.

(** ** Exit status *)

(** C7. A run of [main] ends in one of three ways.  When one of the checks
    fails (a tool is missing, the thumbnail count is below 1, the input
    directory is no directory, the percentage is out of range while
    converting) it returns 2, having written only to the error stream: no
    discovery, no directory made, no subprocess, the world as it was.
    Otherwise, with no source found, it returns 0 after the one message;
    and with sources it returns 1 if an operation of its trace failed (an
    encoder run with a status other than 0, a probe without a usable
    duration) and 0 if none did. *)
Theorem main_exit_code (h : Host) (args : Args.t) (w : world h) :
  let r := main h args w in
  let input_dir := resolved_input h args in
  let output_dir := resolved_output h args in
  let discover := Discover input_dir output_dir (Args.recursive args) in
  let sources := find_mp4_files h input_dir output_dir (Args.recursive args) in
  (config_error h args = true ->
     outcome_of r = Return 2 /\ world_of r = w
     /\ trace_of r <> [] /\ forallb is_stderr (trace_of r) = true)
  /\ (config_error h args = false -> sources = [] ->
      r = (Return 0, [discover; Stdout "No MP4 files found."], w))
  /\ (config_error h args = false -> sources <> [] ->
      outcome_of r = Return (if failures h (trace_of r) =? 0 then 0 else 1)
      /\ hd_error (trace_of r) = Some discover).
Proof.
  intros r input_dir output_dir discover sources. split; [|split].
  - intros H. destruct (main_rejected h args w H) as (t & E & Hne & Ht).
    unfold r. rewrite E. auto.
  - intros H Hs. unfold r. rewrite (main_checked h args w H).
    now apply drive_nothing_found.
  - intros H Hs. unfold r. rewrite (main_checked h args w H).
    destruct (drive_counted h args input_dir output_dir (scale_of args)
                (input_rooted h args) Hs w)
      as (code & t & w' & E & Hc & Hd & _).
    fold input_dir output_dir. rewrite E. simpl. rewrite Hc. auto.
Qed.

(** The three endings, on a host without the encoder, on an empty
    directory listing, and on a host whose first conversion fails. *)
Lemma main_exit_code_witness :
  outcome_of (main Demo.bare Demo.defaults 0%nat) = Return 2
  /\ main Demo.plain (Demo.thumbnails_only 50) 7%nat
     = (Return 0,
        [Discover ["/"; "videos"] ["/"; "videos"; "converted"] false;
         Mkdir ["/"; "videos"; "converted"];
         Mkdir ["/"; "videos"; "converted"; "thumbnails"];
         Stdout "Found 1 MP4 file(s). Running: 3 evenly spaced thumbnails per video.";
         Stdout "[1/1] a.mp4";
         Run (ffprobe_command ["/"; "videos"; "a.mp4"])
           {| returncode := 0; stdout := "100.000000"; stderr := "" |};
         Mkdir ["/"; "videos"; "converted"; "thumbnails"];
         Stdout "  thumb 1/3 (25.0%) -> /videos/converted/thumbnails/a_thumb_01.jpg";
         Run ["ffmpeg"; "-hide_banner"; "-loglevel"; "error"; "-n"; "-ss";
              "25.000"; "-i"; "/videos/a.mp4"; "-frames:v"; "1"; "-q:v"; "2";
              "/videos/converted/thumbnails/a_thumb_01.jpg"]
           {| returncode := 0; stdout := ""; stderr := "" |};
         Stdout "  thumb 2/3 (50.0%) -> /videos/converted/thumbnails/a_thumb_02.jpg";
         Run ["ffmpeg"; "-hide_banner"; "-loglevel"; "error"; "-n"; "-ss";
              "50.000"; "-i"; "/videos/a.mp4"; "-frames:v"; "1"; "-q:v"; "2";
              "/videos/converted/thumbnails/a_thumb_02.jpg"]
           {| returncode := 0; stdout := ""; stderr := "" |};
         Stdout "  thumb 3/3 (75.0%) -> /videos/converted/thumbnails/a_thumb_03.jpg";
         Run ["ffmpeg"; "-hide_banner"; "-loglevel"; "error"; "-n"; "-ss";
              "75.000"; "-i"; "/videos/a.mp4"; "-frames:v"; "1"; "-q:v"; "2";
              "/videos/converted/thumbnails/a_thumb_03.jpg"]
           {| returncode := 0; stdout := ""; stderr := "" |};
         Stdout "Completed. Conversion failures: 0, Thumbnail failures: 0"],
        11%nat)
  /\ outcome_of (main Demo.flaky Demo.defaults 0%nat) = Return 1.
Proof.
  split; [|split].
  - apply (main_exit_code Demo.bare Demo.defaults 0%nat). reflexivity.
  - reflexivity.
  - pose proof (main_exit_code Demo.flaky Demo.defaults 0%nat) as H.
    destruct H as (_ & _ & H).
    destruct H as [H _]; [reflexivity | discriminate |].
    rewrite H. reflexivity.
Defined.

(** ** The percentage *)

(** C4. For [1 <= p <= 99] and a run that converts, the check of
    [--smaller] passes with the float [(100 - p) / 100.0]: it is strictly
    between 0 and 1, lies within [2^-54] of the rational [(100 - p)/100],
    and it is the factor [main] hands to the rest of the run. *)
Theorem scale_factor_range (p : Z) :
  1 <= p <= 99 ->
  let x := Float.div (Float.of_int (100 - p)) (Float.of_int 100) in
  resolve_scale true p = inr x
  /\ Float.ltb Float.zero x = true
  /\ Float.ltb x Float.one = true
  /\ (Qabs (Float.value x - inject_Z (100 - p) / 100) <= 1 # 2 ^ 54)%Q
  /\ (forall (h : Host) (args : Args.t) (w : world h),
        Args.thumbnails_only args = false -> Args.smaller args = p ->
        tools_missing h args = false -> bad_count args = false ->
        bad_directory h args = false ->
        main h args w
        = drive h args (resolved_input h args) (resolved_output h args) x w).
Proof.
  intros Hp x. pose proof (percents_ok p Hp) as H.
  unfold percent_ok in H. rewrite (resolve_scale_ok p Hp) in H.
  apply andb_true_iff in H. destruct H as [H _].
  unfold is_scale in H. fold x in H.
  apply andb_true_iff in H. destruct H as [H H3].
  apply andb_true_iff in H. destruct H as [H1 H2].
  split; [now apply resolve_scale_ok|]. split; [exact H1|].
  split; [exact H2|]. split; [now apply Qle_bool_iff|].
  intros h args w Hto Hs Ht Hc Hd.
  assert (Hcfg : config_error h args = false).
  { unfold config_error, bad_percent. rewrite Ht, Hc, Hd, Hto, Hs. simpl.
    destruct (Z.leb_spec p 0); [lia|].
    destruct (Z.geb_spec p 100); [lia | reflexivity]. }
  rewrite (main_checked h args w Hcfg). unfold scale_of.
  rewrite Hto, Hs. reflexivity.
Qed.

Lemma scale_factor_range_witness :
  resolve_scale true 63
  = inr (Float.div (Float.of_int 37) (Float.of_int 100))
  /\ Float.ltb (Float.div (Float.of_int 37) (Float.of_int 100)) Float.one
     = true.
Proof.
  assert (H : 1 <= 63 <= 99) by lia.
  split.
  - exact (proj1 (scale_factor_range 63 H)).
  - exact (proj1 (proj2 (proj2 (scale_factor_range 63 H)))).
Defined.

(** C2, as the program has it.  When the run converts (no
    [--thumbnails-only]) and [--smaller] is at most 0 or at least 100,
    [main] returns 2 having written only to the error stream: nothing is
    discovered, made or started, and the world is untouched.  When the
    earlier checks pass, the only output is the message about
    [--smaller]. *)
Theorem smaller_out_of_range_rejected (h : Host) (args : Args.t)
    (w : world h) :
  Args.thumbnails_only args = false ->
  Args.smaller args <= 0 \/ 100 <= Args.smaller args ->
  exists t,
    main h args w = (Return 2, t, w)
    /\ t <> [] /\ forallb is_stderr t = true
    /\ (tools_missing h args = false -> bad_count args = false ->
        bad_directory h args = false ->
        t = [Stderr "Error: --smaller must be between 1 and 99."]).
Proof.
  intros Hto Hp.
  assert (Hbad : bad_percent args = true).
  { unfold bad_percent. rewrite Hto. simpl.
    destruct (Z.leb_spec (Args.smaller args) 0); [reflexivity|].
    destruct (Z.geb_spec (Args.smaller args) 100); [reflexivity | lia]. }
  assert (Hcfg : config_error h args = true).
  { unfold config_error. rewrite Hbad. apply orb_true_r. }
  destruct (main_rejected h args w Hcfg) as (t & E & Hne & Ht).
  exists t. repeat split; try assumption.
  intros H1 H2 H3.
  pose proof (main_rejects_percent h args w H1 H2 H3 Hbad) as E'.
  rewrite E in E'. now injection E'.
Qed.

Lemma smaller_out_of_range_rejected_witness :
  exists t,
    main Demo.plain (with_smaller Demo.defaults 100) 0%nat = (Return 2, t, 0%nat)
    /\ t <> [] /\ forallb is_stderr t = true
    /\ (tools_missing Demo.plain (with_smaller Demo.defaults 100) = false ->
        bad_count (with_smaller Demo.defaults 100) = false ->
        bad_directory Demo.plain (with_smaller Demo.defaults 100) = false ->
        t = [Stderr "Error: --smaller must be between 1 and 99."]).
Proof.
  apply (smaller_out_of_range_rejected Demo.plain
           (with_smaller Demo.defaults 100) 0%nat).
  - reflexivity.
  - right. simpl. lia.
Defined.

(** C2, as stated, fails: with [--thumbnails-only --smaller 0] the run is
    not rejected; the source is discovered and probed, its thumbnails are
    extracted, and the run returns 0. *)
Lemma smaller_zero_thumbnails_only_runs :
  let args := Demo.thumbnails_only 0 in
  let r := main Demo.plain args 0%nat in
  Args.smaller args <= 0
  /\ outcome_of r = Return 0
  /\ hd_error (trace_of r)
     = Some (Discover ["/"; "videos"] ["/"; "videos"; "converted"] false)
  /\ List.length (subprocesses (trace_of r)) = 4%nat.
Proof. repeat split. simpl. lia. Qed.

(** ** A run that does not convert *)

Lemma bind_ext {h : Host} {A B} (m m' : M h A) (f f' : A -> M h B)
    (w : world h) :
  m w = m' w -> (forall a w1, f a w1 = f' a w1) -> bind m f w = bind m' f' w.
Proof.
  intros Hm Hf. unfold bind. rewrite Hm.
  destruct (m' w) as [[[a|e] t1] w1]; [now rewrite Hf | reflexivity].
Qed.

Section ThumbnailsOnly.

Variable h : Host.
Variable args : Args.t.
Hypothesis only : Args.thumbnails_only args = true.

Variables input_dir output_dir : Path.t.

Lemma process_file_ext (p : Z) (x y : Float.t) (total index : Z)
    (source : Path.t) (c : Counters) (w : world h) :
  process_file h (with_smaller args p) input_dir output_dir x total index
    source c w
  = process_file h args input_dir output_dir y total index source c w.
Proof.
  unfold process_file. cbn [with_smaller Args.thumbnails Args.thumbnails_only].
  rewrite only. reflexivity.
Qed.

Lemma process_all_ext (p : Z) (x y : Float.t) (total index : Z)
    (sources : list Path.t) (c : Counters) (w : world h) :
  process_all h (with_smaller args p) input_dir output_dir x total index
    sources c w
  = process_all h args input_dir output_dir y total index sources c w.
Proof.
  revert index c w. induction sources as [|source rest IH]; intros index c w;
    simpl; [reflexivity|].
  apply bind_ext; [apply process_file_ext | intros; apply IH].
Qed.

Lemma drive_ext (p : Z) (x y : Float.t) (w : world h) :
  drive h (with_smaller args p) input_dir output_dir x w
  = drive h args input_dir output_dir y w.
Proof.
  unfold drive. cbv zeta.
  cbn [with_smaller Args.thumbnails Args.thumbnails_only Args.recursive
       Args.thumbnail_count Args.smaller].
  rewrite only. cbn [negb orb].
  apply bind_ext; [reflexivity|]. intros _ w1.
  destruct (find_mp4_files h input_dir output_dir (Args.recursive args));
    [reflexivity|].
  repeat (apply bind_ext; [reflexivity|]; intros ? ?).
  apply bind_ext; [apply process_all_ext | reflexivity].
Qed.

End ThumbnailsOnly.

Lemma drive_status (h : Host) (args : Args.t) (input_dir output_dir : Path.t)
    (x : Float.t) (w : world h) :
  input_dir <> [] ->
  outcome_of (drive h args input_dir output_dir x w) = Return 0
  \/ outcome_of (drive h args input_dir output_dir x w) = Return 1.
Proof.
  intros Hroot.
  destruct (find_mp4_files h input_dir output_dir (Args.recursive args))
    as [|s l] eqn:E.
  - left. now rewrite drive_nothing_found.
  - destruct (drive_counted h args input_dir output_dir x Hroot) with (w := w)
      as (code & t & w' & Ed & Hc & _); [rewrite E; discriminate|].
    rewrite Ed. unfold outcome_of. simpl. rewrite Hc.
    destruct (failures h t =? 0); auto.
Qed.

(** C9. With [--thumbnails-only] the value of [--smaller] is not looked
    at: its check yields the initial scale factor [0.0] for every integer,
    the run is the same for every value of [--smaller] and for every scale
    factor handed to the rest of [main], and, when the other checks pass,
    it ends with status 0 or 1 and not with the status 2 of a
    configuration error. *)
Theorem thumbnails_only_skips_percent (h : Host) (args : Args.t)
    (w : world h) :
  Args.thumbnails_only args = true ->
  (forall p, resolve_scale (negb (Args.thumbnails_only args)) p
             = inr Float.zero)
  /\ (forall p, bad_percent (with_smaller args p) = false)
  /\ (forall p, main h (with_smaller args p) w = main h args w)
  /\ (forall x input_dir output_dir w',
        drive h args input_dir output_dir x w'
        = drive h args input_dir output_dir Float.zero w')
  /\ (tools_missing h args = false -> bad_count args = false ->
      bad_directory h args = false ->
      forall p,
        main h (with_smaller args p) w
        = drive h args (resolved_input h args) (resolved_output h args)
            Float.zero w
        /\ (outcome_of (main h (with_smaller args p) w) = Return 0
            \/ outcome_of (main h (with_smaller args p) w) = Return 1)).
Proof.
  intros only.
  assert (Hmain : forall p, main h (with_smaller args p) w = main h args w).
  { intros p. unfold main. cbv zeta.
    cbn [with_smaller Args.thumbnails Args.thumbnails_only Args.recursive
         Args.thumbnail_count Args.smaller Args.input_dir Args.output_dir].
    rewrite only. cbn [negb].
    destruct (negb (which h "ffmpeg")); [reflexivity|].
    destruct ((Args.thumbnails args || true) && negb (which h "ffprobe"));
      [reflexivity|].
    destruct ((Args.thumbnails args || true) && (Args.thumbnail_count args <? 1));
      [reflexivity|].
    destruct (negb (path_exists h _) || negb (is_dir h _)); [reflexivity|].
    cbn [resolve_scale]. now apply drive_ext. }
  split; [|split; [|split; [|split]]].
  - intros p. rewrite only. reflexivity.
  - intros p. unfold bad_percent. cbn [with_smaller Args.thumbnails_only].
    rewrite only. reflexivity.
  - exact Hmain.
  - intros x input_dir output_dir w'.
    transitivity (drive h (with_smaller args 0) input_dir output_dir x w');
      [symmetry|]; now apply drive_ext.
  - intros Ht Hc Hd p.
    assert (Hcfg : config_error h args = false).
    { unfold config_error, bad_percent. rewrite Ht, Hc, Hd, only.
      reflexivity. }
    rewrite Hmain, (main_checked h args w Hcfg).
    unfold scale_of. rewrite only. split; [reflexivity|]. apply drive_status.
    apply input_rooted.
Qed.

Lemma thumbnails_only_skips_percent_witness :
  main Demo.plain (with_smaller (Demo.thumbnails_only 50) (-7)) 0%nat
  = main Demo.plain (Demo.thumbnails_only 50) 0%nat
  /\ outcome_of (main Demo.plain (with_smaller (Demo.thumbnails_only 50) 250)
                   0%nat) = Return 0.
Proof.
  pose proof (thumbnails_only_skips_percent Demo.plain
                (Demo.thumbnails_only 50) 0%nat eq_refl) as H.
  destruct H as (_ & _ & Hsame & _ & Hruns). split.
  - apply Hsame.
  - destruct (Hruns eq_refl eq_refl eq_refl 250) as [E _].
    rewrite E. reflexivity.
Defined.

(** ** A duration that is not positive *)

(** C8. Let the probe of [source] answer [result].  If no duration can be
    read from it, or if the duration read is at most 0, the thumbnail part
    of the loop body ends the same way: the trace is the probe and the one
    message, no directory is made and no thumbnail command is built,
    printed or run; the thumbnail counter is one higher and the conversion
    counter is as it was; and the loop of [main] goes on with the next
    source from there. *)
Theorem nonpositive_duration_counts_as_failure (h : Host) (args : Args.t)
    (input_dir output_dir : Path.t) (scale_factor : Float.t)
    (source rel : Path.t) (c : Counters) (w : world h) :
  let probe := ffprobe_command source in
  let result := fst (run h probe w) in
  let w' := snd (run h probe w) in
  let failed_probe : outcome Counters * list event * world h :=
    (Return (add_thumbnail_failure c),
     [Run probe result; Stderr "  thumbnail failed (could not read duration)"],
     w') in
  (duration_of h result = None ->
   thumbnails h args output_dir source (Path.parent rel) c w = failed_probe)
  /\ (forall d, duration_of h result = Some d -> Float.leb d Float.zero = true ->
      thumbnails h args output_dir source (Path.parent rel) c w = failed_probe)
  /\ thumbnail_failures (add_thumbnail_failure c) = thumbnail_failures c + 1
  /\ conversion_failures (add_thumbnail_failure c) = conversion_failures c
  /\ (forall (total index : Z) (rest : list Path.t) (c0 : Counters)
             (w0 : world h) (t0 : list event),
        Path.relative_to source input_dir = Some rel ->
        Args.thumbnails args || Args.thumbnails_only args = true ->
        bind (print h ("[" ++ Text.str_int index ++ "/" ++ Text.str_int total
                         ++ "] " ++ Path.name source))
             (fun _ => if negb (Args.thumbnails_only args)
                       then convert h args output_dir scale_factor source
                              (Path.parent rel) c0
                       else ret c0) w0
        = (Return c, t0, w) ->
        thumbnails h args output_dir source (Path.parent rel) c w
        = failed_probe ->
        process_all h args input_dir output_dir scale_factor total index
          (source :: rest) c0 w0
        = match process_all h args input_dir output_dir scale_factor total
                  (index + 1) rest (add_thumbnail_failure c) w' with
          | (r, t2, w2) =>
              (r, (t0 ++ [Run probe result;
                          Stderr "  thumbnail failed (could not read duration)"]
                      ++ t2)%list, w2)
          end).
Proof.
  intros probe result w' failed_probe.
  assert (Hrun : run h probe w = (result, w'))
    by (unfold result, w'; now destruct (run h probe w)).
  split; [|split; [|split; [|split]]]; try reflexivity.
  - intros Hd. unfold thumbnails, ffprobe_duration_seconds, bind,
      subprocess_run. fold probe. rewrite Hrun. simpl. rewrite Hd. reflexivity.
  - intros d Hd Hle. unfold thumbnails, ffprobe_duration_seconds, bind,
      subprocess_run. fold probe. rewrite Hrun. simpl. rewrite Hd, Hle.
    reflexivity.
  - intros total index rest c0 w0 t0 Hrel Hth Hpre Hfail.
    simpl. unfold process_file. rewrite Hrel, Hth.
    unfold bind, ret, print, emit in *. simpl in *.
    destruct (if negb (Args.thumbnails_only args)
              then convert h args output_dir scale_factor source
                     (Path.parent rel) c0
              else fun w1 => (Return c0, [], w1)) as [[[c1|e] t1] w1] eqn:Ec;
      [|discriminate].
    injection Hpre as -> <- ->.
    fold (bind (A := option Float.t) (B := Counters) (h := h)).
    change (fun w1 : world h => (Return c, @nil event, w1)) with (ret (h := h) c).
    rewrite Hfail. unfold failed_probe.
    destruct (process_all h args input_dir output_dir scale_factor total
                (index + 1) rest (add_thumbnail_failure c) w')
      as [[r t2] w2].
    simpl. rewrite <- !app_assoc. reflexivity.
Qed.

(** On a host whose first probe fails and whose videos have the duration
    [0.0]: the failed probe of world 0 and the zero duration of world 1. *)
Lemma nonpositive_duration_counts_as_failure_witness :
  let c := {| conversion_failures := 0; thumbnail_failures := 0 |} in
  let source := ["/"; "videos"; "a.mp4"] in
  let out := ["/"; "videos"; "converted"] in
  thumbnails Demo.broken (Demo.with_thumbnails false) out source [] c 0%nat
  = (Return (add_thumbnail_failure c),
     [Run (ffprobe_command source)
        {| returncode := 1; stdout := ""; stderr := "boom" |};
      Stderr "  thumbnail failed (could not read duration)"], 1%nat)
  /\ thumbnails Demo.broken (Demo.with_thumbnails false) out source [] c 1%nat
     = (Return (add_thumbnail_failure c),
        [Run (ffprobe_command source)
           {| returncode := 0; stdout := "0.000000"; stderr := "" |};
         Stderr "  thumbnail failed (could not read duration)"], 2%nat).
Proof.
  intros c source out. split.
  - apply (nonpositive_duration_counts_as_failure Demo.broken
             (Demo.with_thumbnails false) Demo.videos out Float.zero source
             ["a.mp4"] c 0%nat).
    reflexivity.
  - apply (proj1 (proj2 (nonpositive_duration_counts_as_failure Demo.broken
             (Demo.with_thumbnails false) Demo.videos out Float.zero source
             ["a.mp4"] c 1%nat)) Float.zero); reflexivity.
Defined.

(** ** The commands of a run *)

Lemma spec_run_at {h : Host} (cmd : list string)
    (Q : CompletedProcess -> list event -> Prop) :
  (forall w, Q (fst (run h cmd w)) [Run cmd (fst (run h cmd w))]) ->
  spec (subprocess_run h cmd) Q.
Proof.
  intros HQ w. unfold subprocess_run. specialize (HQ w).
  destruct (run h cmd w) as [result w'].
  exists result, [Run cmd result], w'. auto.
Qed.

Lemma command_lines_app (t1 t2 : list event) :
  command_lines (t1 ++ t2)%list = (command_lines t1 ++ command_lines t2)%list.
Proof. apply flat_map_app. Qed.

Lemma encoder_runs_app (t1 t2 : list event) :
  encoder_runs (t1 ++ t2)%list = (encoder_runs t1 ++ encoder_runs t2)%list.
Proof. apply flat_map_app. Qed.

Lemma planned_by_app (args : Args.t) (p1 p2 : list (list string))
    (t1 t2 : list event) :
  planned_by args p1 t1 -> planned_by args p2 t2 ->
  planned_by args (p1 ++ p2) (t1 ++ t2).
Proof.
  unfold planned_by. destruct (Args.dry_run args).
  - intros [H1 E1] [H2 E2].
    rewrite command_lines_app, encoder_runs_app, map_app, H1, H2, E1, E2. auto.
  - intros H1 H2. now rewrite encoder_runs_app, H1, H2.
Qed.

Lemma planned_by_skip (args : Args.t) (p : list (list string))
    (t1 t2 : list event) :
  planned_by args [] t1 -> planned_by args p t2 -> planned_by args p (t1 ++ t2).
Proof. apply (planned_by_app args [] p). Qed.

Lemma planned_by_then (args : Args.t) (p : list (list string))
    (t1 t2 : list event) :
  planned_by args p t1 -> planned_by args [] t2 -> planned_by args p (t1 ++ t2).
Proof.
  intros H1 H2. rewrite <- (app_nil_r p). now apply planned_by_app.
Qed.

Lemma planned_by_nil (args : Args.t) : planned_by args [] [].
Proof. unfold planned_by. destruct (Args.dry_run args); auto. Qed.

Section Planning.

Variable h : Host.
Variable args : Args.t.
Variables input_dir output_dir : Path.t.
Variable scale_factor : Float.t.

(** The probes of a source answer the same duration in every world. *)
Variable durations : Path.t -> option Float.t.
Hypothesis stable : forall source w,
  duration_of h (fst (run h (ffprobe_command source) w)) = durations source.
Hypothesis rooted : input_dir <> [].

Lemma convert_planned (source rel_parent : Path.t) (c : Counters) :
  spec (convert h args output_dir scale_factor source rel_parent c)
       (fun _ => planned_by args
          [planned_conversion h args output_dir scale_factor source rel_parent]).
Proof.
  unfold convert, planned_by. destruct (Args.dry_run args) eqn:Hdry.
  - repeat mstep. split; reflexivity.
  - repeat mstep; reflexivity.
Qed.

Lemma thumbnail_planned (source rel_parent : Path.t) (duration : Float.t)
    (point : Z * Float.t) (c : Counters) :
  spec (thumbnail h args source
          (Path.join (Path.joinpath output_dir "thumbnails") rel_parent)
          duration point c)
       (fun _ => planned_by args
          [planned_thumbnail h args output_dir source rel_parent duration point]).
Proof.
  unfold thumbnail, planned_by. destruct point as [thumb_index fraction].
  destruct (Args.dry_run args) eqn:Hdry.
  - repeat mstep. split; reflexivity.
  - repeat mstep; reflexivity.
Qed.

Lemma thumbnail_loop_planned (source rel_parent : Path.t) (duration : Float.t)
    (points : list (Z * Float.t)) (c : Counters) :
  spec (thumbnail_loop h args source
          (Path.join (Path.joinpath output_dir "thumbnails") rel_parent)
          duration points c)
       (fun _ => planned_by args
          (map (planned_thumbnail h args output_dir source rel_parent duration)
               points)).
Proof.
  revert c. induction points as [|point rest IH]; intros c; simpl.
  - apply spec_ret. apply planned_by_nil.
  - apply spec_bind.
    eapply spec_weaken; [apply thumbnail_planned|].
    intros c1 t1 H1. eapply spec_weaken; [apply IH|].
    intros c2 t2 H2. apply (planned_by_app _ [_] _ _ _ H1 H2).
Qed.

Lemma probe_planned (source : Path.t) (result : CompletedProcess) :
  planned_by args [] [Run (ffprobe_command source) result].
Proof. unfold planned_by. destruct (Args.dry_run args); auto. Qed.

Lemma note_planned (line : string) : planned_by args [] [Stderr line].
Proof. unfold planned_by. destruct (Args.dry_run args); auto. Qed.

Lemma mkdir_planned (p : Path.t) : planned_by args [] [Mkdir p].
Proof. unfold planned_by. destruct (Args.dry_run args); auto. Qed.

Lemma thumbnails_planned (source rel_parent : Path.t) (c : Counters) :
  spec (thumbnails h args output_dir source rel_parent c)
       (fun _ => planned_by args
          (planned_thumbnails h args output_dir durations source rel_parent)).
Proof.
  unfold thumbnails, ffprobe_duration_seconds, planned_thumbnails.
  apply spec_bind. apply spec_bind. apply spec_run_at. intros w.
  rewrite <- (stable source w).
  set (result := fst (run h (ffprobe_command source) w)).
  apply spec_ret.
  assert (Hbad : spec (h := h)
            (bind (print_err h "  thumbnail failed (could not read duration)")
                  (fun _ => ret (add_thumbnail_failure c)))
            (fun _ t2 =>
               planned_by args []
                 (([Run (ffprobe_command source) result] ++ []) ++ t2)%list)).
  { repeat mstep.
    apply (planned_by_app _ [] [] _ _ (probe_planned source result)
             (note_planned _)). }
  destruct (duration_of h result) as [d|]; [|exact Hbad].
  destruct (Float.leb d Float.zero); [exact Hbad|].
  apply spec_bind. apply spec_emit.
  eapply spec_weaken; [apply thumbnail_loop_planned|].
  intros c' t Ht.
  apply (planned_by_app _ [] _ _ _ (probe_planned source result)).
  apply (planned_by_app _ [] _ _ _ (mkdir_planned _) Ht).
Qed.

Lemma line_planned (line : string) :
  String.prefix "  ffmpeg " line = false -> planned_by args [] [Stdout line].
Proof.
  intros H. unfold planned_by, command_lines. simpl. rewrite H.
  destruct (Args.dry_run args); auto.
Qed.

Lemma process_file_planned (total index : Z) (source rel : Path.t)
    (c : Counters) :
  Path.relative_to source input_dir = Some rel ->
  spec (process_file h args input_dir output_dir scale_factor total index
          source c)
       (fun _ => planned_by args
          (planned_file h args input_dir output_dir scale_factor durations
             source)).
Proof.
  intros Hrel. unfold process_file, planned_file. rewrite Hrel.
  apply spec_bind. apply spec_ret.
  apply spec_bind. apply spec_emit.
  apply spec_bind.
  assert (Hconv : spec (h := h)
            (if negb (Args.thumbnails_only args)
             then convert h args output_dir scale_factor source
                    (Path.parent rel) c
             else ret c)
            (fun _ => planned_by args
               (if negb (Args.thumbnails_only args)
                then [planned_conversion h args output_dir scale_factor source
                        (Path.parent rel)]
                else []))).
  { destruct (negb (Args.thumbnails_only args)).
    - apply convert_planned.
    - apply spec_ret. apply planned_by_nil. }
  eapply spec_weaken; [exact Hconv|].
  intros c1 t1 H1.
  assert (Hhead : planned_by args []
            ([] ++ [Stdout ("[" ++ Text.str_int index ++ "/"
                              ++ Text.str_int total ++ "] "
                              ++ Path.name source)])%list).
  { apply line_planned. reflexivity. }
  destruct (Args.thumbnails args || Args.thumbnails_only args).
  - eapply spec_weaken; [apply thumbnails_planned|].
    intros c2 t2 H2.
    apply (planned_by_app _ [] _ _ _ Hhead).
    apply (planned_by_app _ _ _ _ _ H1 H2).
  - apply spec_ret.
    apply (planned_by_app _ [] _ _ _ Hhead).
    apply (planned_by_app _ _ _ _ _ H1 (planned_by_nil args)).
Qed.

Lemma process_all_planned (total index : Z) (sources : list Path.t)
    (c : Counters) :
  Forall (fun source => exists rel,
            Path.relative_to source input_dir = Some rel) sources ->
  spec (process_all h args input_dir output_dir scale_factor total index
          sources c)
       (fun _ => planned_by args
          (plan h args input_dir output_dir scale_factor durations sources)).
Proof.
  intros Hall. revert index c.
  induction Hall as [|source rest [rel Hrel] Hrest IH]; intros index c; simpl.
  - apply spec_ret. apply planned_by_nil.
  - apply spec_bind.
    eapply spec_weaken; [apply (process_file_planned _ _ _ _ _ Hrel)|].
    intros c1 t1 H1. eapply spec_weaken; [apply IH|].
    intros c2 t2 H2. apply (planned_by_app _ _ _ _ _ H1 H2).
Qed.

Lemma drive_planned :
  spec (drive h args input_dir output_dir scale_factor)
       (fun _ => planned_by args
          (plan h args input_dir output_dir scale_factor durations
             (find_mp4_files h input_dir output_dir (Args.recursive args)))).
Proof.
  unfold drive. cbv zeta.
  pose proof (found_relative h input_dir output_dir (Args.recursive args)
                rooted) as Hrel.
  destruct (find_mp4_files h input_dir output_dir (Args.recursive args))
    as [|source rest] eqn:Es.
  - repeat mstep. unfold planned_by. simpl.
    destruct (Args.dry_run args); auto.
  - apply spec_bind. apply spec_emit.
    apply spec_bind. apply spec_emit.
    apply spec_bind.
    apply (spec_weaken _ (fun _ t => planned_by args [] t)).
    { apply spec_when; intros Hc;
        [apply spec_emit; apply mkdir_planned | apply planned_by_nil]. }
    intros _ t0 H0.
    apply spec_bind. apply spec_emit.
    apply spec_bind.
    eapply spec_weaken; [apply (process_all_planned _ _ _ _ Hrel)|].
    intros c t Ht.
    apply spec_bind. apply spec_emit. apply spec_ret.
    assert (Hd : planned_by args []
              [Discover input_dir output_dir (Args.recursive args)])
      by (unfold planned_by; destruct (Args.dry_run args); auto).
    apply planned_by_skip; [exact Hd|].
    apply planned_by_skip; [apply mkdir_planned|].
    apply planned_by_skip; [exact H0|].
    apply planned_by_skip; [apply line_planned; reflexivity|].
    apply planned_by_then; [exact Ht|].
    apply planned_by_skip; [|apply planned_by_nil].
    apply line_planned. reflexivity.
Qed.

End Planning.

(** ** Dry runs *)

Lemma only_stderr (t : list event) :
  forallb is_stderr t = true ->
  command_lines t = [] /\ encoder_runs t = [] /\ subprocesses t = [].
Proof.
  induction t as [|e t IH]; simpl; [auto|].
  destruct e; simpl; try discriminate. exact IH.
Qed.

Lemma probes_are_not_encoders (t : list event) (probes : list Path.t) :
  subprocesses t = map ffprobe_command probes -> encoder_runs t = [].
Proof.
  revert probes. induction t as [|e t IH]; intros probes H; [reflexivity|].
  destruct e as [line|line|i o r|d|cmd result]; simpl in H;
    try exact (IH probes H).
  destruct probes as [|source probes]; [discriminate|].
  simpl in H. injection H as -> H. simpl. exact (IH probes H).
Qed.

(** C1, as the program has it.  In every dry run no encoder is started;
    the subprocesses are the probes, one for each source in order when
    thumbnails are asked for (the durations are needed to print the
    thumbnail commands), and none otherwise.  If the probe of a source
    answers the same duration whenever it is made, the command lines the
    dry run prints are, one for one and in order, two spaces and the
    space-joined argument vector of each encoder subprocess of the same run
    without [--dry-run], from whatever world that run starts. *)
Theorem dry_run_commands (h : Host) (args : Args.t) (w w' : world h) :
  let dry := main h (with_dry_run args true) w in
  let real := main h (with_dry_run args false) w' in
  let sources :=
    find_mp4_files h (resolved_input h args) (resolved_output h args)
      (Args.recursive args) in
  encoder_runs (trace_of dry) = []
  /\ subprocesses (trace_of dry)
     = (if config_error h args then []
        else if Args.thumbnails args || Args.thumbnails_only args
             then map ffprobe_command sources
             else [])
  /\ (forall durations : Path.t -> option Float.t,
        (forall source w0,
           duration_of h (fst (run h (ffprobe_command source) w0))
           = durations source) ->
        command_lines (trace_of dry)
        = map render (encoder_runs (trace_of real))).
Proof.
  intros dry real sources.
  assert (Hsub : subprocesses (trace_of dry)
                 = map ffprobe_command
                     (if config_error h args then []
                      else if Args.thumbnails args || Args.thumbnails_only args
                           then sources else [])).
  { unfold dry. destruct (config_error h args) eqn:Hcfg.
    - destruct (main_rejected h (with_dry_run args true) w Hcfg)
        as (t & E & _ & Ht).
      rewrite E. unfold trace_of. simpl.
      now destruct (only_stderr t Ht) as (_ & _ & ->).
    - rewrite (main_checked h (with_dry_run args true) w Hcfg).
      change (resolved_input h (with_dry_run args true))
        with (resolved_input h args).
      change (resolved_output h (with_dry_run args true))
        with (resolved_output h args).
      unfold sources. clear sources dry real.
      destruct (find_mp4_files h (resolved_input h args)
                  (resolved_output h args) (Args.recursive args))
        as [|source rest] eqn:Es.
      + rewrite (drive_nothing_found h (with_dry_run args true) _ _ _ w Es).
        unfold trace_of. simpl.
        now destruct (Args.thumbnails args || Args.thumbnails_only args).
      + destruct (drive_counted h (with_dry_run args true)
                    (resolved_input h args) (resolved_output h args)
                    (scale_of (with_dry_run args true))
                    (input_rooted h args)) with (w := w)
          as (code & t & w1 & E & _ & _ & Hs).
        { cbn [with_dry_run Args.recursive]. rewrite Es. discriminate. }
        rewrite E. unfold trace_of. simpl. rewrite (Hs eq_refl).
        cbn [with_dry_run Args.recursive Args.thumbnails Args.thumbnails_only].
        now rewrite Es. }
  split; [exact (probes_are_not_encoders _ _ Hsub)|]. split.
  - rewrite Hsub. destruct (config_error h args); [reflexivity|].
    now destruct (Args.thumbnails args || Args.thumbnails_only args).
  - intros durations stable. unfold dry, real.
    destruct (config_error h args) eqn:Hcfg.
    + destruct (main_rejected h (with_dry_run args true) w Hcfg)
        as (t & E & _ & Ht).
      destruct (main_rejected h (with_dry_run args false) w' Hcfg)
        as (t' & E' & _ & Ht').
      rewrite E, E'. unfold trace_of. simpl.
      destruct (only_stderr t Ht) as (-> & _ & _).
      now destruct (only_stderr t' Ht') as (_ & -> & _).
    + rewrite (main_checked h (with_dry_run args true) w Hcfg).
      rewrite (main_checked h (with_dry_run args false) w' Hcfg).
      change (resolved_input h (with_dry_run args true))
        with (resolved_input h args).
      change (resolved_input h (with_dry_run args false))
        with (resolved_input h args).
      change (resolved_output h (with_dry_run args true))
        with (resolved_output h args).
      change (resolved_output h (with_dry_run args false))
        with (resolved_output h args).
      change (scale_of (with_dry_run args true)) with (scale_of args).
      change (scale_of (with_dry_run args false)) with (scale_of args).
      destruct (drive_planned h (with_dry_run args true)
                  (resolved_input h args) (resolved_output h args)
                  (scale_of args) durations stable (input_rooted h args) w)
        as (code & t & w1 & E & [Hlines Hnone]).
      destruct (drive_planned h (with_dry_run args false)
                  (resolved_input h args) (resolved_output h args)
                  (scale_of args) durations stable (input_rooted h args) w')
        as (code' & t' & w1' & E' & Hruns).
      unfold planned_by in Hruns. simpl in Hruns.
      rewrite E, E'. unfold trace_of. simpl.
      rewrite Hlines, Hruns. reflexivity.
Qed.

(** C1, as stated, fails: a dry run that is asked for thumbnails starts
    the prober, once for each of the two sources. *)
Lemma dry_run_starts_the_prober :
  let args := Demo.with_thumbnails true in
  Args.dry_run args = true
  /\ subprocesses (trace_of (main Demo.plain args 0%nat))
     = [ ["ffprobe"; "-v"; "error"; "-show_entries"; "format=duration"; "-of";
          "default=noprint_wrappers=1:nokey=1"; "/videos/a.mp4"];
         ["ffprobe"; "-v"; "error"; "-show_entries"; "format=duration"; "-of";
          "default=noprint_wrappers=1:nokey=1"; "/videos/sub/b.MP4"] ].
Proof. split; reflexivity. Qed.

(** No encoder is started in a dry run on a host whose first subprocess
    fails; and with two sources, each converted and given three
    thumbnails: eight command lines in the dry run, eight encoder
    subprocesses without it. *)
Lemma dry_run_commands_witness :
  encoder_runs (trace_of (main Demo.flaky (Demo.with_thumbnails true) 0%nat))
  = []
  /\ command_lines
       (trace_of (main Demo.plain (Demo.with_thumbnails true) 0%nat))
     = map render
         (encoder_runs
            (trace_of (main Demo.plain (Demo.with_thumbnails false) 5%nat)))
  /\ List.length
       (command_lines
          (trace_of (main Demo.plain (Demo.with_thumbnails true) 0%nat)))
     = 8%nat.
Proof.
  split; [|split; [|reflexivity]].
  - exact (proj1 (dry_run_commands Demo.flaky (Demo.with_thumbnails false)
                    0%nat 0%nat)).
  - exact (proj2 (proj2 (dry_run_commands Demo.plain
                           (Demo.with_thumbnails false) 0%nat 5%nat))
             (fun _ => Some (Float.of_int 100)) (fun source w0 => eq_refl)).
Defined.

(** ** Division of integers in binary64 *)

Lemma digits2_bounds (p : positive) :
  2 ^ (Zpos (digits2_pos p) - 1) <= Zpos p < 2 ^ Zpos (digits2_pos p).
Proof.
  induction p as [p IH|p IH|]; simpl digits2_pos.
  - rewrite Pos2Z.inj_succ.
    replace (Z.succ (Z.pos (digits2_pos p)) - 1) with (Z.succ (Z.pos (digits2_pos p) - 1)) by lia.
    rewrite !Z.pow_succ_r by lia. lia.
  - rewrite Pos2Z.inj_succ.
    replace (Z.succ (Z.pos (digits2_pos p)) - 1) with (Z.succ (Z.pos (digits2_pos p) - 1)) by lia.
    rewrite !Z.pow_succ_r by lia. lia.
  - simpl. lia.
Qed.

Lemma digits2_unique (p : positive) (d : Z) :
  2 ^ (d - 1) <= Zpos p < 2 ^ d -> 0 < d -> Zpos (digits2_pos p) = d.
Proof.
  intros [H1 H2] Hd. pose proof (digits2_bounds p) as [B1 B2].
  assert (Hlt1 : d - 1 < Zpos (digits2_pos p)).
  { apply (Z.pow_lt_mono_r_iff 2); lia. }
  assert (Hlt2 : Zpos (digits2_pos p) - 1 < d).
  { apply (Z.pow_lt_mono_r_iff 2); lia. }
  lia.
Qed.

Lemma new_location_spec (b r : Z) :
  0 < b -> 0 <= r < b -> new_location b r = Float.location_of b r.
Proof.
  intros Hb Hr. unfold new_location, new_location_even, new_location_odd,
    Float.location_of.
  destruct (Z.even b) eqn:Heven; cbv beta;
    destruct (Z.eqb_spec r 0) as [->|Hr0]; try reflexivity.
  - f_equal.
    assert (Hodd : Z.odd b = true) by (rewrite <- Z.negb_even, Heven; reflexivity).
    apply Z.odd_spec in Hodd. destruct Hodd as [k ->].
    destruct (Z.compare_spec (2 * r + 1) (2 * k + 1));
      destruct (Z.compare_spec (2 * r) (2 * k + 1)); try reflexivity; lia.
Qed.

Lemma shr_fexp_53 (m e : Z) (l : location) :
  2 ^ 52 <= m < 2 ^ 53 -> -1000 <= e ->
  shr_fexp 53 1024 m e l = (shr_record_of_loc m l, e).
Proof.
  intros Hm He. unfold shr_fexp.
  destruct m as [|p|p]; try lia.
  simpl Zdigits2. rewrite (digits2_unique p 53) by (simpl; lia).
  unfold fexp, emin.
  replace (Z.max (53 + e - 53) (3 - 1024 - 53) - e) with 0 by lia.
  reflexivity.
Qed.

Lemma shr_fexp_54 (m e : Z) (l : location) :
  2 ^ 53 <= m < 2 ^ 54 -> -1000 <= e ->
  shr_fexp 53 1024 m e l = (shr_1 (shr_record_of_loc m l), e + 1).
Proof.
  intros Hm He. unfold shr_fexp.
  destruct m as [|p|p]; try lia.
  simpl Zdigits2. rewrite (digits2_unique p 54) by (simpl; lia).
  unfold fexp, emin.
  replace (Z.max (54 + e - 53) (3 - 1024 - 53) - e) with 1 by lia.
  reflexivity.
Qed.

Lemma loc_of_record (m : Z) (l : location) :
  loc_of_shr_record (shr_record_of_loc m l) = l
  /\ shr_m (shr_record_of_loc m l) = m.
Proof. destruct l as [|[]]; split; reflexivity. Qed.

(** The last step of rounding: a carry into the 54th bit is shifted out. *)
Lemma round_finish (m1 e1 : Z) :
  2 ^ 52 <= m1 <= 2 ^ 53 -> -1000 <= e1 <= 2 ->
  exists m j,
    (let '(mrs, e2) := shr_fexp 53 1024 m1 e1 loc_Exact in
     match shr_m mrs with
     | Z0 => S754_zero false
     | Zpos m =>
         if e2 <=? 1024 - 53 then S754_finite false m e2
         else S754_infinity false
     | Zneg _ => S754_nan
     end) = S754_finite false m (e1 + j)
    /\ 0 <= j <= 1 /\ 2 ^ 52 <= Zpos m < 2 ^ 53 /\ Zpos m * 2 ^ j = m1.
Proof.
  intros Hm He.
  destruct (Z.eq_dec m1 (2 ^ 53)) as [->|Hne].
  - exists (2 ^ 52)%positive, 1.
    rewrite shr_fexp_54 by lia. simpl shr_m.
    destruct (Z.leb_spec (e1 + 1) (1024 - 53)); [|lia].
    repeat split; try lia; reflexivity.
  - rewrite shr_fexp_53 by lia.
    destruct m1 as [|m|m]; try lia.
    exists m, 0. simpl shr_m.
    destruct (Z.leb_spec e1 (1024 - 53)); [|lia].
    rewrite Z.add_0_r. repeat split; lia.
Qed.

Lemma round_aux_spec (q e b r : Z) :
  2 ^ 52 <= q < 2 ^ 54 -> -1000 <= e <= 0 -> 0 <= r < b ->
  exists m k,
    binary_round_aux 53 1024 false q e (Float.location_of b r)
    = S754_finite false m (e + k)
    /\ 0 <= k <= 2 /\ 2 ^ 52 <= Zpos m < 2 ^ 53
    /\ Z.abs (Zpos m * 2 ^ k * b - (q * b + r)) * 2 <= b * 2 ^ k.
Proof.
  intros Hq He Hr. unfold binary_round_aux.
  destruct (Z.lt_ge_cases q (2 ^ 53)) as [Hlt|Hge].
  - rewrite shr_fexp_53 by lia.
    destruct (loc_of_record q (Float.location_of b r)) as [-> ->].
    set (m1 := round_nearest_even q (Float.location_of b r)).
    assert (Hm1 : (m1 = q /\ 2 * r <= b) \/ (m1 = q + 1 /\ b <= 2 * r)).
    { unfold m1, Float.location_of, round_nearest_even.
      destruct (Z.eqb_spec r 0); [left; lia|].
      destruct (Z.compare_spec (2 * r) b); [destruct (Z.even q)| |]; lia. }
    destruct (round_finish m1 e) as (m & j & E & Hj & Hm & Hv); try lia.
    exists m, j. rewrite E. repeat split; try lia.
    assert (Hj' : j = 0 \/ j = 1) by lia.
    destruct Hj' as [-> | ->]; change (2 ^ 0) with 1 in *;
      change (2 ^ 1) with 2 in *; nia.
  - rewrite shr_fexp_54 by lia.
    destruct q as [|pq|pq]; try lia.
    assert (Hstep : exists m0 bit,
              Zpos pq = 2 * m0 + Z.b2z bit /\
              forall l, shr_1 (shr_record_of_loc (Zpos pq) l)
                        = {| shr_m := m0; shr_r := bit;
                             shr_s := match l with loc_Exact => false
                                               | _ => true end |}).
    { destruct pq as [p|p|]; [exists (Zpos p), true | exists (Zpos p), false|lia];
        (split; [simpl; lia|]); intros [|[]]; reflexivity. }
    destruct Hstep as (m0 & bit & Hq2 & Hshr). rewrite Hshr.
    assert (Hbit : 0 <= Z.b2z bit <= 1) by (destruct bit; simpl; lia).
    cbn [shr_m].
    set (m1 := round_nearest_even m0 _).
    assert (Hm1 : (m1 = m0 /\ Z.b2z bit * b + r <= b)
                  \/ (m1 = m0 + 1 /\ b <= Z.b2z bit * b + r)).
    { unfold m1, Float.location_of, round_nearest_even, loc_of_shr_record.
      destruct (Z.eqb_spec r 0); destruct bit; simpl Z.b2z;
        try destruct (Z.even m0); try (left; lia); right; lia. }
    destruct (round_finish m1 (e + 1)) as (m & j & E & Hj & Hm & Hv); try lia.
    exists m, (1 + j). rewrite E. replace (e + (1 + j)) with (e + 1 + j) by lia.
    repeat split; try lia.
    assert (Hj' : j = 0 \/ j = 1) by lia.
    destruct Hj' as [-> | ->]; change (2 ^ (1 + 0)) with 2;
      change (2 ^ (1 + 1)) with 4; change (2 ^ 0) with 1 in *;
      change (2 ^ 1) with 2 in *; nia.
Qed.

Lemma truediv_spec (a b : Z) :
  0 < a < b -> b < 2 ^ 53 ->
  exists m e,
    Float.truediv a b = S754_finite false m e
    /\ 2 ^ 52 <= Zpos m < 2 ^ 53
    /\ -106 <= e <= -53
    /\ Z.abs (Zpos m * 2 ^ (e + 106) * b - a * 2 ^ 106) * 2
       <= b * 2 ^ (e + 106).
Proof.
  intros Hab Hb.
  destruct a as [|pa|pa]; try lia. destruct b as [|pb|pb]; try lia.
  unfold Float.truediv, Float.exact, SFdiv, SFdiv_core_binary.
  cbn [Zdigits2 xorb].
  pose proof (digits2_bounds pa) as Ha1. pose proof (digits2_bounds pb) as Hb1.
  set (d1 := Zpos (digits2_pos pa)) in *.
  set (d2 := Zpos (digits2_pos pb)) in *.
  assert (Hd1 : 1 <= d1) by (unfold d1; lia).
  assert (Hd12 : d1 <= d2).
  { assert (d1 - 1 < d2) by (apply (Z.pow_lt_mono_r_iff 2); lia). lia. }
  assert (Hd2 : d2 <= 53).
  { assert (d2 - 1 < 53) by (apply (Z.pow_lt_mono_r_iff 2); lia). lia. }
  unfold fexp, emin, Float.prec, Float.emax.
  replace (Z.min (Z.max (d1 + 0 - (d2 + 0) - 53) (3 - 1024 - 53)) (0 - 0))
    with (d1 - d2 - 53) by lia.
  replace (0 - 0 - (d1 - d2 - 53)) with (53 + d2 - d1) by lia.
  set (s := 53 + d2 - d1).
  assert (Hs : 53 <= s <= 105) by (unfold s; lia).
  destruct s as [|ps|ps] eqn:Es; try lia. rewrite <- Es in *.
  rewrite Z.shiftl_mul_pow2 by lia.
  set (P := 2 ^ s).
  pose proof (Z.div_eucl_eq (Zpos pa * P) (Zpos pb) ltac:(lia)) as Hdiv.
  pose proof (Z.mod_pos_bound (Zpos pa * P) (Zpos pb) ltac:(lia)) as Hmod.
  unfold Z.modulo in Hmod.
  destruct (Z.div_eucl (Zpos pa * P) (Zpos pb)) as [q r].
  rewrite new_location_spec by lia.
  assert (HP : 2 ^ (d1 - 1) * P = 2 ^ 53 * 2 ^ (d2 - 1)).
  { unfold P. rewrite <- !Z.pow_add_r by lia. f_equal. unfold s. lia. }
  assert (HB : 2 ^ d2 = 2 * 2 ^ (d2 - 1)).
  { replace d2 with (Z.succ (d2 - 1)) at 1 by lia. apply Z.pow_succ_r. lia. }
  assert (HA : 2 ^ d1 = 2 * 2 ^ (d1 - 1)).
  { replace d1 with (Z.succ (d1 - 1)) at 1 by lia. apply Z.pow_succ_r. lia. }
  assert (HPpos : 0 < P) by (unfold P; apply Z.pow_pos_nonneg; lia).
  assert (HBpos : 0 < 2 ^ (d2 - 1)) by (apply Z.pow_pos_nonneg; lia).
  assert (Hq : 2 ^ 52 <= q < 2 ^ 54).
  { set (A1 := 2 ^ (d1 - 1)) in *. set (B := 2 ^ (d2 - 1)) in *.
    change (2 ^ 53) with 9007199254740992 in *.
    change (2 ^ 52) with 4503599627370496.
    change (2 ^ 54) with 18014398509481984.
    split; nia. }
  destruct (round_aux_spec q (d1 - d2 - 53) (Zpos pb) r Hq ltac:(lia) Hmod)
    as (m & k & E & Hk & Hm & Herr).
  exists m, (d1 - d2 - 53 + k). split; [exact E|]. split; [exact Hm|].
  assert (Hk' : k = 0 \/ k = 1 \/ k = 2) by lia.
  split.
  - split; [unfold s in Hs; lia|].
    assert (Hcases : s = 53 \/ s = 54 \/ 55 <= s) by lia.
    destruct Hcases as [E53|[E54|E55]]; [| |unfold s in E55; lia].
    + assert (P = 2 ^ 53) by (unfold P; now rewrite E53).
      destruct Hk' as [-> | [-> | ->]]; [unfold s in E53; lia| |];
        exfalso; subst P;
        change (2 ^ 53) with 9007199254740992 in *;
        change (2 ^ 52) with 4503599627370496 in *;
        change (2 ^ 1) with 2 in *; change (2 ^ 2) with 4 in *; nia.
    + assert (P = 2 ^ 54) by (unfold P; now rewrite E54).
      destruct Hk' as [-> | [-> | ->]]; [unfold s in E54; lia|unfold s in E54; lia|].
      exfalso; subst P;
        change (2 ^ 54) with 18014398509481984 in *;
        change (2 ^ 53) with 9007199254740992 in *;
        change (2 ^ 52) with 4503599627370496 in *;
        change (2 ^ 2) with 4 in *; nia.
  - set (T := 2 ^ (106 - s)).
    assert (HTpos : 0 < T) by (unfold T; apply Z.pow_pos_nonneg; lia).
    assert (HT : P * T = 2 ^ 106).
    { unfold P, T. rewrite <- Z.pow_add_r by lia. f_equal. lia. }
    assert (HE : 2 ^ (d1 - d2 - 53 + k + 106) = 2 ^ k * T).
    { unfold T. rewrite <- Z.pow_add_r by lia. f_equal. unfold s. lia. }
    rewrite HE, <- HT.
    replace (Z.pos m * (2 ^ k * T) * Z.pos pb - Z.pos pa * (P * T))
      with ((Z.pos m * 2 ^ k * Z.pos pb - (q * Z.pos pb + r)) * T) by lia.
    rewrite Z.abs_mul, (Z.abs_eq T) by lia.
    replace (Z.pos pb * (2 ^ k * T)) with (Z.pos pb * 2 ^ k * T) by ring.
    rewrite <- Z.mul_assoc, (Z.mul_comm T 2), Z.mul_assoc.
    apply Z.mul_le_mono_nonneg_r; lia.
Qed.

Lemma one_eq : Float.one = S754_finite false (2 ^ 52) (-52).
Proof. reflexivity. Qed.

Lemma truediv_unit (a b : Z) :
  0 < a < b -> b < 2 ^ 53 ->
  Float.ltb Float.zero (Float.truediv a b) = true
  /\ Float.ltb (Float.truediv a b) Float.one = true.
Proof.
  intros Hab Hb.
  destruct (truediv_spec a b Hab Hb) as (m & e & E & Hm & He & _).
  rewrite E, one_eq. unfold Float.ltb, SFltb, Float.zero, SFcompare.
  split; [reflexivity|].
  destruct (Z.compare_spec e (-52)); cbv iota; try reflexivity; lia.
Qed.

Lemma truediv_increasing (a a' b : Z) :
  0 < a < a' -> a' < b -> b < 2 ^ 53 ->
  Float.ltb (Float.truediv a b) (Float.truediv a' b) = true.
Proof.
  intros Ha Ha' Hb.
  destruct (truediv_spec a b ltac:(lia) Hb) as (m & e & E & Hm & He & Herr).
  destruct (truediv_spec a' b ltac:(lia) Hb) as (m' & e' & E' & Hm' & He' & Herr').
  rewrite E, E'. unfold Float.ltb, SFltb, SFcompare.
  assert (HS : Zpos m * 2 ^ (e + 106) < Zpos m' * 2 ^ (e' + 106)).
  { assert (H1 : 2 ^ (e + 106) <= 2 ^ 53) by (apply Z.pow_le_mono_r; lia).
    assert (H2 : 2 ^ (e' + 106) <= 2 ^ 53) by (apply Z.pow_le_mono_r; lia).
    assert (H3 : 0 < 2 ^ (e + 106)) by (apply Z.pow_pos_nonneg; lia).
    assert (H4 : 0 < 2 ^ (e' + 106)) by (apply Z.pow_pos_nonneg; lia).
    set (S := Zpos m * 2 ^ (e + 106)) in *.
    set (S' := Zpos m' * 2 ^ (e' + 106)) in *.
    set (E1 := 2 ^ (e + 106)) in *. set (E2 := 2 ^ (e' + 106)) in *.
    change (2 ^ 53) with 9007199254740992 in *.
    change (2 ^ 106) with 81129638414606681695789005144064 in *.
    nia. }
  destruct (Z.compare_spec e e') as [Heq|Hlt|Hgt]; cbv iota;
    [|reflexivity|exfalso].
  - subst e'.
    assert (Hmm : Zpos m < Zpos m').
    { apply (Z.mul_lt_mono_pos_r (2 ^ (e + 106)));
        [apply Z.pow_pos_nonneg; lia | exact HS]. }
    change (Pos.compare_cont Eq m m') with (Pos.compare m m').
    rewrite (proj2 (Pos.compare_lt_iff m m')); [reflexivity | lia].
  - assert (H : 2 * 2 ^ (e' + 106) <= 2 ^ (e + 106)).
    { rewrite <- Z.pow_succ_r by lia. apply Z.pow_le_mono_r; lia. }
    assert (H4 : 0 < 2 ^ (e' + 106)) by (apply Z.pow_pos_nonneg; lia).
    change (2 ^ 53) with 9007199254740992 in *.
    change (2 ^ 52) with 4503599627370496 in *.
    nia.
Qed.

Lemma value_fraction (m : positive) (e : Z) :
  e <= 0 ->
  (Float.value (S754_finite false m e) == Zpos m # Z.to_pos (2 ^ (- e)))%Q.
Proof.
  intros He. unfold Float.value. simpl cond_Zopp.
  replace e with (- (- e)) at 1 by lia.
  rewrite Qpower_opp.
  assert (Hpos : 0 < 2 ^ (- e)) by (apply Z.pow_pos_nonneg; lia).
  rewrite <- (Zpower_Qpower 2 (- e)) by lia.
  rewrite (Qmake_Qdiv (Zpos m) (Z.to_pos (2 ^ (- e)))).
  rewrite Z2Pos.id by exact Hpos. reflexivity.
Qed.

Lemma near_fraction (m : positive) (e a b : Z) :
  -106 <= e <= -53 -> 0 < b ->
  Z.abs (Zpos m * 2 ^ (e + 106) * b - a * 2 ^ 106) * 2 <= b * 2 ^ (e + 106) ->
  (Qabs (Float.value (S754_finite false m e) - inject_Z a / inject_Z b)
   <= 1 # 2 ^ 54)%Q.
Proof.
  intros He Hb Herr.
  rewrite value_fraction by lia.
  destruct b as [|pb|pb]; try lia.
  rewrite <- (Qmake_Qdiv a pb).
  unfold Qminus, Qplus, Qopp, Qabs, Qle. cbn [Qnum Qden].
  set (p := - e) in *.
  assert (Hp : 0 < 2 ^ p) by (apply Z.pow_pos_nonneg; lia).
  rewrite Pos2Z.inj_mul, Z2Pos.id by exact Hp.
  set (T := 2 ^ (e + 106)) in *.
  assert (HT : 0 < T) by (apply Z.pow_pos_nonneg; lia).
  assert (H106 : 2 ^ 106 = 2 ^ p * T).
  { unfold T. rewrite <- Z.pow_add_r by lia. f_equal. lia. }
  assert (H53 : 2 ^ 53 <= 2 ^ p) by (apply Z.pow_le_mono_r; lia).
  rewrite H106 in Herr.
  replace (Z.pos m * T * Z.pos pb - a * (2 ^ p * T))
    with ((Z.pos m * Z.pos pb - a * 2 ^ p) * T) in Herr by ring.
  rewrite Z.abs_mul, (Z.abs_eq T) in Herr by lia.
  replace (Z.pos m * Z.pos pb + - a * 2 ^ p)
    with (Z.pos m * Z.pos pb - a * 2 ^ p) by ring.
  set (X := Z.abs (Z.pos m * Z.pos pb - a * 2 ^ p)) in *.
  clearbody X T.
  assert (HX : X * 2 <= Z.pos pb)
    by (apply (Z.mul_le_mono_pos_r _ _ T); [exact HT | lia]).
  change (Z.pos (2 ^ 54)) with (2 * 2 ^ 53).
  apply Z.le_trans with (Z.pos pb * 2 ^ 53).
  - change (2 ^ 53) with 9007199254740992. lia.
  - rewrite Z.mul_1_l, (Z.mul_comm (2 ^ p)).
    apply Z.mul_le_mono_nonneg_l; lia.
Qed.

(** ** The thumbnail points *)

Lemma range_from_sorted {A} (R : A -> A -> Prop) (f : Z -> A) (start : Z)
    (n : nat) :
  (forall i j, start <= i -> i < j -> j < start + Z.of_nat n -> R (f i) (f j)) ->
  StronglySorted R (map f (range_from start n)).
Proof.
  revert start. induction n as [|n IH]; intros start H; simpl; constructor.
  - apply IH. intros i j Hi Hij Hj. apply H; lia.
  - apply Forall_forall. intros y Hy. apply in_map_iff in Hy.
    destruct Hy as (j & <- & Hj). apply in_range_from in Hj. apply H; lia.
Qed.

Lemma in_points (count i : Z) (f : Float.t) :
  In (i, f) (build_thumbnail_points count)
  <-> 1 <= i <= count /\ f = Float.truediv i (count + 1).
Proof.
  unfold build_thumbnail_points. rewrite in_map_iff. split.
  - intros (j & E & Hj). injection E as <- <-. apply in_range in Hj.
    split; [lia | reflexivity].
  - intros [Hi ->]. exists i. split; [reflexivity|]. apply in_range. lia.
Qed.

(** C3, as the program has it.  For a count [n >= 1] with [n + 1] below
    [2^53], [build_thumbnail_points n] is a list of [n] pairs whose indices
    are [1..n] in this order; the fraction of index [i] is the float
    [i / (n + 1)], which lies within [2^-54] of the rational [i/(n+1)] and
    strictly between [0.0] and [1.0]; and the fractions grow strictly along
    the list. *)
Theorem thumbnail_points_spec (n : Z) :
  1 <= n -> n + 1 < 2 ^ 53 ->
  let points := build_thumbnail_points n in
  Z.of_nat (List.length points) = n
  /\ map fst points = range 1 (n + 1)
  /\ (forall i f, In (i, f) points
                  <-> 1 <= i <= n /\ f = Float.truediv i (n + 1))
  /\ (forall i f, In (i, f) points ->
        Float.ltb Float.zero f = true
        /\ Float.ltb f Float.one = true
        /\ (Qabs (Float.value f - inject_Z i / inject_Z (n + 1))
            <= 1 # 2 ^ 54)%Q)
  /\ StronglySorted
       (fun p q => fst p < fst q /\ Float.ltb (snd p) (snd q) = true) points.
Proof.
  intros Hn Hbound points. unfold points.
  split; [|split; [|split; [|split]]].
  - unfold build_thumbnail_points, range.
    rewrite length_map, range_from_length. lia.
  - apply points_indices.
  - intros i f. apply in_points.
  - intros i f Hin. apply in_points in Hin. destruct Hin as [Hi ->].
    destruct (truediv_unit i (n + 1)) as [H0 H1]; try lia.
    split; [exact H0|]. split; [exact H1|].
    destruct (truediv_spec i (n + 1)) as (m & e & E & Hm & He & Herr); try lia.
    rewrite E. apply near_fraction; try assumption. lia.
  - unfold build_thumbnail_points, range. apply range_from_sorted.
    intros i j Hi Hij Hj. simpl. split; [exact Hij|].
    apply truediv_increasing; lia.
Qed.

Lemma thumbnail_points_spec_witness :
  Z.of_nat (List.length (build_thumbnail_points 3)) = 3
  /\ StronglySorted
       (fun p q => fst p < fst q /\ Float.ltb (snd p) (snd q) = true)
       (build_thumbnail_points 3).
Proof.
  assert (H1 : 1 <= 3) by lia.
  assert (H2 : 3 + 1 < 2 ^ 53) by (vm_compute; reflexivity).
  pose proof (thumbnail_points_spec 3 H1 H2) as H.
  destruct H as (Hlen & _ & _ & _ & Hsorted). split; assumption.
Defined.

(** C3, as stated, fails for a count as large as [2^54]: the fraction of
    the last index, [2^54 / (2^54 + 1)], is the float [1.0], which is not
    below [1.0]. *)
Lemma last_fraction_reaches_one :
  1 <= 2 ^ 54
  /\ In (2 ^ 54, Float.one) (build_thumbnail_points (2 ^ 54))
  /\ Float.ltb Float.one Float.one = false.
Proof.
  split; [vm_compute; discriminate|]. split; [|reflexivity].
  apply in_points. split; [|vm_compute; reflexivity].
  split; vm_compute; discriminate.
Qed.

(** ** The scenarios of the specification *)

(** One file [a.mp4], [--smaller 50], no thumbnails: one conversion at
    scale 0.5 to [<output_dir>/a.mp4], status 0. *)
Example convert_one_file :
  main Demo.plain Demo.defaults 0%nat
  = (Return 0,
     [Discover ["/"; "videos"] ["/"; "videos"; "converted"] false;
      Mkdir ["/"; "videos"; "converted"];
      Stdout "Found 1 MP4 file(s). Running: video conversion at scale factor 0.50 (50% smaller).";
      Stdout "[1/1] a.mp4";
      Mkdir ["/"; "videos"; "converted"];
      Stdout "  convert -> /videos/converted/a.mp4";
      Run ["ffmpeg"; "-hide_banner"; "-loglevel"; "error"; "-n"; "-i";
           "/videos/a.mp4"; "-vf";
           "scale=trunc(iw*0.5/2)*2:trunc(ih*0.5/2)*2"; "-c:v"; "libx264";
           "-preset"; "medium"; "-crf"; "23"; "-c:a"; "aac"; "-b:a"; "128k";
           "-movflags"; "+faststart"; "/videos/converted/a.mp4"]
        {| returncode := 0; stdout := ""; stderr := "" |};
      Stdout "Completed. Conversion failures: 0, Thumbnail failures: 0"],
     1%nat).
Proof. reflexivity. Qed.

(** Three points: a quarter, a half and three quarters. *)
Example three_points :
  build_thumbnail_points 3
  = [(1, S754_finite false 4503599627370496 (-54));
     (2, S754_finite false 4503599627370496 (-53));
     (3, S754_finite false 6755399441055744 (-53))].
Proof. reflexivity. Qed.

(** A failed probe: one more thumbnail failure, no thumbnail command, and
    the second file is still processed; status 1. *)
Example probe_fails_once :
  let r := main Demo.flaky (Demo.with_thumbnails true) 0%nat in
  outcome_of r = Return 1
  /\ subprocesses (trace_of r)
     = [ffprobe_command ["/"; "videos"; "a.mp4"];
        ffprobe_command ["/"; "videos"; "sub"; "b.MP4"]]
  /\ List.length (command_lines (trace_of r)) = 5%nat
  /\ last (trace_of r) (Stdout "")
     = Stdout "Completed. Conversion failures: 0, Thumbnail failures: 1".
Proof. repeat split. Qed.

(** The discovery on the example tree: the earlier output under
    [converted] and the text file are left out, the upper-case extension
    is found only with [recursive]. *)
Example discovery :
  find_mp4_files Demo.plain Demo.videos ["/"; "videos"; "converted"] true
  = [["/"; "videos"; "a.mp4"]; ["/"; "videos"; "sub"; "b.MP4"]]
  /\ find_mp4_files Demo.plain Demo.videos ["/"; "videos"; "converted"] false
     = [["/"; "videos"; "a.mp4"]].
Proof. split; reflexivity. Qed.

(** * Further properties of the program *)

(** ** What [is_relative_to] decides *)

(** X1. [relative_to] and the join of paths are inverse to each other:
    [path.relative_to(base)] succeeds with [rest] exactly when [path] is
    [base] followed by [rest] and, for the empty base [Path(".")], [path]
    is not absolute.  So [is_relative_to] says of a base that is not empty
    whether its parts begin the parts of the path; an absolute path is not
    relative to the empty path and a relative one is; [is_relative_to]
    holds of a path and itself, passes along a chain of directories, and
    two paths relative to each other are equal. *)
Theorem is_relative_to_prefix (path base : Path.t) :
  (forall rest, Path.relative_to path base = Some rest
                <-> path = (base ++ rest)%list
                    /\ (base = [] -> Path.is_absolute path = false))
  /\ (base <> [] ->
      (is_relative_to path base = true
       <-> exists rest, path = (base ++ rest)%list))
  /\ is_relative_to path [] = negb (Path.is_absolute path)
  /\ is_relative_to path path = true
  /\ (forall top, is_relative_to path base = true ->
                  is_relative_to base top = true ->
                  is_relative_to path top = true)
  /\ (is_relative_to path base = true -> is_relative_to base path = true ->
      path = base).
Proof.
  split; [intros rest; apply relative_to_iff|].
  split; [apply is_relative_to_rooted|].
  split.
  { unfold is_relative_to, Path.relative_to.
    now destruct (Path.is_absolute path). }
  split.
  { apply is_relative_to_iff. split; [exists []; now rewrite app_nil_r|].
    now intros ->. }
  split; [intros top; apply is_relative_to_trans|].
  intros H1 H2. apply is_relative_to_iff in H1, H2.
  destruct H1 as [[r1 E1] _], H2 as [[r2 E2] _].
  assert (Hlen : List.length path = List.length base).
  { apply (f_equal (@List.length string)) in E1, E2.
    rewrite length_app in E1, E2. lia. }
  rewrite E1 in Hlen. rewrite length_app in Hlen.
  destruct r1; [now rewrite app_nil_r in E1 | simpl in Hlen; lia].
Qed.

(** ** An output directory that holds the input *)

(** X2. When the resolved input directory is the resolved output directory
    or lies below it (for instance [-o] set to the input directory), and
    no entry of the listing leads out of the input directory when it is
    resolved, every candidate is skipped: nothing is found, and a run that
    passes its checks says so and returns 0 without making a directory or
    starting a subprocess. *)
Theorem output_over_input_finds_nothing (h : Host) (args : Args.t)
    (w : world h) :
  let input_dir := resolved_input h args in
  let output_dir := resolved_output h args in
  (forall rel, In rel (descendants h input_dir) ->
     exists rest,
       resolve h (input_dir ++ rel)%list
       = (resolve h input_dir ++ rest)%list) ->
  (exists rest, resolve h input_dir = (resolve h output_dir ++ rest)%list) ->
  find_mp4_files h input_dir output_dir (Args.recursive args) = []
  /\ (config_error h args = false ->
      main h args w
      = (Return 0,
         [Discover input_dir output_dir (Args.recursive args);
          Stdout "No MP4 files found."], w)).
Proof.
  intros input_dir output_dir Hin [r2 Hover].
  assert (Hnone : find_mp4_files h input_dir output_dir (Args.recursive args)
                  = []).
  { apply Permutation_nil. apply Permutation_sym.
    rewrite found_perm.
    match goal with
    | |- Permutation (filter ?f ?l) [] =>
        assert (E : filter f l = []); [|rewrite E; constructor]
    end.
    assert (Hex : forall p,
              In p (if Args.recursive args
                    then rglob h input_dir else glob h input_dir) ->
              eligible h output_dir p = false).
    { intros p Hp.
      assert (Hrel : exists rel, p = (input_dir ++ rel)%list
                                 /\ In rel (descendants h input_dir)).
      { destruct (Args.recursive args).
        - now apply in_rglob in Hp.
        - apply in_glob in Hp. destruct Hp as (name & -> & Hn).
          now exists [name]. }
      destruct Hrel as (rel & -> & Hrel).
      destruct (Hin rel Hrel) as [r1 E1].
      assert (Hbelow : is_relative_to (resolve h (input_dir ++ rel)%list)
                         (resolve h output_dir) = true).
      { apply is_relative_to_rooted; [apply resolve_rooted|].
        exists (r2 ++ r1)%list. now rewrite E1, Hover, app_assoc. }
      unfold eligible. rewrite Hbelow. now rewrite andb_false_r. }
    induction (if Args.recursive args
               then rglob h input_dir else glob h input_dir) as [|c l IH];
      [reflexivity|].
    simpl. rewrite (Hex c (or_introl eq_refl)). apply IH.
    intros p Hp. apply Hex. now right. }
  split; [exact Hnone|].
  intros Hcfg. rewrite (main_checked h args w Hcfg).
  now apply drive_nothing_found.
Qed.

(** [videoconvert.py /videos -o /videos]. *)
Lemma output_over_input_finds_nothing_witness :
  main Demo.plain (with_output_dir Demo.defaults (Some Demo.videos)) 0%nat
  = (Return 0,
     [Discover ["/"; "videos"] ["/"; "videos"] false;
      Stdout "No MP4 files found."], 0%nat).
Proof.
  apply (output_over_input_finds_nothing Demo.plain
           (with_output_dir Demo.defaults (Some Demo.videos)) 0%nat).
  - intros rel _. now exists rel.
  - now exists [].
  - reflexivity.
Defined.

(** ** Each source once *)




(** ** Which durations pass the check *)

(** X4. The check [duration is None or duration <= 0] lets a float pass
    exactly when it is above zero or not a number: beside every positive
    duration and [inf], a probe that answers [nan] is taken as a duration,
    and then every timestamp [duration * fraction] is [nan] as well. *)
Theorem duration_check (d : Float.t) :
  (duration_unavailable (Some d) = false
   <-> d = S754_nan \/ Float.ltb Float.zero d = true)
  /\ duration_unavailable None = true
  /\ (forall fraction, Float.mul S754_nan fraction = S754_nan).
Proof.
  split; [|split; [reflexivity | intros f; now destruct f]].
  unfold duration_unavailable, Float.leb, Float.ltb, SFleb, SFltb, Float.zero.
  destruct d as [s|[]| |[] m e]; simpl; split; intros H;
    try discriminate; try (destruct H as [H|H]; discriminate); auto.
Qed.

(** ** The two counters, one by one *)

Lemma count_events_app (f : event -> bool) (t1 t2 : list event) :
  count_events f (t1 ++ t2)%list = count_events f t1 + count_events f t2.
Proof. unfold count_events. rewrite filter_app, length_app. lia. Qed.

Lemma prober_runs_app (t1 t2 : list event) :
  prober_runs (t1 ++ t2)%list = (prober_runs t1 ++ prober_runs t2)%list.
Proof. apply flat_map_app. Qed.

Lemma made_app (t1 t2 : list event) :
  made (t1 ++ t2)%list = (made t1 ++ made t2)%list.
Proof. apply flat_map_app. Qed.

Section Tally.

Variable h : Host.
Variable args : Args.t.
Variables input_dir output_dir : Path.t.
Variable scale_factor : Float.t.

Lemma tallied_step (c c1 c2 : Counters) (p1 p2 : list Path.t)
    (t1 t2 : list event) :
  tallied h c p1 c1 t1 -> tallied h c1 p2 c2 t2 ->
  tallied h c (p1 ++ p2) c2 (t1 ++ t2).
Proof.
  unfold tallied. intros (A1 & B1 & C1) (A2 & B2 & C2).
  rewrite !count_events_app, prober_runs_app, map_app, C1, C2.
  repeat split; lia.
Qed.

Lemma tallied_nil (c : Counters) : tallied h c [] c [].
Proof. unfold tallied, count_events. simpl. repeat split; lia. Qed.

Lemma tallied_quiet (c : Counters) (e : event) :
  (forall cmd result, e <> Run cmd result) -> tallied h c [] c [e].
Proof.
  intros He. unfold tallied, count_events.
  destruct e; simpl; try (repeat split; lia).
  exfalso. now apply (He cmd result).
Qed.

Lemma convert_tallied (source rel_parent : Path.t) (c : Counters) :
  spec (convert h args output_dir scale_factor source rel_parent c)
       (tallied h c []).
Proof.
  unfold convert, tallied. repeat mstep; simpl;
    unfold count_events, thumbnail_failed; simpl; rewrite ?Hif0; simpl;
    repeat split; lia.
Qed.

Lemma thumbnail_tallied (source thumb_parent : Path.t) (duration : Float.t)
    (point : Z * Float.t) (c : Counters) :
  spec (thumbnail h args source thumb_parent duration point c)
       (tallied h c []).
Proof.
  unfold thumbnail, tallied. destruct point as [thumb_index fraction].
  repeat mstep; simpl;
    unfold count_events, thumbnail_failed; simpl; rewrite ?Hif0; simpl;
    repeat split; lia.
Qed.

Lemma thumbnail_loop_tallied (source thumb_parent : Path.t)
    (duration : Float.t) (points : list (Z * Float.t)) (c : Counters) :
  spec (thumbnail_loop h args source thumb_parent duration points c)
       (tallied h c []).
Proof.
  revert c. induction points as [|point rest IH]; intros c; simpl.
  - apply spec_ret. apply tallied_nil.
  - apply spec_bind.
    eapply spec_weaken; [apply thumbnail_tallied|].
    intros c1 t1 H1. eapply spec_weaken; [apply IH|].
    intros c2 t2 H2. apply (tallied_step _ _ _ [] [] _ _ H1 H2).
Qed.

Lemma probe_tallied (source : Path.t) (result : CompletedProcess)
    (c : Counters) :
  tallied h c [source]
    (if duration_unavailable (duration_of h result)
     then add_thumbnail_failure c else c)
    [Run (ffprobe_command source) result].
Proof.
  unfold tallied, count_events, thumbnail_failed.
  cbn [filter conversion_failed is_conversion ffprobe_command andb negb].
  rewrite probe_failed.
  destruct (duration_unavailable (duration_of h result)); simpl;
    repeat split; lia.
Qed.

Lemma thumbnails_tallied (source rel_parent : Path.t) (c : Counters) :
  spec (thumbnails h args output_dir source rel_parent c)
       (tallied h c [source]).
Proof.
  unfold thumbnails, ffprobe_duration_seconds.
  apply spec_bind. apply spec_bind. apply spec_run. intros result.
  apply spec_ret.
  pose proof (probe_tallied source result c) as Hprobe.
  assert (Hbad : duration_unavailable (duration_of h result) = true ->
            spec (h := h)
              (bind (print_err h "  thumbnail failed (could not read duration)")
                    (fun _ => ret (add_thumbnail_failure c)))
              (fun c' t2 =>
                 tallied h c [source] c'
                   (([Run (ffprobe_command source) result] ++ [])
                      ++ t2)%list)).
  { intros Hu. rewrite Hu in Hprobe. repeat mstep.
    apply (tallied_step _ _ _ [source] [] _ _ Hprobe).
    apply tallied_quiet. discriminate. }
  destruct (duration_of h result) as [d|] eqn:Hd; [|now apply Hbad].
  destruct (Float.leb d Float.zero) eqn:Hle; [now apply Hbad|].
  simpl in Hprobe. rewrite Hle in Hprobe.
  apply spec_bind. apply spec_emit.
  eapply spec_weaken; [apply thumbnail_loop_tallied|].
  intros c' t Ht.
  apply (tallied_step _ _ _ [source] [] _ _ Hprobe).
  apply (tallied_step _ c _ [] [] _ _); [|exact Ht].
  apply tallied_quiet. discriminate.
Qed.

Lemma process_file_tallied (total index : Z) (source rel : Path.t)
    (c : Counters) :
  Path.relative_to source input_dir = Some rel ->
  spec (process_file h args input_dir output_dir scale_factor total index
          source c)
       (tallied h c
          (if Args.thumbnails args || Args.thumbnails_only args
           then [source] else [])).
Proof.
  intros Hrel. unfold process_file. rewrite Hrel.
  apply spec_bind. apply spec_ret.
  apply spec_bind. apply spec_emit.
  apply spec_bind.
  assert (Hconv : spec (h := h)
            (if negb (Args.thumbnails_only args)
             then convert h args output_dir scale_factor source
                    (Path.parent rel) c
             else ret c)
            (tallied h c [])).
  { destruct (negb (Args.thumbnails_only args)).
    - apply convert_tallied.
    - apply spec_ret. apply tallied_nil. }
  eapply spec_weaken; [exact Hconv|].
  intros c1 t1 H1.
  assert (Hhead : forall line, tallied h c [] c ([] ++ [Stdout line])%list)
    by (intros line; apply tallied_quiet; discriminate).
  destruct (Args.thumbnails args || Args.thumbnails_only args).
  - eapply spec_weaken; [apply thumbnails_tallied|].
    intros c2 t2 H2.
    apply (tallied_step _ _ _ [] [source] _ _ (Hhead _)).
    apply (tallied_step _ _ _ [] [source] _ _ H1 H2).
  - apply spec_ret.
    apply (tallied_step _ _ _ [] [] _ _ (Hhead _)).
    apply (tallied_step _ _ _ [] [] _ _ H1 (tallied_nil c1)).
Qed.

Lemma process_all_tallied (total index : Z) (sources : list Path.t)
    (c : Counters) :
  Forall (fun source => exists rel,
            Path.relative_to source input_dir = Some rel) sources ->
  spec (process_all h args input_dir output_dir scale_factor total index
          sources c)
       (tallied h c
          (if Args.thumbnails args || Args.thumbnails_only args
           then sources else [])).
Proof.
  intros Hall. revert index c.
  induction Hall as [|source rest [rel Hrel] Hrest IH]; intros index c; simpl.
  - apply spec_ret.
    destruct (Args.thumbnails args || Args.thumbnails_only args);
      apply tallied_nil.
  - apply spec_bind.
    eapply spec_weaken; [apply (process_file_tallied _ _ _ _ _ Hrel)|].
    intros c1 t1 H1. eapply spec_weaken; [apply IH|].
    intros c2 t2 H2.
    pose proof (tallied_step _ _ _ _ _ _ _ H1 H2) as H12.
    destruct (Args.thumbnails args || Args.thumbnails_only args); exact H12.
Qed.

End Tally.

Lemma tallied_skip (h : Host) (c c1 c2 : Counters) (p : list Path.t)
    (t1 t2 : list event) :
  tallied h c [] c1 t1 -> tallied h c1 p c2 t2 -> tallied h c p c2 (t1 ++ t2).
Proof. apply (tallied_step h c c1 c2 [] p). Qed.

Lemma tallied_then (h : Host) (c c1 c2 : Counters) (p : list Path.t)
    (t1 t2 : list event) :
  tallied h c p c1 t1 -> tallied h c1 [] c2 t2 -> tallied h c p c2 (t1 ++ t2).
Proof.
  intros H1 H2. rewrite <- (app_nil_r p). now apply tallied_step with c1.
Qed.

Lemma drive_tallied (h : Host) (args : Args.t) (input_dir output_dir : Path.t)
    (scale_factor : Float.t) :
  input_dir <> [] ->
  find_mp4_files h input_dir output_dir (Args.recursive args) <> [] ->
  spec (drive h args input_dir output_dir scale_factor)
    (fun code t =>
       let x := count_events conversion_failed t in
       let y := count_events (thumbnail_failed h) t in
       last t (Stdout "")
       = Stdout ("Completed. Conversion failures: " ++ Text.str_int x
                   ++ ", Thumbnail failures: " ++ Text.str_int y)
       /\ code = (if x + y =? 0 then 0 else 1)
       /\ prober_runs t
          = map ffprobe_command
              (if Args.thumbnails args || Args.thumbnails_only args
               then find_mp4_files h input_dir output_dir (Args.recursive args)
               else [])).
Proof.
  intros rooted Hne. unfold drive. cbv zeta.
  pose proof (found_relative h input_dir output_dir (Args.recursive args)
                rooted) as Hrel.
  destruct (find_mp4_files h input_dir output_dir (Args.recursive args))
    as [|source rest] eqn:Es; [congruence|].
  apply spec_bind. apply spec_emit.
  apply spec_bind. apply spec_emit.
  apply spec_bind.
  apply (spec_weaken _ (fun _ t => tallied h
           {| conversion_failures := 0; thumbnail_failures := 0 |} []
           {| conversion_failures := 0; thumbnail_failures := 0 |} t)).
  { apply spec_when; intros Hc;
      [apply spec_emit; apply tallied_quiet; discriminate | apply tallied_nil]. }
  intros _ t0 H0.
  apply spec_bind. apply spec_emit.
  apply spec_bind.
  eapply spec_weaken; [apply (process_all_tallied _ _ _ _ _ _ _ _ _ Hrel)|].
  intros c t Ht.
  apply spec_bind. apply spec_emit. apply spec_ret.
  match goal with
  | |- context [Stdout ("Completed. Conversion failures: " ++ ?a) :: []] =>
      set (done := Stdout ("Completed. Conversion failures: " ++ a))
  end.
  match goal with
  | |- context [Stdout ("Found " ++ ?a)] => set (found := Stdout ("Found " ++ a))
  end.
  assert (Hall : tallied h
            {| conversion_failures := 0; thumbnail_failures := 0 |}
            (if Args.thumbnails args || Args.thumbnails_only args
             then source :: rest else []) c
            ([Discover input_dir output_dir (Args.recursive args)]
               ++ [Mkdir output_dir] ++ t0 ++ [found] ++ t ++ [done] ++ [])%list).
  { eapply tallied_skip; [apply tallied_quiet; discriminate|].
    eapply tallied_skip; [apply tallied_quiet; discriminate|].
    eapply tallied_skip; [exact H0|].
    eapply tallied_skip; [apply tallied_quiet; discriminate|].
    eapply tallied_then; [exact Ht|].
    eapply tallied_skip; [|apply tallied_nil].
    apply tallied_quiet. discriminate. }
  destruct Hall as (Hx & Hy & Hp).
  cbn [app conversion_failures thumbnail_failures] in Hx, Hy, Hp.
  rewrite Z.add_0_l in Hx, Hy.
  cbv zeta. cbn [app]. rewrite <- Hx, <- Hy. split; [|split].
  - change (Discover input_dir output_dir (Args.recursive args)
              :: Mkdir output_dir :: t0 ++ found :: t ++ [done])%list
      with ([Discover input_dir output_dir (Args.recursive args);
             Mkdir output_dir] ++ t0 ++ (found :: t) ++ [done])%list.
    rewrite last_app_nonempty by (destruct t0; discriminate).
    rewrite last_app_nonempty by discriminate.
    rewrite last_last. reflexivity.
  - reflexivity.
  - exact Hp.
Qed.

(** X5. In a run that passes its checks and finds sources, the two numbers
    of the closing line are the number of conversions that ended with a
    status other than 0 and the number of failed thumbnail operations
    (probes without a usable duration and extractions that ended with a
    status other than 0); the run returns 1 exactly when one of them is not
    zero.  A failure of one kind never shows in the other counter. *)
Theorem closing_line_counts (h : Host) (args : Args.t) (w : world h) :
  config_error h args = false ->
  find_mp4_files h (resolved_input h args) (resolved_output h args)
    (Args.recursive args) <> [] ->
  let r := main h args w in
  let x := count_events conversion_failed (trace_of r) in
  let y := count_events (thumbnail_failed h) (trace_of r) in
  last (trace_of r) (Stdout "")
  = Stdout ("Completed. Conversion failures: " ++ Text.str_int x
              ++ ", Thumbnail failures: " ++ Text.str_int y)
  /\ outcome_of r = Return (if x + y =? 0 then 0 else 1)
  /\ (forall e, conversion_failed e && thumbnail_failed h e = false).
Proof.
  intros Hcfg Hne r x y. unfold x, y, r.
  rewrite (main_checked h args w Hcfg).
  destruct (drive_tallied h args (resolved_input h args)
              (resolved_output h args) (scale_of args) (input_rooted h args)
              Hne w)
    as (code & t & w' & E & Hlast & Hcode & _).
  rewrite E. unfold trace_of, outcome_of. simpl.
  split; [exact Hlast|]. split; [now rewrite Hcode|].
  intros e. unfold thumbnail_failed.
  destruct (conversion_failed e); [now rewrite andb_false_r | reflexivity].
Qed.

(** A run on two sources whose first subprocess, the conversion of the
    first source, fails. *)
Lemma closing_line_counts_witness :
  last (trace_of (main Demo.flaky (Demo.with_thumbnails false) 0%nat))
       (Stdout "")
  = Stdout "Completed. Conversion failures: 1, Thumbnail failures: 0"
  /\ outcome_of (main Demo.flaky (Demo.with_thumbnails false) 0%nat)
     = Return 1.
Proof.
  pose proof (closing_line_counts Demo.flaky (Demo.with_thumbnails false)
                0%nat eq_refl) as H.
  destruct H as (H1 & H2 & _); [discriminate|].
  split; [rewrite H1 | rewrite H2]; reflexivity.
Defined.

(** X6. In every run, dry or not, the prober is started once for each
    source found, in the sorted order of the sources, when thumbnails are
    asked for; and it is never started when they are not, or when a check
    fails. *)
Theorem probes_once_per_source (h : Host) (args : Args.t) (w : world h) :
  prober_runs (trace_of (main h args w))
  = if config_error h args then []
    else if Args.thumbnails args || Args.thumbnails_only args
         then map ffprobe_command
                (find_mp4_files h (resolved_input h args)
                   (resolved_output h args) (Args.recursive args))
         else [].
Proof.
  destruct (config_error h args) eqn:Hcfg.
  - destruct (main_rejected h args w Hcfg) as (t & E & _ & Ht).
    rewrite E. unfold trace_of. simpl. clear E.
    induction t as [|e t IH]; [reflexivity|].
    simpl in Ht. destruct e; try discriminate. simpl. now apply IH.
  - rewrite (main_checked h args w Hcfg).
    destruct (find_mp4_files h (resolved_input h args)
                (resolved_output h args) (Args.recursive args))
      as [|source rest] eqn:Es.
    + rewrite drive_nothing_found by exact Es. unfold trace_of. simpl.
      now destruct (Args.thumbnails args || Args.thumbnails_only args).
    + destruct (drive_tallied h args (resolved_input h args)
                  (resolved_output h args) (scale_of args)
                  (input_rooted h args)) with (w := w)
        as (code & t & w' & E & _ & _ & Hp); [rewrite Es; discriminate|].
      rewrite E. unfold trace_of. simpl. rewrite Hp, Es.
      now destruct (Args.thumbnails args || Args.thumbnails_only args).
Qed.

(** ** The directories of a run *)

Section Directories.

Variable h : Host.
Variable args : Args.t.
Variables input_dir output_dir : Path.t.
Variable scale_factor : Float.t.
Variable durations : Path.t -> option Float.t.
Hypothesis stable : forall source w,
  duration_of h (fst (run h (ffprobe_command source) w)) = durations source.
Hypothesis rooted : input_dir <> [].

Lemma made_step (d1 d2 : list Path.t) (t1 t2 : list event) :
  made t1 = d1 -> made t2 = d2 -> made (t1 ++ t2) = (d1 ++ d2)%list.
Proof. intros <- <-. apply made_app. Qed.

Lemma convert_made (source rel_parent : Path.t) (c : Counters) :
  spec (convert h args output_dir scale_factor source rel_parent c)
       (fun _ t => made t = [Path.join output_dir rel_parent]).
Proof. unfold convert. repeat mstep; reflexivity. Qed.

Lemma thumbnail_made (source thumb_parent : Path.t) (duration : Float.t)
    (point : Z * Float.t) (c : Counters) :
  spec (thumbnail h args source thumb_parent duration point c)
       (fun _ t => made t = []).
Proof.
  unfold thumbnail. destruct point as [thumb_index fraction].
  repeat mstep; reflexivity.
Qed.

Lemma thumbnail_loop_made (source thumb_parent : Path.t) (duration : Float.t)
    (points : list (Z * Float.t)) (c : Counters) :
  spec (thumbnail_loop h args source thumb_parent duration points c)
       (fun _ t => made t = []).
Proof.
  revert c. induction points as [|point rest IH]; intros c; simpl.
  - now apply spec_ret.
  - apply spec_bind.
    eapply spec_weaken; [apply thumbnail_made|].
    intros c1 t1 H1. eapply spec_weaken; [apply IH|].
    intros c2 t2 H2. apply (made_step [] [] _ _ H1 H2).
Qed.

Lemma thumbnails_made (source rel_parent : Path.t) (c : Counters) :
  spec (thumbnails h args output_dir source rel_parent c)
       (fun _ t =>
          made t
          = match durations source with
            | Some d =>
                if Float.leb d Float.zero then []
                else [Path.join (Path.joinpath output_dir "thumbnails")
                        rel_parent]
            | None => []
            end).
Proof.
  unfold thumbnails, ffprobe_duration_seconds.
  apply spec_bind. apply spec_bind. apply spec_run_at. intros w.
  rewrite <- (stable source w).
  set (result := fst (run h (ffprobe_command source) w)).
  apply spec_ret.
  destruct (duration_of h result) as [d|]; [|repeat mstep; reflexivity].
  destruct (Float.leb d Float.zero); [repeat mstep; reflexivity|].
  apply spec_bind. apply spec_emit.
  eapply spec_weaken; [apply thumbnail_loop_made|].
  intros c' t Ht. rewrite !made_app, Ht. reflexivity.
Qed.

Lemma process_file_made (total index : Z) (source rel : Path.t)
    (c : Counters) :
  Path.relative_to source input_dir = Some rel ->
  spec (process_file h args input_dir output_dir scale_factor total index
          source c)
       (fun _ t => made t = made_for args input_dir output_dir durations source).
Proof.
  intros Hrel. unfold process_file, made_for. rewrite Hrel.
  apply spec_bind. apply spec_ret.
  apply spec_bind. apply spec_emit.
  apply spec_bind.
  assert (Hconv : spec (h := h)
            (if negb (Args.thumbnails_only args)
             then convert h args output_dir scale_factor source
                    (Path.parent rel) c
             else ret c)
            (fun _ t =>
               made t = if negb (Args.thumbnails_only args)
                        then [Path.join output_dir (Path.parent rel)]
                        else [])).
  { destruct (negb (Args.thumbnails_only args)).
    - apply convert_made.
    - now apply spec_ret. }
  eapply spec_weaken; [exact Hconv|].
  intros c1 t1 H1.
  destruct (Args.thumbnails args || Args.thumbnails_only args).
  - eapply spec_weaken; [apply thumbnails_made|].
    intros c2 t2 H2. rewrite !made_app, H1, H2. reflexivity.
  - apply spec_ret. rewrite !made_app, H1. simpl. now rewrite app_nil_r.
Qed.

Lemma process_all_made (total index : Z) (sources : list Path.t)
    (c : Counters) :
  Forall (fun source => exists rel,
            Path.relative_to source input_dir = Some rel) sources ->
  spec (process_all h args input_dir output_dir scale_factor total index
          sources c)
       (fun _ t =>
          made t
          = flat_map (made_for args input_dir output_dir durations) sources).
Proof.
  intros Hall. revert index c.
  induction Hall as [|source rest [rel Hrel] Hrest IH]; intros index c; simpl.
  - now apply spec_ret.
  - apply spec_bind.
    eapply spec_weaken; [apply (process_file_made _ _ _ _ _ Hrel)|].
    intros c1 t1 H1. eapply spec_weaken; [apply IH|].
    intros c2 t2 H2. apply (made_step _ _ _ _ H1 H2).
Qed.

Lemma drive_made :
  spec (drive h args input_dir output_dir scale_factor)
    (fun _ t =>
       made t
       = match find_mp4_files h input_dir output_dir (Args.recursive args) with
         | [] => []
         | sources =>
             (output_dir
              :: (if Args.thumbnails args || Args.thumbnails_only args
                  then [Path.joinpath output_dir "thumbnails"] else [])
              ++ flat_map (made_for args input_dir output_dir durations)
                   sources)%list
         end).
Proof.
  unfold drive. cbv zeta.
  pose proof (found_relative h input_dir output_dir (Args.recursive args)
                rooted) as Hrel.
  destruct (find_mp4_files h input_dir output_dir (Args.recursive args))
    as [|source rest] eqn:Es.
  - repeat mstep. reflexivity.
  - apply spec_bind. apply spec_emit.
    apply spec_bind. apply spec_emit.
    apply spec_bind.
    apply (spec_weaken _ (fun _ t =>
             made t = if Args.thumbnails args || Args.thumbnails_only args
                      then [Path.joinpath output_dir "thumbnails"] else [])).
    { apply spec_when; intros Hc; [apply spec_emit|]; rewrite Hc; reflexivity. }
    intros _ t0 H0.
    apply spec_bind. apply spec_emit.
    apply spec_bind.
    eapply spec_weaken; [apply (process_all_made _ _ _ _ Hrel)|].
    intros c t Ht.
    apply spec_bind. apply spec_emit. apply spec_ret.
    rewrite !made_app, H0, Ht. simpl. now rewrite app_nil_r.
Qed.

End Directories.

(** X7. With probes that answer the same duration whenever they are made,
    the directories a run makes are: none when a check fails or no source
    is found; otherwise the output directory, then its [thumbnails]
    directory when thumbnails are asked for, then for each source the
    mirror of its parent below the output directory when it is converted
    and below [thumbnails] when its duration is usable.  [--dry-run] takes
    no part in this: a dry run makes the directories of the real run. *)
Theorem directories_of_a_run (h : Host) (args : Args.t) (w : world h)
    (durations : Path.t -> option Float.t) :
  (forall source w0,
     duration_of h (fst (run h (ffprobe_command source) w0))
     = durations source) ->
  let input_dir := resolved_input h args in
  let output_dir := resolved_output h args in
  made (trace_of (main h args w))
  = (if config_error h args then []
     else match find_mp4_files h input_dir output_dir (Args.recursive args) with
          | [] => []
          | sources =>
              (output_dir
               :: (if Args.thumbnails args || Args.thumbnails_only args
                   then [Path.joinpath output_dir "thumbnails"] else [])
               ++ flat_map (made_for args input_dir output_dir durations)
                    sources)%list
          end)
  /\ (forall (b : bool) (w' : world h),
        made (trace_of (main h (with_dry_run args b) w'))
        = made (trace_of (main h args w))).
Proof.
  intros stable input_dir output_dir.
  assert (Hmade : forall a w0,
            made (trace_of (main h a w0))
            = (if config_error h a then []
               else match find_mp4_files h (resolved_input h a)
                            (resolved_output h a) (Args.recursive a) with
                    | [] => []
                    | sources =>
                        (resolved_output h a
                         :: (if Args.thumbnails a || Args.thumbnails_only a
                             then [Path.joinpath (resolved_output h a)
                                     "thumbnails"] else [])
                         ++ flat_map (made_for a (resolved_input h a)
                                        (resolved_output h a) durations)
                              sources)%list
                    end)).
  { intros a w0. destruct (config_error h a) eqn:Hcfg.
    - destruct (main_rejected h a w0 Hcfg) as (t & E & _ & Ht).
      rewrite E. unfold trace_of. simpl. clear E.
      induction t as [|e t IH]; [reflexivity|].
      simpl in Ht. destruct e; try discriminate. simpl. now apply IH.
    - rewrite (main_checked h a w0 Hcfg).
      destruct (drive_made h a (resolved_input h a) (resolved_output h a)
                  (scale_of a) durations stable (input_rooted h a) w0)
        as (code & t & w1 & E & Ht).
      rewrite E. exact Ht. }
  split; [apply Hmade|].
  intros b w'. rewrite (Hmade (with_dry_run args b) w'), (Hmade args w).
  reflexivity.
Qed.

Lemma directories_of_a_run_witness :
  made (trace_of (main Demo.plain (Demo.with_thumbnails true) 0%nat))
  = [ ["/"; "videos"; "converted"];
      ["/"; "videos"; "converted"; "thumbnails"];
      ["/"; "videos"; "converted"];
      ["/"; "videos"; "converted"; "thumbnails"];
      ["/"; "videos"; "converted"; "sub"];
      ["/"; "videos"; "converted"; "thumbnails"; "sub"] ].
Proof.
  rewrite (proj1 (directories_of_a_run Demo.plain (Demo.with_thumbnails true)
                    0%nat (fun _ => Some (Float.of_int 100))
                    (fun source w0 => eq_refl))).
  reflexivity.
Defined.

(** ** The output mirrors the input *)

Lemma substring_all (s : string) : String.substring 0 (String.length s) s = s.
Proof. induction s as [|c s IH]; simpl; [reflexivity | now rewrite IH]. Qed.

Lemma substring_parts (s : string) (n : nat) :
  (n <= String.length s)%nat ->
  String.substring 0 n s ++ String.substring n (String.length s - n) s = s.
Proof.
  revert n. induction s as [|c s IH]; intros n Hn.
  - destruct n; [reflexivity | simpl in Hn; lia].
  - destruct n as [|n].
    + simpl. now rewrite substring_all.
    + simpl in *. rewrite IH by lia. reflexivity.
Qed.

Lemma append_empty_r (s : string) : s ++ "" = s.
Proof. induction s as [|c s IH]; simpl; [reflexivity | now rewrite IH]. Qed.

Lemma stem_suffix (p : Path.t) : Path.stem p ++ Path.suffix p = Path.name p.
Proof.
  unfold Path.stem, Path.suffix.
  set (name := Path.name p). set (i := Text.rfind "." name).
  destruct ((0 <? i) && (i <? Text.len name - 1)) eqn:E.
  - apply andb_true_iff in E. destruct E as [E1 E2].
    apply Z.ltb_lt in E1, E2. unfold Text.take, Text.drop.
    apply substring_parts. unfold Text.len in E2. lia.
  - apply append_empty_r.
Qed.

Lemma is_name_split (x : string) :
  is_name x = true ->
  Text.split "/" x = [x] /\ Path.keep_part x = true.
Proof.
  unfold is_name. intros H. apply andb_true_iff in H. destruct H as [Hk Hs].
  split; [|exact Hk].
  destruct (Text.split "/" x) as [|whole [|]]; try discriminate.
  apply String.eqb_eq in Hs. now subst.
Qed.

Lemma of_string_name (x : string) :
  is_name x = true -> Path.of_string x = [x].
Proof.
  intros H. destruct (is_name_split x H) as [Hs Hk].
  unfold Path.of_string. rewrite Hs. simpl filter. rewrite Hk.
  destruct x as [|c x]; [reflexivity|].
  destruct (Ascii.eqb_spec c "/") as [->|Hc].
  - simpl in Hs. discriminate.
  - destruct c as [[] [] [] [] [] [] [] []]; try reflexivity.
    now contradiction Hc.
Qed.

Lemma joinpath_name (base : Path.t) (x : string) :
  is_name x = true -> Path.joinpath base x = (base ++ [x])%list.
Proof.
  intros H. unfold Path.joinpath. rewrite (of_string_name x H).
  unfold Path.join, Path.is_absolute.
  destruct (String.eqb_spec x Path.sep) as [->|_]; [discriminate | reflexivity].
Qed.

Lemma is_name_not_root (x : string) : is_name x = true -> x <> Path.sep.
Proof. intros H ->. discriminate. Qed.

Lemma split_single_prefix (c : ascii) (a b : string) :
  Text.split c (a ++ b) = [a ++ b] -> Text.split c a = [a].
Proof.
  induction a as [|d a IH]; simpl; [reflexivity|].
  destruct (Ascii.eqb d c); [discriminate|].
  destruct (Text.split c (a ++ b)) as [|w ws] eqn:E.
  - now apply split_nonempty in E.
  - intros H. injection H as -> ->. now rewrite IH.
Qed.

Lemma names_relative (dirs : Path.t) :
  Forall (fun part => is_name part = true) dirs ->
  Path.is_absolute dirs = false.
Proof.
  intros H. destruct H as [|x l Hx _]; [reflexivity|]. simpl.
  destruct (String.eqb_spec x Path.sep) as [->|]; [discriminate | reflexivity].
Qed.

Lemma names_parent (rel : Path.t) :
  Forall (fun part => is_name part = true) rel ->
  Path.parent rel = removelast rel.
Proof.
  intros H. destruct rel as [|x [|y l]]; try reflexivity.
  simpl. apply Forall_inv in H.
  destruct (String.eqb_spec x Path.sep) as [->|]; [discriminate | reflexivity].
Qed.

(** X8. For a source [input_dir/rel] whose parts are names: its stem and
    its suffix put together are its name; the directory made for its
    conversion is [output_dir] followed by the directories of [rel]; with
    the default empty [--suffix] the destination is [output_dir/rel], the
    same relative path as the source; and its thumbnail of index [i] is
    written to
    [output_dir/thumbnails/<directories of rel>/<stem>_thumb_<i>.jpg]. *)
Theorem output_mirrors_input (h : Host) (args : Args.t)
    (input_dir output_dir : Path.t) (scale_factor : Float.t) (rel : Path.t) :
  Forall (fun part => is_name part = true) rel -> rel <> [] ->
  let source := (input_dir ++ rel)%list in
  Path.stem source ++ Path.suffix source = last rel ""
  /\ Path.join output_dir (Path.parent rel)
     = (output_dir ++ removelast rel)%list
  /\ (Args.suffix args = "" ->
      planned_conversion h args output_dir scale_factor source (Path.parent rel)
      = ffmpeg_command h source (output_dir ++ rel)%list scale_factor
          (Args.crf args) (Args.preset args) (Args.audio_bitrate args)
          (Args.overwrite args))
  /\ (forall duration point, 0 <= fst point ->
        planned_thumbnail h args output_dir source (Path.parent rel)
          duration point
        = thumbnail_command h source
            (output_dir ++ ["thumbnails"] ++ removelast rel
               ++ [thumb_filename (Path.stem source) (fst point)])%list
            (Float.mul duration (snd point)) (Args.overwrite args)).
Proof.
  intros Hnames Hne source.
  assert (Hlast : is_name (last rel "") = true).
  { rewrite Forall_forall in Hnames. apply Hnames.
    rewrite (app_removelast_last "" Hne) at 2.
    apply in_or_app. right. now left. }
  assert (Hname : Path.name source = last rel "").
  { unfold Path.name, source. rewrite last_app_nonempty by exact Hne.
    destruct (String.eqb_spec (last rel "") Path.sep) as [E|_];
      [|reflexivity].
    now apply is_name_not_root in Hlast. }
  assert (Hdirs : Forall (fun part => is_name part = true) (removelast rel)).
  { rewrite Forall_forall in *. intros x Hx. apply Hnames.
    rewrite (app_removelast_last "" Hne). apply in_or_app. now left. }
  assert (Hjoin : Path.join output_dir (Path.parent rel)
                  = (output_dir ++ removelast rel)%list).
  { rewrite (names_parent rel Hnames). unfold Path.join.
    now rewrite (names_relative _ Hdirs). }
  split; [rewrite stem_suffix; exact Hname|].
  split; [exact Hjoin|]. split.
  - intros Hsuffix. unfold planned_conversion. rewrite Hsuffix, Hjoin.
    change (Path.stem source ++ "" ++ Path.suffix source)
      with (Path.stem source ++ Path.suffix source).
    rewrite stem_suffix, Hname, (joinpath_name _ _ Hlast), <- app_assoc.
    rewrite <- (app_removelast_last "" Hne). reflexivity.
  - intros duration [i f] Hi. unfold planned_thumbnail. cbn [fst snd] in *.
    cut (Path.joinpath
           (Path.join (Path.joinpath output_dir "thumbnails") (Path.parent rel))
           (thumb_filename (Path.stem source) i)
         = (output_dir ++ ["thumbnails"] ++ removelast rel
              ++ [thumb_filename (Path.stem source) i])%list);
      [now intros -> |].
    change (Path.joinpath output_dir "thumbnails")
      with (Path.join output_dir ["thumbnails"]).
    assert (Hout : Path.join output_dir ["thumbnails"]
                   = (output_dir ++ ["thumbnails"])%list) by reflexivity.
    rewrite Hout. rewrite (names_parent rel Hnames). unfold Path.join at 1.
    rewrite (names_relative _ Hdirs).
    assert (Hstem : Text.split "/" (Path.stem source) = [Path.stem source]).
    { apply (split_single_prefix "/" _ (Path.suffix source)).
      rewrite stem_suffix, Hname. now apply is_name_split. }
    rewrite joinpath_name; [now rewrite <- !app_assoc|].
    unfold is_name, thumb_filename. rewrite append_thumb_is_name.
    rewrite (split_app_plain "/" _ _ Hstem (thumb_tail_plain i Hi)).
    now rewrite String.eqb_refl.
Qed.

Lemma output_mirrors_input_witness :
  planned_conversion Demo.plain Demo.defaults ["/"; "out"] Float.one
    ["/"; "videos"; "sub"; "b.MP4"] ["sub"]
  = ffmpeg_command Demo.plain ["/"; "videos"; "sub"; "b.MP4"]
      ["/"; "out"; "sub"; "b.MP4"] Float.one 23 "medium" "128k" false.
Proof.
  assert (Hnames : Forall (fun part => is_name part = true) ["sub"; "b.MP4"])
    by (repeat constructor).
  assert (Hne : ["sub"; "b.MP4"] <> []) by discriminate.
  apply (proj1 (proj2 (proj2 (output_mirrors_input Demo.plain Demo.defaults
           Demo.videos ["/"; "out"] Float.one ["sub"; "b.MP4"] Hnames Hne)))).
  reflexivity.
Defined.

(** ** Every operation is attempted *)

Lemma filter_map_const {A B} (f : B -> bool) (g : A -> B) (b : bool)
    (l : list A) :
  (forall x, f (g x) = b) ->
  filter f (map g l) = if b then map g l else [].
Proof.
  intros H. induction l as [|x l IH]; simpl.
  - now destruct b.
  - rewrite H, IH. now destruct b.
Qed.

Section Attempts.

Variable h : Host.
Variable args : Args.t.
Variables input_dir output_dir : Path.t.
Variable scale_factor : Float.t.
Variable durations : Path.t -> option Float.t.

Lemma planned_thumbnails_length (source rel_parent : Path.t) :
  List.length
    (planned_thumbnails h args output_dir durations source rel_parent)
  = if duration_unavailable (durations source) then 0%nat
    else Z.to_nat (Args.thumbnail_count args).
Proof.
  unfold planned_thumbnails, duration_unavailable.
  destruct (durations source) as [d|]; [|reflexivity].
  destruct (Float.leb d Float.zero); [reflexivity|].
  unfold build_thumbnail_points, range.
  rewrite !length_map, range_from_length. f_equal. lia.
Qed.

Lemma planned_thumbnails_kind (keep : bool) (source rel_parent : Path.t) :
  filter (fun cmd => Bool.eqb (is_conversion cmd) keep)
    (planned_thumbnails h args output_dir durations source rel_parent)
  = if keep then []
    else planned_thumbnails h args output_dir durations source rel_parent.
Proof.
  unfold planned_thumbnails.
  destruct (durations source) as [d|]; [|now destruct keep].
  destruct (Float.leb d Float.zero); [now destruct keep|].
  rewrite (filter_map_const _ _ (negb keep)); [now destruct keep|].
  intros point. now destruct keep.
Qed.

Lemma plan_kinds (keep : bool) (sources : list Path.t) :
  Forall (fun source => exists rel,
            Path.relative_to source input_dir = Some rel) sources ->
  List.length (filter (fun cmd => Bool.eqb (is_conversion cmd) keep)
                 (plan h args input_dir output_dir scale_factor durations
                    sources))
  = if keep
    then if Args.thumbnails_only args then 0%nat else List.length sources
    else if Args.thumbnails args || Args.thumbnails_only args
         then (Z.to_nat (Args.thumbnail_count args)
               * List.length
                   (filter (fun source =>
                              negb (duration_unavailable (durations source)))
                      sources))%nat
         else 0%nat.
Proof.
  intros Hrel. induction Hrel as [|source rest [rel Hs] _ IH].
  - simpl. destruct keep; [now destruct (Args.thumbnails_only args)|].
    destruct (Args.thumbnails args || Args.thumbnails_only args); simpl; lia.
  - unfold plan in *. cbn [flat_map].
    rewrite filter_app, length_app, IH. clear IH.
    unfold planned_file. rewrite Hs. rewrite filter_app, length_app.
    pose proof (planned_thumbnails_kind keep source (Path.parent rel)) as Hk.
    pose proof (planned_thumbnails_length source (Path.parent rel)) as Hl.
    assert (Hc : is_conversion
                   (planned_conversion h args output_dir scale_factor source
                      (Path.parent rel)) = true) by reflexivity.
    destruct (Args.thumbnails_only args), (Args.thumbnails args),
      keep; cbn [negb orb filter Datatypes.length app Nat.add] in *;
      rewrite ?Hc, ?Hk, ?Hl;
      destruct (duration_unavailable (durations source));
      cbn [negb Datatypes.length Nat.add Bool.eqb];
      rewrite ?Nat.mul_succ_r; lia.
Qed.

End Attempts.

(** X9. A failed operation never ends the run or skips a later one.  In a
    run without [--dry-run] whose checks pass, on any host whatever its
    subprocesses return (only the probe of a source answering the same
    duration whenever it is made), the encoder subprocesses are, in order
    and for each source in turn, its conversion (unless
    [--thumbnails-only]) and then, when thumbnails are asked for and its
    duration is usable, one command for each thumbnail point.  So there is
    exactly one conversion for each source, and [--thumbnail-count]
    thumbnail commands for each source with a usable duration. *)
Theorem failures_do_not_stop_the_run (h : Host) (args : Args.t) (w : world h)
    (durations : Path.t -> option Float.t) :
  (forall source w0,
     duration_of h (fst (run h (ffprobe_command source) w0))
     = durations source) ->
  Args.dry_run args = false ->
  config_error h args = false ->
  let sources :=
    find_mp4_files h (resolved_input h args) (resolved_output h args)
      (Args.recursive args) in
  let runs := encoder_runs (trace_of (main h args w)) in
  runs = plan h args (resolved_input h args) (resolved_output h args)
           (scale_of args) durations sources
  /\ List.length (filter is_conversion runs)
     = (if Args.thumbnails_only args then 0%nat else List.length sources)
  /\ List.length (filter (fun cmd => negb (is_conversion cmd)) runs)
     = (if Args.thumbnails args || Args.thumbnails_only args
        then (Z.to_nat (Args.thumbnail_count args)
              * List.length
                  (filter (fun source =>
                             negb (duration_unavailable (durations source)))
                     sources))%nat
        else 0%nat).
Proof.
  intros stable Hreal Hcfg sources runs.
  assert (Hruns : runs = plan h args (resolved_input h args)
                           (resolved_output h args) (scale_of args) durations
                           sources).
  { unfold runs. rewrite (main_checked h args w Hcfg).
    destruct (drive_planned h args (resolved_input h args)
                (resolved_output h args) (scale_of args) durations stable
                (input_rooted h args) w)
      as (code & t & w1 & E & Hplan).
    rewrite E. unfold planned_by in Hplan. rewrite Hreal in Hplan.
    exact Hplan. }
  pose proof (found_relative h (resolved_input h args) (resolved_output h args)
                (Args.recursive args) (input_rooted h args)) as Hrel.
  split; [exact Hruns|]. rewrite Hruns. split.
  - rewrite <- (plan_kinds h args _ (resolved_output h args) (scale_of args)
                  durations true sources Hrel).
    f_equal. apply filter_ext. intros cmd. now destruct (is_conversion cmd).
  - rewrite <- (plan_kinds h args _ (resolved_output h args) (scale_of args)
                  durations false sources Hrel).
    reflexivity.
Qed.

Lemma failures_do_not_stop_the_run_witness :
  List.length
    (filter is_conversion
       (encoder_runs (trace_of (main Demo.plain (Demo.with_thumbnails false)
                                  0%nat))))
  = 2%nat.
Proof.
  rewrite (proj1 (proj2 (failures_do_not_stop_the_run Demo.plain
                           (Demo.with_thumbnails false) 0%nat
                           (fun _ => Some (Float.of_int 100))
                           (fun source w0 => eq_refl) eq_refl eq_refl))).
  reflexivity.
Defined.

(** ** A run without thumbnails *)

Section ConversionOnly.

Variable h : Host.
Variable args : Args.t.
Hypothesis no_thumbnails : Args.thumbnails args = false.
Hypothesis not_only : Args.thumbnails_only args = false.

Variables input_dir output_dir : Path.t.
Variable scale_factor : Float.t.

Lemma process_file_count_ext (k total index : Z) (source : Path.t)
    (c : Counters) (w : world h) :
  process_file h (with_thumbnail_count args k) input_dir output_dir
    scale_factor total index source c w
  = process_file h args input_dir output_dir scale_factor total index
      source c w.
Proof.
  unfold process_file.
  cbn [with_thumbnail_count Args.thumbnails Args.thumbnails_only].
  rewrite no_thumbnails, not_only. reflexivity.
Qed.

Lemma process_all_count_ext (k total index : Z) (sources : list Path.t)
    (c : Counters) (w : world h) :
  process_all h (with_thumbnail_count args k) input_dir output_dir
    scale_factor total index sources c w
  = process_all h args input_dir output_dir scale_factor total index
      sources c w.
Proof.
  revert index c w. induction sources as [|source rest IH]; intros index c w;
    simpl; [reflexivity|].
  apply bind_ext; [apply process_file_count_ext | intros; apply IH].
Qed.

Lemma drive_count_ext (k : Z) (w : world h) :
  drive h (with_thumbnail_count args k) input_dir output_dir scale_factor w
  = drive h args input_dir output_dir scale_factor w.
Proof.
  unfold drive. cbv zeta.
  cbn [with_thumbnail_count Args.thumbnails Args.thumbnails_only
       Args.recursive Args.thumbnail_count Args.smaller].
  rewrite no_thumbnails, not_only. cbn [negb orb].
  apply bind_ext; [reflexivity|]. intros _ w1.
  destruct (find_mp4_files h input_dir output_dir (Args.recursive args));
    [reflexivity|].
  repeat (apply bind_ext; [reflexivity|]; intros ? ?).
  apply bind_ext; [apply process_all_count_ext | reflexivity].
Qed.

End ConversionOnly.

(** X10. Without [--thumbnails] and [--thumbnails-only] the value of
    [--thumbnail-count] is not looked at: the run is the same for every
    count, zero and negative ones included, and so is the outcome of the
    checks, which then do not ask for the prober either. *)
Theorem thumbnail_count_unused_without_thumbnails (h : Host) (args : Args.t)
    (w : world h) :
  Args.thumbnails args = false -> Args.thumbnails_only args = false ->
  (forall k, main h (with_thumbnail_count args k) w = main h args w)
  /\ (forall k, config_error h (with_thumbnail_count args k)
                = negb (which h "ffmpeg") || bad_directory h args
                  || bad_percent args).
Proof.
  intros Ht Ho. split.
  - intros k. unfold main. cbv zeta.
    cbn [with_thumbnail_count Args.thumbnails Args.thumbnails_only
         Args.recursive Args.thumbnail_count Args.smaller Args.input_dir
         Args.output_dir].
    rewrite Ht, Ho. cbn [negb orb andb].
    destruct (negb (which h "ffmpeg")); [reflexivity|].
    destruct (negb (path_exists h (resolve h (expanduser h (Args.input_dir args))))
              || negb (is_dir h (resolve h (expanduser h (Args.input_dir args)))));
      [reflexivity|].
    destruct (resolve_scale true (Args.smaller args)); [reflexivity|].
    apply drive_count_ext; assumption.
  - intros k. unfold config_error, tools_missing, bad_count.
    cbn [with_thumbnail_count Args.thumbnails Args.thumbnails_only].
    rewrite Ht, Ho. cbn [orb andb]. now rewrite !orb_false_r.
Qed.

Lemma thumbnail_count_unused_without_thumbnails_witness :
  main Demo.plain (with_thumbnail_count Demo.defaults 0) 0%nat
  = main Demo.plain Demo.defaults 0%nat.
Proof.
  apply (proj1 (thumbnail_count_unused_without_thumbnails Demo.plain
                  Demo.defaults 0%nat eq_refl eq_refl)).
Defined.

(** ** The timestamps of the thumbnails *)

Lemma shr_1_m (mrs : shr_record) :
  0 <= shr_m mrs -> shr_m (shr_1 mrs) = shr_m mrs / 2.
Proof.
  destruct mrs as [m r s]. cbn [shr_m]. intros Hm.
  destruct m as [|[p|p|]|p]; unfold shr_1; cbv beta iota; cbn [shr_m];
    try lia.
  - reflexivity.
  - apply (Z.div_unique _ _ _ 1); lia.
  - apply (Z.div_unique _ _ _ 0); lia.
  - reflexivity.
Qed.

Lemma iter_shr_m (p : positive) (mrs : shr_record) :
  0 <= shr_m mrs ->
  shr_m (SpecFloat.iter_pos shr_1 p mrs) = shr_m mrs / 2 ^ Zpos p.
Proof.
  revert mrs. induction p as [p IH|p IH|]; intros mrs Hm; cbn [SpecFloat.iter_pos].
  - assert (Hpow : 0 < 2 ^ Zpos p) by (apply Z.pow_pos_nonneg; lia).
    assert (H1 : 0 <= shr_m (shr_1 mrs))
      by (rewrite shr_1_m by lia; apply Z.div_pos; lia).
    assert (H2 : 0 <= shr_m (SpecFloat.iter_pos shr_1 p (shr_1 mrs)))
      by (rewrite IH by lia; apply Z.div_pos; lia).
    rewrite IH, IH, shr_1_m by lia.
    rewrite !Z.div_div by lia. f_equal.
    replace (Zpos p~1) with (1 + Zpos p + Zpos p) by lia.
    rewrite !Z.pow_add_r by lia. change (2 ^ 1) with 2. ring.
  - assert (Hpow : 0 < 2 ^ Zpos p) by (apply Z.pow_pos_nonneg; lia).
    assert (H2 : 0 <= shr_m (SpecFloat.iter_pos shr_1 p mrs))
      by (rewrite IH by lia; apply Z.div_pos; lia).
    rewrite IH, IH by lia.
    rewrite !Z.div_div by lia. f_equal.
    replace (Zpos p~0) with (Zpos p + Zpos p) by lia.
    rewrite !Z.pow_add_r by lia. reflexivity.
  - now apply shr_1_m.
Qed.

(** The first shift of the rounding brings an exact mantissa to the
    exponent of the format. *)
Lemma first_shift (P : positive) (E : Z) :
  exists mrs,
    shr_fexp 53 1024 (Zpos P) E loc_Exact
    = (mrs, Z.max E (fexp 53 1024 (Zpos (digits2_pos P) + E)))
    /\ shr_m mrs
       = Zpos P / 2 ^ (Z.max E (fexp 53 1024 (Zpos (digits2_pos P) + E)) - E).
Proof.
  unfold shr_fexp. cbn [Zdigits2 shr_record_of_loc].
  set (x := fexp 53 1024 (Zpos (digits2_pos P) + E)).
  unfold shr. destruct (x - E) as [|n|n] eqn:En.
  - eexists. split; [f_equal; lia|]. cbn [shr_m].
    replace (Z.max E x - E) with 0 by lia. now rewrite Z.pow_0_r, Z.div_1_r.
  - eexists. split; [f_equal; lia|].
    rewrite iter_shr_m by (cbn [shr_m]; lia). cbn [shr_m].
    do 2 f_equal. lia.
  - eexists. split; [f_equal; lia|]. cbn [shr_m].
    replace (Z.max E x - E) with 0 by lia. now rewrite Z.pow_0_r, Z.div_1_r.
Qed.

(** The second shift takes out the carry of the rounding, if there is
    one. *)
Lemma second_shift (m1 e1 : Z) :
  0 <= m1 <= 2 ^ 53 -> -1074 <= e1 ->
  exists mrs e2,
    shr_fexp 53 1024 m1 e1 loc_Exact = (mrs, e2)
    /\ ((shr_m mrs = m1 /\ e2 = e1)
        \/ (m1 = 2 ^ 53 /\ shr_m mrs = 2 ^ 52 /\ e2 = e1 + 1)).
Proof.
  intros Hm He. destruct (Z.eq_dec m1 (2 ^ 53)) as [->|Hne].
  - exists {| shr_m := 2 ^ 52; shr_r := false; shr_s := false |}, (e1 + 1).
    split; [|right; auto].
    unfold shr_fexp. change (Zdigits2 (2 ^ 53)) with 54. unfold fexp, emin.
    replace (Z.max (54 + e1 - 53) (3 - 1024 - 53) - e1) with 1 by lia.
    reflexivity.
  - exists (shr_record_of_loc m1 loc_Exact), e1.
    split; [|left; split; reflexivity].
    unfold shr_fexp.
    assert (Hd : Zdigits2 m1 <= 53).
    { destruct m1 as [|p|p]; cbn [Zdigits2]; try lia.
      pose proof (digits2_bounds p) as [B _].
      assert (Zpos (digits2_pos p) - 1 < 53)
        by (apply (Z.pow_lt_mono_r_iff 2); lia).
      lia. }
    unfold fexp, emin.
    destruct (Z.max (Zdigits2 m1 + e1 - 53) (3 - 1024 - 53) - e1)
      as [|n|n] eqn:En; try reflexivity.
    lia.
Qed.

(** A float of at most 53 digits times a positive factor below one, rounded:
    zero, or a float that is not above the first operand. *)
Lemma mul_fraction_round (md mf : positive) (ed ef : Z) :
  Zpos (digits2_pos md) <= 53 -> -1074 <= ed <= 971 ->
  ef < 0 -> Zpos mf < 2 ^ (- ef) ->
  binary_round_aux 53 1024 false (Zpos (md * mf)) (ed + ef) loc_Exact
  = S754_zero false
  \/ exists m e,
       binary_round_aux 53 1024 false (Zpos (md * mf)) (ed + ef) loc_Exact
       = S754_finite false m e
       /\ (e < ed \/ (e = ed /\ Zpos m <= Zpos md)).
Proof.
  intros Hdig Hed Hef Hmf. unfold binary_round_aux.
  set (P := (md * mf)%positive). set (E := ed + ef).
  pose proof (digits2_bounds md) as [_ Bmd].
  pose proof (digits2_bounds P) as [BP1 BP2].
  destruct (first_shift P E) as (mrs1 & E1 & Hq). rewrite E1. clear E1.
  set (dP := Zpos (digits2_pos P)) in *.
  set (dm := Zpos (digits2_pos md)) in *.
  assert (Hmd : Zpos md < 2 ^ 53).
  { eapply Z.lt_le_trans; [exact Bmd|]. apply Z.pow_le_mono_r; lia. }
  assert (Hpow : 0 < 2 ^ (- ef)) by (apply Z.pow_pos_nonneg; lia).
  assert (HP : Zpos P < Zpos md * 2 ^ (- ef)).
  { unfold P. rewrite Pos2Z.inj_mul. apply Z.mul_lt_mono_pos_l; lia. }
  assert (HdP : dP + ef <= dm).
  { assert (H : 2 ^ (dP - 1) < 2 ^ (dm - ef)).
    { replace (dm - ef) with (dm + - ef) by lia.
      rewrite Z.pow_add_r by lia.
      eapply Z.le_lt_trans; [exact BP1|].
      eapply Z.lt_trans; [exact HP|].
      apply Z.mul_lt_mono_pos_r; lia. }
    apply Z.pow_lt_mono_r_iff in H; lia. }
  set (e1 := Z.max E (fexp 53 1024 (dP + E))) in *.
  assert (He1 : E <= e1 <= ed /\ -1074 <= e1 /\ dP - 53 <= e1 - E).
  { unfold e1, fexp, emin, E. lia. }
  set (q := shr_m mrs1) in *.
  set (m1 := round_nearest_even q (loc_of_shr_record mrs1)).
  assert (T : 0 < 2 ^ (e1 - E)) by (apply Z.pow_pos_nonneg; lia).
  assert (Hq0 : 0 <= q) by (rewrite Hq; apply Z.div_pos; lia).
  assert (Hm1 : q <= m1 <= q + 1).
  { unfold m1, round_nearest_even.
    destruct (loc_of_shr_record mrs1) as [|[]]; try destruct (Z.even q); lia. }
  assert (HK : q < Zpos md * 2 ^ (ed - e1)).
  { rewrite Hq. apply Z.div_lt_upper_bound; [exact T|].
    replace (2 ^ (e1 - E) * (Zpos md * 2 ^ (ed - e1)))
      with (Zpos md * 2 ^ (- ef)); [exact HP|].
    rewrite (Z.mul_comm (2 ^ (e1 - E))), <- Z.mul_assoc, <- Z.pow_add_r by lia.
    do 2 f_equal. unfold E. lia. }
  assert (Hq53 : q < 2 ^ 53).
  { rewrite Hq. apply Z.div_lt_upper_bound; [exact T|].
    rewrite <- Z.pow_add_r by lia.
    eapply Z.lt_le_trans; [exact BP2|]. apply Z.pow_le_mono_r; lia. }
  destruct (second_shift m1 e1) as (mrs2 & e2 & E2 & Hcase); [lia | lia |].
  rewrite E2. clear E2.
  destruct Hcase as [[Hs He2] | (Hm53 & Hs & He2)]; rewrite Hs.
  - destruct m1 as [|m|m] eqn:Em; [left; reflexivity | right | lia].
    exists m, e2. subst e2.
    destruct (Z.leb_spec e1 (1024 - 53)); [|lia]. split; [reflexivity|].
    destruct (Z.eq_dec e1 ed) as [Heq|]; [right | left; lia].
    split; [exact Heq|].
    rewrite Heq, Z.sub_diag, Z.pow_0_r in HK. lia.
  - right. exists 4503599627370496%positive, e2.
    assert (Hlt : e1 < ed).
    { destruct (Z.eq_dec e1 ed) as [Heq|]; [|lia].
      rewrite Heq, Z.sub_diag, Z.pow_0_r in HK. lia. }
    change (2 ^ 52) with 4503599627370496. cbv iota.
    destruct (Z.leb_spec e2 (1024 - 53)); [|lia]. split; [reflexivity|].
    destruct (Z.eq_dec e2 ed) as [Heq|]; [right | left; lia].
    split; [exact Heq|].
    replace (ed - e1) with 1 in HK by lia. change (2 ^ 1) with 2 in HK.
    change (2 ^ 53) with 9007199254740992 in *. lia.
Qed.

Lemma bounded_digits (m : positive) (e : Z) :
  bounded 53 1024 m e = true ->
  Zpos (digits2_pos m) <= 53 /\ -1074 <= e <= 971.
Proof.
  unfold bounded, canonical_mantissa, fexp, emin. intros H.
  apply andb_true_iff in H. destruct H as [H1 H2].
  apply Z.eqb_eq in H1. apply Z.leb_le in H2. lia.
Qed.

Lemma ltb_finite (m m' : positive) (e e' : Z) :
  Float.ltb (S754_finite false m e) (S754_finite false m' e') = true ->
  e < e' \/ (e = e' /\ Zpos m < Zpos m').
Proof.
  unfold Float.ltb, SFltb, SFcompare.
  destruct (Z.compare_spec e e') as [Heq|Hlow|Hhigh]; cbv iota;
    try discriminate; [|left; exact Hlow].
  change (Pos.compare_cont Eq m m') with (Pos.compare m m').
  destruct (Pos.compare_spec m m'); try discriminate.
  intros _. right. split; [exact Heq | lia].
Qed.

Lemma below_one (m : positive) (e : Z) :
  bounded 53 1024 m e = true ->
  Float.ltb (S754_finite false m e) Float.one = true ->
  e < 0 /\ Zpos m < 2 ^ (- e).
Proof.
  intros Hb Hlt. destruct (bounded_digits m e Hb) as [Hd He].
  pose proof (digits2_bounds m) as [_ B].
  assert (Hm : Zpos m < 2 ^ 53).
  { eapply Z.lt_le_trans; [exact B|]. apply Z.pow_le_mono_r; lia. }
  rewrite one_eq in Hlt. apply ltb_finite in Hlt.
  change (Zpos (2 ^ 52)) with (2 ^ 52) in Hlt.
  destruct Hlt as [Hlow | [-> Hlow]].
  - split; [lia|]. eapply Z.lt_le_trans; [exact Hm|].
    apply Z.pow_le_mono_r; lia.
  - split; [lia | exact Hlow].
Qed.

(** [duration * fraction] for a positive duration and a fraction strictly
    between 0 and 1. *)
Lemma mul_fraction (d f : Float.t) :
  valid_binary 53 1024 d = true -> valid_binary 53 1024 f = true ->
  Float.ltb Float.zero d = true ->
  Float.ltb Float.zero f = true -> Float.ltb f Float.one = true ->
  Float.leb Float.zero (Float.mul d f) = true
  /\ Float.leb (Float.mul d f) d = true.
Proof.
  intros Vd Vf Hd Hf0 Hf1. rewrite one_eq in Hf1.
  destruct f as [[]|[]| |[] mf ef]; try discriminate.
  rewrite <- one_eq in Hf1. cbn [valid_binary] in Vf.
  destruct (below_one mf ef Vf Hf1) as [Hef Hmf].
  destruct d as [[]|[]| |[] md ed]; try discriminate.
  - split; reflexivity.
  - cbn [valid_binary] in Vd. destruct (bounded_digits md ed Vd) as [Hdig Hed].
    unfold Float.mul, Float.prec, Float.emax, SFmul. cbn [xorb].
    destruct (mul_fraction_round md mf ed ef Hdig Hed Hef Hmf)
      as [E | (m & e & E & Hcmp)]; rewrite E.
    + split; reflexivity.
    + split; [reflexivity|]. unfold Float.leb, SFleb, SFcompare.
      destruct Hcmp as [Hlt | [-> Hle]].
      * now rewrite (proj2 (Z.compare_lt_iff e ed) Hlt).
      * rewrite Z.compare_refl.
        change (Pos.compare_cont Eq m md) with (Pos.compare m md).
        destruct (Pos.compare_spec m md); try reflexivity. lia.
Qed.

Lemma truediv_valid (a b : Z) :
  0 < a < b -> b < 2 ^ 53 ->
  valid_binary 53 1024 (Float.truediv a b) = true.
Proof.
  intros Hab Hb.
  destruct (truediv_spec a b Hab Hb) as (m & e & E & Hm & He & _).
  rewrite E. cbn [valid_binary]. unfold bounded, canonical_mantissa.
  rewrite (digits2_unique m 53) by (simpl; lia).
  unfold fexp, emin. apply andb_true_iff. split.
  - apply Z.eqb_eq. lia.
  - apply Z.leb_le. lia.
Qed.

(** X11. Every timestamp handed to the encoder lies within the video: for a
    count [n >= 1] with [n + 1] below [2^53] and a duration that is a
    binary64 value above zero (an infinite one included), the product
    [duration * fraction] of line 340 is, for each thumbnail point of
    [build_thumbnail_points n], a float that is neither below [0.0] nor
    above the duration. *)
Theorem timestamps_within_duration (n : Z) (duration : Float.t)
    (point : Z * Float.t) :
  1 <= n -> n + 1 < 2 ^ 53 ->
  valid_binary 53 1024 duration = true ->
  duration_unavailable (Some duration) = false ->
  duration <> S754_nan ->
  In point (build_thumbnail_points n) ->
  let timestamp := Float.mul duration (snd point) in
  Float.leb Float.zero timestamp = true
  /\ Float.leb timestamp duration = true.
Proof.
  intros Hn Hbig Hvalid Hpos Hnan Hin timestamp.
  destruct point as [i f]. apply in_points in Hin. destruct Hin as [Hi ->].
  destruct (truediv_unit i (n + 1)) as [H0 H1]; [lia | lia |].
  apply mul_fraction; try assumption.
  - apply truediv_valid; lia.
  - unfold duration_unavailable, Float.leb, SFleb in Hpos.
    unfold Float.ltb, SFltb, Float.zero in *.
    destruct duration as [[]|[]| |[] m e]; try discriminate; try reflexivity.
    now contradiction Hnan.
Qed.

Lemma timestamps_within_duration_witness :
  Float.leb Float.zero
    (Float.mul (Float.of_int 100) (Float.truediv 2 4)) = true
  /\ Float.leb (Float.mul (Float.of_int 100) (Float.truediv 2 4))
       (Float.of_int 100) = true.
Proof.
  apply (timestamps_within_duration 3 (Float.of_int 100)
           (2, Float.truediv 2 4)).
  - lia.
  - reflexivity.
  - reflexivity.
  - reflexivity.
  - discriminate.
  - right. left. reflexivity.
Defined.

(** ** Outputs and sources *)

Lemma name_head (x : string) :
  is_name x = true -> exists c y, x = String c y /\ c <> "/"%char.
Proof.
  intros H. destruct (is_name_split x H) as [Hs Hk].
  destruct x as [|c y]; [discriminate|]. exists c, y. split; [reflexivity|].
  intros ->. simpl in Hs. discriminate.
Qed.

Lemma stem_head (p : Path.t) (c : ascii) (x : string) :
  Path.name p = String c x -> exists y, Path.stem p = String c y.
Proof.
  intros Hname. unfold Path.stem. rewrite Hname.
  destruct ((0 <? Text.rfind "." (String c x))
            && (Text.rfind "." (String c x) <? Text.len (String c x) - 1))
    eqn:E; [|now exists x].
  apply andb_true_iff in E. destruct E as [E _]. apply Z.ltb_lt in E.
  unfold Text.take.
  destruct (Z.to_nat (Text.rfind "." (String c x))) as [|k] eqn:Ek; [lia|].
  simpl. eauto.
Qed.

Lemma split_single_suffix (c : ascii) (a b : string) :
  Text.split c (a ++ b) = [a ++ b] -> Text.split c b = [b].
Proof.
  induction a as [|d a IH]; simpl; [auto|].
  destruct (Ascii.eqb d c).
  - intros H. injection H as _ H. now apply split_nonempty in H.
  - destruct (Text.split c (a ++ b)) as [|w ws] eqn:E.
    + now apply split_nonempty in E.
    + intros H. injection H as -> ->. now apply IH.
Qed.

Lemma append_empty_inv (a b : string) : a ++ b = "" -> a = "" /\ b = "".
Proof. destruct a; simpl; [auto | discriminate]. Qed.

(** X12. With a [--suffix] that holds no separator the converted file stays
    in the mirror of its directory: for a source [input_dir/rel] whose
    parts are names, [stem + suffix + extension] is one file name and the
    destination handed to the encoder is
    [output_dir/<directories of rel>/<that name>].  And a destination that
    resolves to the output directory or below it is the file of no source
    found, since discovery skips every file that resolves there. *)
Theorem destination_in_mirror (h : Host) (args : Args.t)
    (input_dir output_dir : Path.t) (scale_factor : Float.t) (rel : Path.t) :
  Forall (fun part => is_name part = true) rel -> rel <> [] ->
  Text.split "/" (Args.suffix args) = [Args.suffix args] ->
  let source := (input_dir ++ rel)%list in
  let file := Path.stem source ++ Args.suffix args ++ Path.suffix source in
  let destination := (output_dir ++ removelast rel ++ [file])%list in
  is_name file = true
  /\ planned_conversion h args output_dir scale_factor source (Path.parent rel)
     = ffmpeg_command h source destination scale_factor (Args.crf args)
         (Args.preset args) (Args.audio_bitrate args) (Args.overwrite args)
  /\ ((exists rest,
         resolve h destination = (resolve h output_dir ++ rest)%list) ->
      forall s,
        In s (find_mp4_files h input_dir output_dir (Args.recursive args)) ->
        resolve h s <> resolve h destination).
Proof.
  intros Hnames Hne Hplain source file destination.
  assert (Hlast : is_name (last rel "") = true).
  { rewrite Forall_forall in Hnames. apply Hnames.
    rewrite (app_removelast_last "" Hne) at 2.
    apply in_or_app. right. now left. }
  assert (Hname : Path.name source = last rel "").
  { unfold Path.name, source. rewrite last_app_nonempty by exact Hne.
    destruct (String.eqb_spec (last rel "") Path.sep) as [E|_];
      [|reflexivity].
    now apply is_name_not_root in Hlast. }
  assert (Hdirs : Forall (fun part => is_name part = true) (removelast rel)).
  { rewrite Forall_forall in *. intros x Hx. apply Hnames.
    rewrite (app_removelast_last "" Hne). apply in_or_app. now left. }
  destruct (name_head _ Hlast) as (c & y & Ec & Hc).
  destruct (stem_head source c y) as [z Hstem]; [congruence|].
  pose proof (stem_suffix source) as Hparts. rewrite Hname in Hparts.
  destruct (is_name_split _ Hlast) as [Hwhole _].
  rewrite <- Hparts in Hwhole.
  assert (Hsplit : Text.split "/" file = [file]).
  { unfold file. apply split_app_plain.
    - exact (split_single_prefix "/" _ _ Hwhole).
    - apply split_app_plain; [exact Hplain|].
      exact (split_single_suffix "/" _ _ Hwhole). }
  assert (Hfile : is_name file = true).
  { unfold is_name. rewrite Hsplit, String.eqb_refl, andb_true_r.
    unfold Path.keep_part. apply andb_true_iff.
    split; apply negb_true_iff; apply String.eqb_neq; intros E;
      unfold file in E; rewrite Hstem in E; [discriminate|].
    simpl in E. injection E as Edot Erest.
    apply append_empty_inv in Erest. destruct Erest as [Ez Erest].
    apply append_empty_inv in Erest. destruct Erest as [_ Eext].
    rewrite Hstem, Eext, Ez, Edot in Hparts. simpl in Hparts.
    rewrite <- Hparts in Hlast. discriminate. }
  split; [exact Hfile|]. split.
  - unfold planned_conversion. fold file.
    rewrite (names_parent rel Hnames). unfold Path.join at 1.
    rewrite (names_relative _ Hdirs), (joinpath_name _ _ Hfile).
    unfold destination. now rewrite <- app_assoc.
  - intros Hbelow s Hin E.
    apply (Permutation_in _ (found_perm h input_dir output_dir
                               (Args.recursive args))) in Hin.
    apply filter_In in Hin. destruct Hin as [_ Hin].
    apply eligible_iff in Hin. destruct Hin as (_ & _ & Hin).
    apply below_output_iff in Hin. apply Hin. now rewrite E.
Qed.

(** [--suffix _small] on the video in the subdirectory. *)
Lemma destination_in_mirror_witness :
  planned_conversion Demo.plain (with_suffix Demo.defaults "_small")
    ["/"; "out"] Float.one ["/"; "videos"; "sub"; "b.MP4"] ["sub"]
  = ffmpeg_command Demo.plain ["/"; "videos"; "sub"; "b.MP4"]
      ["/"; "out"; "sub"; "b_small.MP4"] Float.one 23 "medium" "128k" false.
Proof.
  assert (Hnames : Forall (fun part => is_name part = true) ["sub"; "b.MP4"])
    by (repeat constructor).
  assert (Hne : ["sub"; "b.MP4"] <> []) by discriminate.
  exact (proj1 (proj2 (destination_in_mirror Demo.plain
                         (with_suffix Demo.defaults "_small") Demo.videos
                         ["/"; "out"] Float.one ["sub"; "b.MP4"]
                         Hnames Hne eq_refl))).
Defined.

(** ** Failures and standard error *)






Section Reports.

Variable h : Host.
Variable args : Args.t.
Variables input_dir output_dir : Path.t.
Variable scale_factor : Float.t.
Hypothesis rooted : input_dir <> [].













End Reports.

